(** * Session lifecycle of the vrite backend, and the git-sync
      content-piece handler

    Shallow embedding of
    [packages/backend/src/plugins/git-sync/handlers/content-piece-updated.ts]
    (the git-sync handler followed by the session module) and of
    [apps/web/src/ee/subscription-banner.tsx], and the properties of the
    session specification checked against them.

    Layout: the Redis keyspace and its commands; the collaborators
    (cookie/JWT transport, [JSON], [URL], the document database) as
    interfaces; the session functions in the order of the source; the
    git-sync handler; observations on the keyspace and the predicates of
    the statements; concrete collaborators and example requests; lemmas
    on keys and commands; the properties, each with its example; further
    properties of the banner, the handler and the session module. *)

From stdpp Require Import base option list gmap sets strings.
From Stdlib Require Import ZArith Ascii.

Local Open Scope Z_scope.
Local Open Scope string_scope.

(** ** Errors a promise can reject with *)

Inductive exn :=
  | StoreUnavailable            (* a Redis round trip failed *)
  | WrongType (key : string)    (* Redis WRONGTYPE reply *)
  | LookupFailed (coll : string)(* a database lookup rejected *)
  | NotFound (what : string)    (* errors.notFound(what) *)
  | JwtInvalid                  (* jwt.verify threw *)
  | InvalidUrl                  (* new URL(...) threw a TypeError *)
  | JsonSyntax.                 (* JSON.parse threw *)

(** ** The Redis keyspace

    One keyspace; a key holds a string, a set or a hash, and optionally a
    time to live in seconds: the time the key has left, as [TTL] reports
    it.  No time passes within a request; between requests it passes by
    [elapse], which removes the keys whose time has run out. *)

Module Redis.

Inductive value :=
  | VString (s : string)
  | VSet (members : gset string)
  | VHash (fields : gmap string string).

Record entry := Entry { e_val : value; e_ttl : option Z }.

Abbreviation keyspace := (gmap string entry).

Definition reply (A : Type) : Type := (exn + A * keyspace)%type.

Definition get (k : string) (ks : keyspace) : reply (option string) :=
  match ks !! k with
  | None => inr (None, ks)
  | Some (Entry (VString s) _) => inr (Some s, ks)
  | Some _ => inl (WrongType k)
  end.

(* SET key value EX seconds: replaces the key whatever it held. *)
Definition set_ex (k v : string) (seconds : Z) (ks : keyspace) : reply unit :=
  inr (tt, <[k := Entry (VString v) (Some seconds)]> ks).

Definition del (k : string) (ks : keyspace) : reply unit :=
  inr (tt, delete k ks).

Definition expire (k : string) (seconds : Z) (ks : keyspace) : reply unit :=
  match ks !! k with
  | None => inr (tt, ks)
  | Some e => inr (tt, <[k := Entry (e_val e) (Some seconds)]> ks)
  end.

(* EXISTS replies with the number of keys found. *)
Definition exists_ (k : string) (ks : keyspace) : reply Z :=
  match ks !! k with
  | None => inr (0, ks)
  | Some _ => inr (1, ks)
  end.

Definition sadd (k m : string) (ks : keyspace) : reply unit :=
  match ks !! k with
  | None => inr (tt, <[k := Entry (VSet {[ m ]}) None]> ks)
  | Some (Entry (VSet s) t) => inr (tt, <[k := Entry (VSet ({[ m ]} ∪ s)) t]> ks)
  | Some _ => inl (WrongType k)
  end.

(* A set that loses its last member is removed from the keyspace. *)
Definition srem (k m : string) (ks : keyspace) : reply unit :=
  match ks !! k with
  | None => inr (tt, ks)
  | Some (Entry (VSet s) t) =>
      if decide (s ∖ {[ m ]} = ∅) then inr (tt, delete k ks)
      else inr (tt, <[k := Entry (VSet (s ∖ {[ m ]})) t]> ks)
  | Some _ => inl (WrongType k)
  end.

Definition smembers (k : string) (ks : keyspace) : reply (list string) :=
  match ks !! k with
  | None => inr ([], ks)
  | Some (Entry (VSet s) _) => inr (elements s, ks)
  | Some _ => inl (WrongType k)
  end.

Definition hset (k f v : string) (ks : keyspace) : reply unit :=
  match ks !! k with
  | None => inr (tt, <[k := Entry (VHash {[ f := v ]}) None]> ks)
  | Some (Entry (VHash h) t) => inr (tt, <[k := Entry (VHash (<[f := v]> h)) t]> ks)
  | Some _ => inl (WrongType k)
  end.

Definition hget (k f : string) (ks : keyspace) : reply (option string) :=
  match ks !! k with
  | None => inr (None, ks)
  | Some (Entry (VHash h) _) => inr (h !! f, ks)
  | Some _ => inl (WrongType k)
  end.

(* A hash that loses its last field is removed from the keyspace. *)
Definition hdel (k f : string) (ks : keyspace) : reply unit :=
  match ks !! k with
  | None => inr (tt, ks)
  | Some (Entry (VHash h) t) =>
      if decide (delete f h = ∅) then inr (tt, delete k ks)
      else inr (tt, <[k := Entry (VHash (delete f h)) t]> ks)
  | Some _ => inl (WrongType k)
  end.

(* [seconds] later: a key whose time to live has run out is gone, the
   others have that much less to live. *)
Definition elapse (seconds : Z) (ks : keyspace) : keyspace :=
  omap (λ e,
    match e_ttl e with
    | Some t => if decide (t ≤ seconds)%Z then None
                else Some (Entry (e_val e) (Some (t - seconds)))
    | None => Some e
    end) ks.

End Redis.

Export Redis(value(..), entry(..), e_val, e_ttl).

(** JavaScript truthiness of a [string | null | undefined]. *)
Definition truthy (v : option string) : option string :=
  match v with
  | Some s => if decide (s = "") then None else Some s
  | None => None
  end.

(** ** Session data and the documents the loader reads *)

Record SessionData := {
  workspaceId : string;
  userId : string;
  roleId : string;
  permissions : list string;
  baseType : option string;
  subscriptionStatus : option string;
  subscriptionPlan : option string }.

Record UserSettings := { currentWorkspaceId : string }.
Record WorkspaceMembership := { m_roleId : string }.
Record Workspace := {
  ws_id : string;
  ws_subscriptionStatus : option string;
  ws_subscriptionPlan : option string }.
Record FullRole := {
  r_id : string;
  r_permissions : list string;
  r_baseType : option string }.

(** Outcome of [collection.findOne]: the promise rejects, or resolves to a
    document or to null.  [new ObjectId(s)] throwing on a malformed
    identifier is part of the lookup it feeds. *)
Inductive lookup (A : Type) :=
  | Threw
  | Res (doc : option A).
Arguments Threw {A}.
Arguments Res {A} doc.

Record Db := {
  userSettings_findOne : string → lookup UserSettings;
  workspaceMemberships_findOne : string → string → lookup WorkspaceMembership;
  workspaces_findOne : string → lookup Workspace;
  roles_findOne : string → lookup FullRole }.

(** ** Request context and mutable world *)

Record CookieOptions := {
  httpOnly : bool;
  sameSite : bool;
  signed : bool;
  secure : bool;
  domain : string;
  path : string;
  maxAge : Z }.

Inductive cookie_action :=
  | SetCookie (name value : string) (opts : CookieOptions)
  | ClearCookie (name cpath cdomain : string).

Record Socket := { sessionId : option string; data_listeners : nat }.

(** What one request reads and never writes. *)
Record Ctx := {
  req_cookie : option string;      (* ctx.req.headers.cookie *)
  now : Z;                         (* clock of the request, seconds *)
  nanoid : string;                 (* what nanoid() returns in this request *)
  db : Db;
  PUBLIC_API_URL : string;
  COOKIE_DOMAIN : string;
  auth_userId : string }.          (* ctx.auth.userId of an AuthenticatedContext *)

(** What the session functions mutate.  [outages] schedules the failures
    of the store: each round trip consumes the head, [true] rejects it. *)
Record World := {
  redis : gmap string entry;
  outages : list bool;
  socket : option Socket;          (* ctx.req.socket *)
  res_cookies : list cookie_action;(* ctx.res.setCookie / clearCookie, in order *)
  log : list exn }.                (* ctx.fastify.log.error *)

Definition with_redis (ks : gmap string entry) (w : World) : World :=
  {| redis := ks; outages := outages w; socket := socket w;
     res_cookies := res_cookies w; log := log w |}.
Definition with_outages (o : list bool) (w : World) : World :=
  {| redis := redis w; outages := o; socket := socket w;
     res_cookies := res_cookies w; log := log w |}.
Definition with_socket (s : option Socket) (w : World) : World :=
  {| redis := redis w; outages := outages w; socket := s;
     res_cookies := res_cookies w; log := log w |}.
Definition with_res_cookies (c : list cookie_action) (w : World) : World :=
  {| redis := redis w; outages := outages w; socket := socket w;
     res_cookies := c; log := log w |}.
Definition with_log (l : list exn) (w : World) : World :=
  {| redis := redis w; outages := outages w; socket := socket w;
     res_cookies := res_cookies w; log := l |}.

(** The world [seconds] after the previous request completed. *)
Definition later (seconds : Z) (w : World) : World :=
  with_redis (Redis.elapse seconds (redis w)) w.

(** ** Asynchronous computations: state and rejection

    A rejected promise keeps the effects performed before the rejection. *)

Definition Io (A : Type) : Type := World → (exn + A) * World.

Definition io_ret {A} (a : A) : Io A := λ w, (inr a, w).
Definition io_bind {A B} (f : A → Io B) (m : Io A) : Io B := λ w,
  match m w with
  | (inl e, w') => (inl e, w')
  | (inr a, w') => f a w'
  end.
Definition throw {A} (e : exn) : Io A := λ w, (inl e, w).
Definition try_catch {A} (m : Io A) (handler : exn → Io A) : Io A := λ w,
  match m w with
  | (inl e, w') => handler e w'
  | (inr a, w') => (inr a, w')
  end.

#[global] Instance io_mret : MRet Io := @io_ret.
#[global] Instance io_mbind : MBind Io := @io_bind.

(** One awaited Redis command. *)
Definition call {A} (cmd : gmap string entry → Redis.reply A) : Io A := λ w,
  match outages w with
  | true :: o => (inl StoreUnavailable, with_outages o w)
  | o =>
      let w' := with_outages (tail o) w in
      match cmd (redis w) with
      | inl e => (inl e, w')
      | inr (a, ks) => (inr a, with_redis ks w')
      end
  end.

(** [for await (const x of xs) { body x }] *)
Fixpoint for_each {A} (xs : list A) (body : A → Io unit) : Io unit :=
  match xs with
  | [] => mret tt
  | x :: xs' => body x ;; for_each xs' body
  end.

(** ** Collaborators *)

(** [ctx.fastify.parseCookie], [unsignCookie], [jwt.verify] and
    [ctx.res.jwtSign].  A credential binds the session identifier only;
    signing reads the clock, verifying compares against it. *)
Class Transport := {
  parseCookie : string → gmap string string;
  unsignCookie : string → option string;      (* the [value] of the result, or null *)
  jwtSign : string → Z → Z → string;          (* sessionId, expiresIn, clock *)
  jwtVerify : Z → string → option string }.   (* clock, token; [None] when it throws *)

(** [JSON.stringify] and [JSON.parse] at type [SessionData], and
    [new URL(s).protocol].  [JSON_parse] is [None] when [JSON.parse] throws;
    text that parses to something else than a session record is outside
    the model and treated alike. *)
Class Runtime := {
  JSON_stringify : SessionData → string;
  JSON_parse : string → option SessionData;
  URL_protocol : string → option string }.

Definition json_sound `{Runtime} : Prop :=
  ∀ d, JSON_parse (JSON_stringify d) = Some d ∧ JSON_stringify d ≠ "".

(** ** The session module *)

Inductive TokenType := AccessToken | RefreshToken.

Definition cookie_name (t : TokenType) : string :=
  match t with
  | AccessToken => "accessToken"
  | RefreshToken => "refreshToken"
  end.

(** Key templates of the source. *)
Definition session_key (id : string) : string := "session:" +:+ id.
Definition refresh_key (id : string) : string := "refreshToken:" +:+ id.
Definition role_key (r : string) : string := "role:" +:+ r +:+ ":sessions".
Definition user_key (u : string) : string := "user:" +:+ u +:+ ":sessions".
Definition workspace_key (ws : string) : string := "workspace:" +:+ ws +:+ ":sessions".

(** [60 * 60 * 24] and [60 * 60 * 24 * 60], as written in the source. *)
Definition one_day : Z := 60 * 60 * 24.
Definition sixty_days : Z := 60 * 60 * 24 * 60.

Section Session.
Context `{T : Transport} `{R : Runtime}.

(** [ctx.req.socket.sessionId = sessionId] and the registration of the
    ["data"] listener, when the request has a socket. *)
Definition remember_on_socket (sid : string) : Io unit := λ w,
  match socket w with
  | Some s =>
      (inr tt,
       with_socket (Some {| sessionId := Some sid;
                            data_listeners := S (data_listeners s) |}) w)
  | None => (inr tt, w)
  end.

Definition jwt_verify (ctx : Ctx) (token : string) : Io string :=
  match jwtVerify (now ctx) token with
  | Some sid => mret sid
  | None => throw JwtInvalid
  end.

(** The part of [getSessionId] inside [try]. *)
Definition resolve_cookie (ctx : Ctx) (tokenType : TokenType) : Io (option string) :=
  let cookies := parseCookie (default "" (req_cookie ctx)) in
  match truthy (cookies !! cookie_name tokenType) with
  | None => mret None
  | Some c =>
      match truthy (unsignCookie c) with
      | None => mret None
      | Some token =>
          sid ← jwt_verify ctx token;
          match tokenType with
          | RefreshToken =>
              allowed ← call (Redis.exists_ (refresh_key sid));
              if decide (allowed = 0) then mret None
              else (remember_on_socket sid ;; mret (Some sid))
          | AccessToken => remember_on_socket sid ;; mret (Some sid)
          end
      end
  end.

Definition getSessionId (ctx : Ctx) (tokenType : TokenType) : Io (option string) := λ w,
  match truthy (s ← socket w; sessionId s) with
  | Some sid => (inr (Some sid), w)
  | None => try_catch (resolve_cookie ctx tokenType) (λ _, mret None) w
  end.

(** The variables [role], [workspaceMembership] and [workspace] of
    [loadSessionData] as the [try] block leaves them, with the error it
    threw, if any. *)
Record Loaded := {
  role : option FullRole;
  workspaceMembership : option WorkspaceMembership;
  workspace : option Workspace;
  thrown : option exn }.

Definition load_try (d : Db) (uid : string) : Loaded :=
  match userSettings_findOne d uid with
  | Threw =>
      {| role := None; workspaceMembership := None; workspace := None;
         thrown := Some (LookupFailed "userSettings") |}
  | Res None =>
      {| role := None; workspaceMembership := None; workspace := None;
         thrown := Some (NotFound "userSettings") |}
  | Res (Some userSettings) =>
      match workspaceMemberships_findOne d uid (currentWorkspaceId userSettings) with
      | Threw =>
          {| role := None; workspaceMembership := None; workspace := None;
             thrown := Some (LookupFailed "workspaceMemberships") |}
      | Res membership =>
          match workspaces_findOne d (currentWorkspaceId userSettings) with
          | Threw =>
              {| role := None; workspaceMembership := membership; workspace := None;
                 thrown := Some (LookupFailed "workspaces") |}
          | Res ws =>
              match membership with
              | None =>
                  {| role := None; workspaceMembership := None; workspace := ws;
                     thrown := None |}
              | Some m =>
                  match roles_findOne d (m_roleId m) with
                  | Threw =>
                      {| role := None; workspaceMembership := membership;
                         workspace := ws; thrown := Some (LookupFailed "roles") |}
                  | Res r =>
                      {| role := r; workspaceMembership := membership;
                         workspace := ws; thrown := None |}
                  end
              end
          end
      end
  end.

Definition session_of (l : Loaded) (uid : string) : SessionData :=
  {| workspaceId :=
       match workspace l, workspaceMembership l with
       | Some ws, Some _ => ws_id ws
       | _, _ => ""
       end;
     subscriptionStatus := ws ← workspace l; ws_subscriptionStatus ws;
     subscriptionPlan := ws ← workspace l; ws_subscriptionPlan ws;
     userId := uid;
     roleId := from_option r_id "" (role l);
     permissions := from_option r_permissions [] (role l);
     baseType := r ← role l; r_baseType r |}.

Definition loadSessionData (ctx : Ctx) (uid : string) : Io SessionData := λ w,
  let l := load_try (db ctx) uid in
  (inr (session_of l uid),
   match thrown l with
   | Some e => with_log (log w ++ [e]) w
   | None => w
   end).

Definition cookieOptions (ctx : Ctx) (protocol p : string) (age : Z) : CookieOptions :=
  {| httpOnly := true; sameSite := true; signed := true;
     secure := bool_decide (protocol = "https:");
     domain := COOKIE_DOMAIN ctx; path := p; maxAge := age |}.

Definition setCookie (name value : string) (o : CookieOptions) : Io unit := λ w,
  (inr tt, with_res_cookies (res_cookies w ++ [SetCookie name value o]) w).

Definition clearCookie (name p dom : string) : Io unit := λ w,
  (inr tt, with_res_cookies (res_cookies w ++ [ClearCookie name p dom]) w).

Definition createTokens (ctx : Ctx) (sid : string) : Io unit :=
  let accessToken := jwtSign sid one_day (now ctx) in
  let refreshToken := jwtSign sid sixty_days (now ctx) in
  protocol ← (match URL_protocol (PUBLIC_API_URL ctx) with
              | Some p => mret p
              | None => throw InvalidUrl
              end);
  call (Redis.set_ex (refresh_key sid) refreshToken sixty_days) ;;
  setCookie "refreshToken" refreshToken (cookieOptions ctx protocol "/session" sixty_days) ;;
  setCookie "accessToken" accessToken (cookieOptions ctx protocol "/" one_day).

Definition setSession (sid : string) (sessionData : SessionData) : Io unit :=
  call (Redis.set_ex (session_key sid) (JSON_stringify sessionData) sixty_days) ;;
  call (Redis.sadd (role_key (roleId sessionData)) sid) ;;
  call (Redis.sadd (user_key (userId sessionData)) sid) ;;
  call (Redis.sadd (workspace_key (workspaceId sessionData)) sid) ;;
  call (Redis.hset "session:role" sid (roleId sessionData)) ;;
  call (Redis.hset "session:user" sid (userId sessionData)) ;;
  call (Redis.hset "session:workspace" sid (workspaceId sessionData)).

Definition createSession (ctx : Ctx) (uid : string) : Io unit :=
  let sid := nanoid ctx in
  sessionData ← loadSessionData ctx uid;
  setSession sid sessionData ;;
  createTokens ctx sid.

Definition refreshSession (ctx : Ctx) (sid : string) : Io unit :=
  sessionCache ← call (Redis.get (session_key sid));
  call (Redis.del (refresh_key sid)) ;;
  match truthy sessionCache with
  | Some _ =>
      call (Redis.expire (session_key sid) sixty_days) ;;
      createTokens ctx sid
  | None => mret tt
  end.

Definition updateSession (ctx : Ctx) (sid uid : string) : Io unit :=
  sessionCache ← call (Redis.get (session_key sid));
  match truthy sessionCache with
  | Some _ =>
      sessionData ← loadSessionData ctx uid;
      setSession sid sessionData
  | None => mret tt
  end.

Definition updateSessionRole (ctx : Ctx) (rid : string) : Io unit :=
  sessionIds ← call (Redis.smembers (role_key rid));
  for_each sessionIds (λ sid,
    uid ← call (Redis.hget "session:user" sid);
    match truthy uid with
    | Some u => updateSession ctx sid u
    | None => mret tt
    end).

Definition updateSessionUser (ctx : Ctx) (uid : string) : Io unit :=
  sessionIds ← call (Redis.smembers (user_key uid));
  for_each sessionIds (λ sid, updateSession ctx sid uid).

Definition updateSessionWorkspace (ctx : Ctx) (wid : string) : Io unit :=
  sessionIds ← call (Redis.smembers (workspace_key wid));
  for_each sessionIds (λ sid,
    uid ← call (Redis.hget "session:user" sid);
    match truthy uid with
    | Some u => updateSession ctx sid u
    | None => mret tt
    end).

Definition parse_session (text : string) : Io SessionData :=
  match JSON_parse text with
  | Some d => mret d
  | None => throw JsonSyntax
  end.

(** [switchWorkspaceSession] from the point where the session identifier
    is known up to the call of [updateSession]. *)
Definition switch_detach (sid : string) : Io unit :=
  sessionCache ← call (Redis.get (session_key sid));
  match truthy sessionCache with
  | Some text =>
      sessionData ← parse_session text;
      call (Redis.srem (role_key (roleId sessionData)) sid) ;;
      call (Redis.srem (user_key (userId sessionData)) sid) ;;
      call (Redis.srem (workspace_key (workspaceId sessionData)) sid)
  | None => mret tt
  end ;;
  call (Redis.hdel "session:role" sid) ;;
  call (Redis.hdel "session:user" sid) ;;
  call (Redis.hdel "session:workspace" sid).

Definition switchWorkspaceSession (ctx : Ctx) : Io unit :=
  resolved ← getSessionId ctx AccessToken;
  match truthy resolved with
  | None => mret tt
  | Some sid =>
      switch_detach sid ;;
      updateSession ctx sid (auth_userId ctx)
  end.

Definition deleteSession (ctx : Ctx) (sid : string) : Io unit :=
  sessionCache ← call (Redis.get (session_key sid));
  match truthy sessionCache with
  | Some text =>
      sessionData ← parse_session text;
      call (Redis.del (session_key sid)) ;;
      call (Redis.srem (role_key (roleId sessionData)) sid) ;;
      call (Redis.srem (user_key (userId sessionData)) sid) ;;
      call (Redis.srem (workspace_key (workspaceId sessionData)) sid)
  | None => mret tt
  end ;;
  call (Redis.hdel "session:role" sid) ;;
  call (Redis.hdel "session:user" sid) ;;
  call (Redis.hdel "session:workspace" sid) ;;
  call (Redis.del (refresh_key sid)) ;;
  clearCookie "refreshToken" "/session" (COOKIE_DOMAIN ctx) ;;
  clearCookie "accessToken" "/" (COOKIE_DOMAIN ctx).

End Session.

(** ** [String.prototype.split] on a one-character separator *)

Fixpoint split_go (sep : Ascii.ascii) (cur s : string) : list string :=
  match s with
  | "" => [String.rev cur]
  | String c s' =>
      if Ascii.eqb c sep then String.rev cur :: split_go sep "" s'
      else split_go sep (String c cur) s'
  end.
Definition split (sep : Ascii.ascii) (s : string) : list string := split_go sep "" s.

(** ** The git-sync handler for an updated content piece

    [createGitSyncHandler] passes the directories and records of the
    synchronised repository, the output processor and the database, and
    takes back the new directories and records.  The record types are
    those the handler reads and writes.  [record === existingRecord]
    compares references: the record found is the one at the first matching
    position, and the model compares positions. *)

Module GitSync.

Record GitRecord := {
  path : string;
  contentPieceId : string;
  currentHash : string;
  syncedHash : string }.

Record GitDirectory := {
  dir_path : string;
  contentGroupId : string }.

Record ContentPiece := {
  cp_id : string;                 (* _id *)
  cp_contentGroupId : string;
  filename : option string }.

Record ContentDoc := { content : option string }.   (* content.buffer *)

Record Output := {
  directories : list GitDirectory;
  records : list GitRecord }.

(** [contentsCollection.findOne], [outputContentProcessor.process] ([None]
    when it rejects) and the hexadecimal MD5 digest. *)
Class Env := {
  contents_findOne : string → lookup ContentDoc;
  process : string → ContentPiece → option string;
  md5_hex : string → string }.

Inductive failure :=
  | ContentsLookupFailed
  | ProcessorFailed.

Fixpoint find_index {A} (p : A → bool) (l : list A) : option nat :=
  match l with
  | [] => None
  | x :: l' => if p x then Some 0%nat else S <$> find_index p l'
  end.

Definition with_currentHash (h : string) (r : GitRecord) : GitRecord :=
  {| path := path r; contentPieceId := contentPieceId r;
     currentHash := h; syncedHash := syncedHash r |}.

(** [dir.split("/").concat(name).filter(Boolean).join("/")] *)
Definition record_path (dir name : string) : string :=
  String.concat "/"
    (filter (λ s, s ≠ "") (split "/"%char dir ++ [name])%list).

Section Handler.
Context `{E : Env}.

Definition handleContentPieceUpdated (dirs : list GitDirectory)
    (recs : list GitRecord) (contentPiece : ContentPiece) : failure + Output :=
  let newRecords := recs in
  let existingRecord :=
    find_index (λ record,
      bool_decide (contentPieceId record = cp_id contentPiece)
      && negb (String.eqb (currentHash record) "")) recs in
  let existingDirectory :=
    find (λ directory,
      bool_decide (contentGroupId directory = cp_contentGroupId contentPiece)) dirs in
  match existingDirectory with
  | None =>
      (* Content piece outside of Git-synced content group *)
      match existingRecord with
      | Some _ =>
          inr {| directories := dirs;
                 records :=
                   map (λ record,
                     if bool_decide (contentPieceId record = cp_id contentPiece)
                     then with_currentHash "" record else record) newRecords |}
      | None => inr {| directories := dirs; records := recs |}
      end
  | Some existingDirectory =>
      match contents_findOne (cp_id contentPiece) with
      | Threw => inl ContentsLookupFailed
      | Res doc =>
          match doc ≫= content with
          | None => inr {| directories := dirs; records := newRecords |}
          | Some buffer =>
              match process buffer contentPiece with
              | None => inl ProcessorFailed
              | Some output =>
                  let contentHash := md5_hex output in
                  let newRecordPath :=
                    record_path (dir_path existingDirectory)
                      (default (cp_id contentPiece) (truthy (filename contentPiece))) in
                  match existingRecord with
                  | Some found =>
                      inr {| directories := dirs;
                             records :=
                               mjoin (imap (λ i record,
                                 if decide (i = found) then
                                   if decide (path record = newRecordPath)
                                   then [with_currentHash contentHash record]
                                   else [ with_currentHash "" record;
                                          {| path := newRecordPath;
                                             contentPieceId := contentPieceId record;
                                             currentHash := contentHash;
                                             syncedHash := "" |} ]
                                 else [record]) recs) |}
                  | None =>
                      inr {| directories := dirs;
                             records :=
                               (newRecords ++
                                [ {| path := newRecordPath;
                                     contentPieceId := cp_id contentPiece;
                                     currentHash := contentHash;
                                     syncedHash := "" |} ])%list |}
                  end
              end
          end
      end
  end.

End Handler.

End GitSync.

(** ** The subscription banner of the web application

    [apps/web/src/ee/subscription-banner.tsx].  The component renders
    nothing, or a bar with at most one message and possibly a close
    button.  [remainingBillingPeriod] is the difference in days that
    [dayjs] computes, taken as given. *)

Module Banner.

Inductive message :=
  | ReadOnly                               (* This workspace is read-only. *)
  | PaymentIssue                           (* There was an issue with your last payment. *)
  | TrialEnds (days : Z) (plural : bool).  (* Your trial ends in {days} day{s}. *)

Record bar := { shown_message : option message; close_button : bool }.

(** [list.includes(subscription()?.status || "")] *)
Definition includes (l : list string) (status : option string) : bool :=
  bool_decide (default "" status ∈ l).

Definition falsy (status : option string) : bool :=
  if truthy status is Some _ then false else true.

Definition SubscriptionBanner (status : option string) (visible : bool)
    (remainingBillingPeriod : Z) : option bar :=
  if (falsy status || negb (includes ["active"; "trialing"] status)) && visible then
    Some {| shown_message :=
              if falsy status || includes ["canceled"; "unpaid"] status
              then Some ReadOnly
              else if includes ["past_due"] status
              then Some PaymentIssue
              else if bool_decide (status = Some "trialing")
                      && (remainingBillingPeriod <=? 7)%Z
              then Some (TrialEnds remainingBillingPeriod (1 <? remainingBillingPeriod)%Z)
              else None;
            close_button := negb (includes ["canceled"; "unpaid"] status) |}
  else None.

(** The part of the local storage [goToBilling] reads and writes, and
    the rest of it. *)
Record Storage := {
  sidePanelView : option string;
  sidePanelWidth : option Z;
  settingsSection : option string;
  other_entries : gmap string string }.

Definition goToBilling (storage : Storage) : Storage :=
  {| sidePanelView := Some "settings";
     sidePanelWidth :=
       Some (match sidePanelWidth storage with
             | Some n => if decide (n = 0) then 375 else n
             | None => 375
             end);
     settingsSection := Some "billing";
     other_entries := other_entries storage |}.

End Banner.

(** The character [c] occurs in [s]. *)
Fixpoint has_char (c : Ascii.ascii) (s : string) : bool :=
  match s with
  | "" => false
  | String a s' => Ascii.eqb a c || has_char c s'
  end.

(** ** Views of the git-sync handler *)

Module GitSyncViews.
Import GitSync.

(** The test of [records.find] for the record of the piece. *)
Definition is_tracked (piece : ContentPiece) (record : GitRecord) : bool :=
  bool_decide (contentPieceId record = cp_id piece)
  && negb (String.eqb (currentHash record) "").

(** [newRecordPath] for the directory found. *)
Definition newRecordPath (dir : GitDirectory) (piece : ContentPiece) : string :=
  record_path (dir_path dir) (default (cp_id piece) (truthy (filename piece))).

(** The directory of the content group of the piece, as [directories.find]
    returns it. *)
Definition directory_of (dirs : list GitDirectory) (piece : ContentPiece)
    : option GitDirectory :=
  find (λ directory,
    bool_decide (contentGroupId directory = cp_contentGroupId piece)) dirs.

(** The fields of a record the handler never rewrites on a record it was given. *)
Definition identity (r : GitRecord) : string * string * string :=
  (path r, contentPieceId r, syncedHash r).

End GitSyncViews.

(** ** Observations on a keyspace, and its schema *)

(** What [GET], [SMEMBERS] and [HGET] see at a key of the right type. *)
Definition text (ks : gmap string entry) (k : string) : option string :=
  match ks !! k with
  | Some (Entry (VString s) _) => Some s
  | _ => None
  end.

Definition members (ks : gmap string entry) (k : string) : gset string :=
  match ks !! k with
  | Some (Entry (VSet s) _) => s
  | _ => ∅
  end.

Definition field (ks : gmap string entry) (k f : string) : option string :=
  match ks !! k with
  | Some (Entry (VHash h) _) => h !! f
  | _ => None
  end.

(** The keyspace a command leaves (the keyspace itself when it fails). *)
Definition exec {A} (c : gmap string entry → Redis.reply A)
    (ks : gmap string entry) : gmap string entry :=
  match c ks with
  | inr (_, ks') => ks'
  | inl _ => ks
  end.

Inductive kind := KString | KSet | KHash.

Definition kind_of (v : value) : kind :=
  match v with
  | VString _ => KString
  | VSet _ => KSet
  | VHash _ => KHash
  end.

Fixpoint starts_with (p s : string) : bool :=
  match p, s with
  | "", _ => true
  | String a p', String b s' => Ascii.eqb a b && starts_with p' s'
  | _, _ => false
  end.

(** The namespaces of the module: the three forward hashes, the session
    records under [session:] and the refresh credentials under
    [refreshToken:], the reverse sets under [role:], [user:] and
    [workspace:].  Other keys are free. *)
Definition key_kind (k : string) : option kind :=
  if String.eqb k "session:role" || String.eqb k "session:user"
     || String.eqb k "session:workspace" then Some KHash
  else if starts_with "session:" k || starts_with "refreshToken:" k then Some KString
  else if starts_with "role:" k || starts_with "user:" k
          || starts_with "workspace:" k then Some KSet
  else None.

Definition well_kinded (ks : gmap string entry) : Prop :=
  ∀ k e kd, ks !! k = Some e → key_kind k = Some kd → kind_of (e_val e) = kd.

(** The boolean form of the schema at one key. *)
Definition kinded_entry (k : string) (e : entry) : bool :=
  match key_kind k, e_val e with
  | Some KString, VString _ | Some KSet, VSet _ | Some KHash, VHash _ | None, _ => true
  | _, _ => false
  end.

(** A session identifier is a non-empty string whose record key does not
    fall on a forward hash ([nanoid()] returns 21 characters). *)
Definition valid_id (id : string) : Prop :=
  id ≠ "" ∧ id ≠ "role" ∧ id ≠ "user" ∧ id ≠ "workspace".

(** The reverse sets named by a session record. *)
Definition index_of (d : SessionData) : gset string :=
  {[ role_key (roleId d); user_key (userId d); workspace_key (workspaceId d) ]}.

(** ** The schema of times to live

    The module sets a time to live on strings only ([SET ... EX] and
    [EXPIRE] on the record and the refresh credential): the sets and
    hashes of a store it alone writes carry none. *)
Definition persistent (ks : gmap string entry) : Prop :=
  ∀ k e, ks !! k = Some e → kind_of (e_val e) ≠ KString → e_ttl e = None.

(** The record of [sid] has the sixty days a write gives it. *)
Definition full_ttl (ks : gmap string entry) (sid : string) : Prop :=
  ∃ s, ks !! session_key sid = Some (Entry (VString s) (Some sixty_days)).

(** ** The keyspace each function leaves when no round trip fails *)

Section Effects.
Context `{T : Transport} `{R : Runtime}.

(** [setSession]: the record, the three [SADD], the three [HSET]. *)
Definition attach_ks (sid : string) (d : SessionData)
    (ks : gmap string entry) : gmap string entry :=
  exec (Redis.hset "session:workspace" sid (workspaceId d))
    (exec (Redis.hset "session:user" sid (userId d))
      (exec (Redis.hset "session:role" sid (roleId d))
        (exec (Redis.sadd (workspace_key (workspaceId d)) sid)
          (exec (Redis.sadd (user_key (userId d)) sid)
            (exec (Redis.sadd (role_key (roleId d)) sid)
              (exec (Redis.set_ex (session_key sid) (JSON_stringify d) sixty_days)
                 ks)))))).

(** The three [SREM] of [switchWorkspaceSession] and [deleteSession]. *)
Definition detach_ks (sid : string) (d : SessionData)
    (ks : gmap string entry) : gmap string entry :=
  exec (Redis.srem (workspace_key (workspaceId d)) sid)
    (exec (Redis.srem (user_key (userId d)) sid)
      (exec (Redis.srem (role_key (roleId d)) sid) ks)).

(** The three [HDEL]. *)
Definition unhash_ks (sid : string) (ks : gmap string entry) : gmap string entry :=
  exec (Redis.hdel "session:workspace" sid)
    (exec (Redis.hdel "session:user" sid)
      (exec (Redis.hdel "session:role" sid) ks)).

(** The record the loader returns, and the world it leaves. *)
Definition loaded (ctx : Ctx) (uid : string) : SessionData :=
  session_of (load_try (db ctx) uid) uid.

Definition after_load (ctx : Ctx) (uid : string) (w : World) : World :=
  (loadSessionData ctx uid w).2.

(** The cookies [createTokens] sets. *)
Definition token_cookies (ctx : Ctx) (sid protocol : string) : list cookie_action :=
  [ SetCookie "refreshToken" (jwtSign sid sixty_days (now ctx))
      (cookieOptions ctx protocol "/session" sixty_days);
    SetCookie "accessToken" (jwtSign sid one_day (now ctx))
      (cookieOptions ctx protocol "/" one_day) ].

Definition issue_ks (ctx : Ctx) (sid : string)
    (ks : gmap string entry) : gmap string entry :=
  exec (Redis.set_ex (refresh_key sid) (jwtSign sid sixty_days (now ctx)) sixty_days) ks.

(** The cookies [deleteSession] clears. *)
Definition cleared_cookies (ctx : Ctx) : list cookie_action :=
  [ ClearCookie "refreshToken" "/session" (COOKIE_DOMAIN ctx);
    ClearCookie "accessToken" "/" (COOKIE_DOMAIN ctx) ].

(** The body of the loop of [updateSessionRole], and the keyspace it
    leaves when no round trip fails. *)
Definition member_update (ctx : Ctx) (sid : string) : Io unit :=
  uid ← call (Redis.hget "session:user" sid);
  match truthy uid with
  | Some u => updateSession ctx sid u
  | None => mret tt
  end.

Definition member_ks (ctx : Ctx) (sid : string) (ks : gmap string entry) : gmap string entry :=
  match truthy (field ks "session:user" sid), truthy (text ks (session_key sid)) with
  | Some u, Some _ => attach_ks sid (loaded ctx u) ks
  | _, _ => ks
  end.

Definition fan_ks (ctx : Ctx) (l : list string) (ks : gmap string entry) : gmap string entry :=
  foldl (λ ks sid, member_ks ctx sid ks) ks l.

End Effects.

(** ** Predicates used in the statements *)

(** The lookups behind a record, in the order [loadSessionData] makes them. *)
Definition resolves_workspace (d : Db) (uid : string) (ws : Workspace) : Prop :=
  ∃ us m, userSettings_findOne d uid = Res (Some us)
    ∧ workspaceMemberships_findOne d uid (currentWorkspaceId us) = Res (Some m)
    ∧ workspaces_findOne d (currentWorkspaceId us) = Res (Some ws).

Definition resolves_role (d : Db) (uid : string) (r : FullRole) : Prop :=
  ∃ us m ws, userSettings_findOne d uid = Res (Some us)
    ∧ workspaceMemberships_findOne d uid (currentWorkspaceId us) = Res (Some m)
    ∧ workspaces_findOne d (currentWorkspaceId us) = Res ws
    ∧ roles_findOne d (m_roleId m) = Res (Some r).

(** The identifier cached on the socket of the request, if any. *)
Definition cached_id (w : World) : option string :=
  truthy (s ← socket w; sessionId s).

(** The request carries a cookie [name] whose signed value is [token], and
    [token] verifies for [sid] at the clock of the request. *)
Definition presents `{T : Transport} (ctx : Ctx) (tokenType : TokenType)
    (token sid : string) : Prop :=
  ∃ c, truthy (parseCookie (default "" (req_cookie ctx)) !! cookie_name tokenType) = Some c
    ∧ truthy (unsignCookie c) = Some token
    ∧ jwtVerify (now ctx) token = Some sid.

(** The primary record of [sid] holds the serialisation of [d]. *)
Definition live `{R : Runtime} (ks : gmap string entry) (sid : string)
    (d : SessionData) : Prop :=
  text ks (session_key sid) = Some (JSON_stringify d).

(** The forward hashes map [sid] to the fields of [d]. *)
Definition forward_of (ks : gmap string entry) (sid : string) (d : SessionData) : Prop :=
  field ks "session:role" sid = Some (roleId d)
  ∧ field ks "session:user" sid = Some (userId d)
  ∧ field ks "session:workspace" sid = Some (workspaceId d).

(** The forward hashes have no entry for [sid]. *)
Definition unhashed (ks : gmap string entry) (sid : string) : Prop :=
  field ks "session:role" sid = None
  ∧ field ks "session:user" sid = None
  ∧ field ks "session:workspace" sid = None.

Definition forward_hashes : list string :=
  ["session:role"; "session:user"; "session:workspace"].


(** The request is authenticated for [sid]: the socket carries it, or the
    access cookie verifies for it. *)
Definition authenticated `{T : Transport} (ctx : Ctx) (w : World) (sid : string) : Prop :=
  cached_id w = Some sid
  ∨ (cached_id w = None ∧ ∃ token, presents ctx AccessToken token sid).

(** The settings of account [uid] select workspace [ws], of which the
    account is a member and whose record exists. *)
Definition selects (d : Db) (uid ws : string) : Prop :=
  ∃ us m wsr, userSettings_findOne d uid = Res (Some us)
    ∧ currentWorkspaceId us = ws
    ∧ workspaceMemberships_findOne d uid ws = Res (Some m)
    ∧ workspaces_findOne d ws = Res (Some wsr)
    ∧ ws_id wsr = ws.

(** ** Sequences of operations on one session *)

(** The operations that follow the creation of a session, each in the
    context of its own request. *)
Inductive request :=
  | ReqUpdate (ctx : Ctx) (uid : string)
  | ReqSwitch (ctx : Ctx)
  | ReqDelete (ctx : Ctx).

Section Requests.
Context `{T : Transport} `{R : Runtime}.

Definition serve (sid : string) (r : request) : Io unit :=
  match r with
  | ReqUpdate ctx uid => updateSession ctx sid uid
  | ReqSwitch ctx => switchWorkspaceSession ctx
  | ReqDelete ctx => deleteSession ctx sid
  end.

(** What a request needs of the world it starts in. *)
Definition settled (sid : string) (w : World) : Prop :=
  outages w = [] ∧ well_kinded (redis w)
  ∧ (cached_id w = None ∨ cached_id w = Some sid).

(** A request that switches the workspace carries an access cookie that
    verifies for the session. *)
Definition request_ok (sid : string) (r : request) : Prop :=
  match r with
  | ReqSwitch ctx => ∃ token, presents ctx AccessToken token sid
  | _ => True
  end.

(** The record the session holds after a request, [None] once deleted. *)
Definition next_record (m : option SessionData) (r : request) : option SessionData :=
  match m, r with
  | Some _, ReqUpdate ctx uid => Some (loaded ctx uid)
  | Some _, ReqSwitch ctx => Some (loaded ctx (auth_userId ctx))
  | _, _ => None
  end.

(** The reverse sets that hold the identifier although the record does
    not name them.  [updateSession] adds the sets of the record it
    replaces; the detach of [switchWorkspaceSession] and [deleteSession]
    removes the sets the current record names, and those only. *)
Definition next_stale (m : option SessionData) (stale : gset string)
    (r : request) : gset string :=
  match m, r with
  | Some d, ReqUpdate ctx uid => (index_of d ∪ stale) ∖ index_of (loaded ctx uid)
  | Some d, ReqSwitch ctx => (stale ∖ index_of d) ∖ index_of (loaded ctx (auth_userId ctx))
  | Some d, ReqDelete _ => stale ∖ index_of d
  | None, _ => stale
  end.

(** Invariant I1 with the stale sets made explicit: the reverse sets
    holding [sid] are those named by the record and the stale ones; a live
    session has its record and its forward entries, a deleted one has
    neither. *)
Definition indexed (sid : string) (m : option SessionData) (stale : gset string)
    (ks : gmap string entry) : Prop :=
  (∀ k, sid ∈ members ks k ↔ k ∈ from_option index_of ∅ m ∪ stale)
  ∧ match m with
    | Some d => live ks sid d ∧ forward_of ks sid d
    | None => ks !! session_key sid = None ∧ unhashed ks sid
    end.

(** The context of a request, whose clock is the time it arrives. *)
Definition ctx_of (r : request) : Ctx :=
  match r with
  | ReqUpdate ctx _ | ReqSwitch ctx | ReqDelete ctx => ctx
  end.

(** The requests arrive in the order of their clocks, each less than
    sixty days after the one before, [clock] being the time of the
    operation that precedes them. *)
Fixpoint paced (clock : Z) (reqs : list request) : Prop :=
  match reqs with
  | [] => True
  | r :: reqs' =>
      0 ≤ now (ctx_of r) - clock < sixty_days ∧ paced (now (ctx_of r)) reqs'
  end.

(** Every request of the sequence, served on the store as the time since
    the operation before it (at [clock]) left it, resolves and leaves the
    indices consistent with the record and the stale sets it leads to. *)
Fixpoint consistent_run (sid : string) (m : option SessionData) (stale : gset string)
    (clock : Z) (reqs : list request) (w : World) : Prop :=
  indexed sid m stale (redis w)
  ∧ match reqs with
    | [] => True
    | r :: reqs' =>
        ∃ w', serve sid r (later (now (ctx_of r) - clock) w) = (inr tt, w')
          ∧ consistent_run sid (next_record m r) (next_stale m stale r)
              (now (ctx_of r)) reqs' w'
    end.

End Requests.

(** A computation that leaves the socket of the request as it found it,
    whatever it returns. *)
Definition keeps_socket {A} (m : Io A) : Prop := ∀ w, socket (m w).2 = socket w.

(** The forward hash at [h] has no field [f] and, if it exists, is not
    empty: what [HDEL h f] leaves. *)
Definition settled_hash (ks : gmap string entry) (h f : string) : Prop :=
  match ks !! h with
  | Some (Entry (VHash m) _) => m !! f = None ∧ m ≠ ∅
  | _ => True
  end.

Section FanViews.
Context `{T : Transport} `{R : Runtime}.

(** The keyspace one turn of the loop of [updateSessionUser] leaves, and
    the keyspace the loop leaves, when no round trip fails. *)
Definition own_ks (ctx : Ctx) (uid sid : string) (ks : gmap string entry)
    : gmap string entry :=
  match truthy (text ks (session_key sid)) with
  | Some _ => attach_ks sid (loaded ctx uid) ks
  | None => ks
  end.

Definition own_fan_ks (ctx : Ctx) (uid : string) (l : list string)
    (ks : gmap string entry) : gmap string entry :=
  foldl (λ ks sid, own_ks ctx uid sid ks) ks l.

End FanViews.

(** A computation that leaves what [GET k] sees as it found it, whatever
    it returns. *)
Definition keeps_text {A} (k : string) (m : Io A) : Prop :=
  ∀ w, text (redis (m w).2) k = text (redis w) k.

(** The round trips one turn of the loop of [updateSessionRole] makes:
    the [HGET]; the [GET] of [updateSession] when the forward hash names an
    account; the seven commands of [setSession] when the record exists. *)
Definition trips_of (ks : gmap string entry) (sid : string) : nat :=
  match truthy (field ks "session:user" sid), truthy (text ks (session_key sid)) with
  | Some _, Some _ => 9
  | Some _, None => 2
  | None, _ => 1
  end.

(** ** Concrete collaborators for examples

    A small cookie syntax ([name=value; name=value], a signed value is
    [s:] followed by the value), credentials that carry the identifier
    and the expiry, and a serialisation of session records: enough to run
    the functions on concrete requests. *)

Module Demo.

Fixpoint drop_spaces (s : string) : string :=
  match s with
  | String " "%char s' => drop_spaces s'
  | _ => s
  end.

Fixpoint cut_go (sep : Ascii.ascii) (cur s : string) : option (string * string) :=
  match s with
  | "" => None
  | String c s' =>
      if Ascii.eqb c sep then Some (String.rev cur, s')
      else cut_go sep (String c cur) s'
  end.

Definition parse_cookie_header (h : string) : gmap string string :=
  list_to_map (omap (λ part, cut_go "="%char "" (drop_spaces part)) (split ";"%char h)).

Definition strip_prefix (p s : string) : option string :=
  if starts_with p s then Some (String.substring (String.length p)
                                  (String.length s - String.length p) s)
  else None.

Fixpoint enc_pos (p : positive) : string :=
  match p with
  | xO p' => String "a"%char (enc_pos p')
  | xI p' => String "b"%char (enc_pos p')
  | xH => "c"
  end.

Fixpoint dec_pos (s : string) : option positive :=
  match s with
  | String "a"%char s' => xO <$> dec_pos s'
  | String "b"%char s' => xI <$> dec_pos s'
  | String "c"%char "" => Some xH
  | _ => None
  end.

#[global] Instance SessionData_eq_dec : EqDecision SessionData.
Proof. solve_decision. Defined.

#[global] Instance SessionData_countable : Countable SessionData.
Proof.
  refine (inj_countable'
    (λ d, (workspaceId d, userId d, roleId d, permissions d,
           baseType d, subscriptionStatus d, subscriptionPlan d))
    (λ t, let '(w, u, r, p, b, s, pl) := t in
          {| workspaceId := w; userId := u; roleId := r; permissions := p;
             baseType := b; subscriptionStatus := s; subscriptionPlan := pl |}) _).
  by intros [].
Defined.

#[global] Instance transport : Transport := {|
  parseCookie := parse_cookie_header;
  unsignCookie c := strip_prefix "s:" c;
  jwtSign sid expiresIn clock := "jwt." +:+ enc_pos (encode (sid, clock + expiresIn));
  jwtVerify clock token :=
    body ← strip_prefix "jwt." token;
    p ← dec_pos body;
    '(sid, expiry) ← decode p;
    if decide (clock < expiry) then Some sid else None |}.

#[global] Instance runtime : Runtime := {|
  JSON_stringify d := enc_pos (encode d);
  JSON_parse s := p ← dec_pos s; decode p;
  URL_protocol u :=
    if starts_with "https://" u then Some "https:"
    else if starts_with "http://" u then Some "http:"
    else None |}.

End Demo.

(** ** Example data *)

Module Example.
Import Demo.

Definition role_r1 : FullRole :=
  {| r_id := "r1"; r_permissions := ["read"]; r_baseType := None |}.
Definition role_r2 : FullRole :=
  {| r_id := "r2"; r_permissions := ["read"; "write"]; r_baseType := None |}.
Definition workspace_of (ws : string) : Workspace :=
  {| ws_id := ws; ws_subscriptionStatus := None; ws_subscriptionPlan := None |}.

(** A database in which every account has selected workspace [ws] and is
    a member of it with role [r]. *)
Definition db_with (ws : string) (r : FullRole) : Db :=
  {| userSettings_findOne := λ _, Res (Some {| currentWorkspaceId := ws |});
     workspaceMemberships_findOne := λ _ w,
       Res (if decide (w = ws) then Some {| m_roleId := r_id r |} else None);
     workspaces_findOne := λ w, Res (if decide (w = ws) then Some (workspace_of w) else None);
     roles_findOne := λ i, Res (if decide (i = r_id r) then Some r else None) |}.

Definition request (cookie : option string) (clock : Z) (id : string)
    (d : Db) (account : string) : Ctx :=
  {| req_cookie := cookie; now := clock; nanoid := id; db := d;
     PUBLIC_API_URL := "https://api.vrite.io"; COOKIE_DOMAIN := "vrite.io";
     auth_userId := account |}.

Definition empty_world : World :=
  {| redis := ∅; outages := []; socket := None; res_cookies := []; log := [] |}.

(** The world a computation leaves. *)
Definition after {A} (m : Io A) (w : World) : World := (m w).2.

(** A session [s1] of account [acct1] in workspace [w1] with role [r1],
    created at clock 1000. *)
Definition ctx_create : Ctx := request None 1000 "s1" (db_with "w1" role_r1) "acct1".
Definition world_created : World := after (createSession ctx_create "acct1") empty_world.

(** The membership of the account now names role [r2]; the session is
    updated, as the fan-out over the sessions of the account does. *)
Definition ctx_update : Ctx := request None 2000 "x" (db_with "w1" role_r2) "acct1".

(** A request carrying the access cookie issued at creation, after the
    account selected workspace [w2]. *)
Definition ctx_switch : Ctx :=
  request (Some ("accessToken=s:" +:+ jwtSign "s1" one_day 1000)) 3000 "x"
    (db_with "w2" role_r1) "acct1".

(** Two refreshes, at clocks 2000 and 3000, each request carrying the
    refresh cookie issued before it, and a later request that carries the
    cookie of the first refresh again. *)
Definition ctx_refresh1 : Ctx :=
  request (Some ("refreshToken=s:" +:+ jwtSign "s1" sixty_days 1000)) 2000 "x"
    (db_with "w1" role_r1) "acct1".
Definition ctx_refresh2 : Ctx :=
  request (Some ("refreshToken=s:" +:+ jwtSign "s1" sixty_days 2000)) 3000 "x"
    (db_with "w1" role_r1) "acct1".
Definition ctx_replay : Ctx :=
  request (Some ("refreshToken=s:" +:+ jwtSign "s1" sixty_days 2000)) 4000 "x"
    (db_with "w1" role_r1) "acct1".

(** Three sessions of role [r1], one per account; then the role gains the
    permission [write] while the lookups for account [a2] reject. *)
Definition world_three : World :=
  after (createSession (request None 1000 "s3" (db_with "w1" role_r1) "a3") "a3")
    (after (createSession (request None 1000 "s2" (db_with "w1" role_r1) "a2") "a2")
      (after (createSession (request None 1000 "s1" (db_with "w1" role_r1) "a1") "a1")
         empty_world)).

Definition role_r1_changed : FullRole :=
  {| r_id := "r1"; r_permissions := ["read"; "write"]; r_baseType := None |}.

Definition db_a2_failing : Db :=
  {| userSettings_findOne := λ u,
       if decide (u = "a2") then Threw
       else userSettings_findOne (db_with "w1" role_r1_changed) u;
     workspaceMemberships_findOne :=
       workspaceMemberships_findOne (db_with "w1" role_r1_changed);
     workspaces_findOne := workspaces_findOne (db_with "w1" role_r1_changed);
     roles_findOne := roles_findOne (db_with "w1" role_r1_changed) |}.

Definition ctx_fan_out : Ctx := request None 5000 "x" db_a2_failing "admin".

(** The permissions in the record of a session, if it parses. *)
Definition permissions_of (w : World) (sid : string) : option (list string) :=
  d ← (text (redis w) (session_key sid) ≫= JSON_parse); Some (permissions d).

(** The same session on a connection with a socket. *)
Definition world_connected : World :=
  with_socket (Some {| sessionId := None; data_listeners := 0 |}) world_created.

End Example.

Module GitSyncExample.
Import GitSync.

#[global] Instance env : Env := {|
  contents_findOne := λ id,
    Res (if decide (id = "p1") then Some {| content := Some "# Title" |} else None);
  process := λ buffer _, Some buffer;
  md5_hex := λ s, "md5:" +:+ s |}.

Definition dirs : list GitDirectory :=
  [ {| dir_path := "docs/guides"; contentGroupId := "g1" |} ].
Definition piece : ContentPiece :=
  {| cp_id := "p1"; cp_contentGroupId := "g1"; filename := Some "intro.md" |}.
Definition recs : list GitRecord :=
  [ {| path := "docs/intro.md"; contentPieceId := "p1";
       currentHash := "old"; syncedHash := "old" |} ].

End GitSyncExample.

(** A repository with a second content piece, and the first piece moved
    to a group that is not synchronised. *)
Module HandlerExample.
Import GitSync.

Definition other : GitRecord :=
  {| path := "docs/about.md"; contentPieceId := "p2";
     currentHash := "h2"; syncedHash := "h2" |}.
Definition recs : list GitRecord := (GitSyncExample.recs ++ [other])%list.
Definition outside : ContentPiece :=
  {| cp_id := "p1"; cp_contentGroupId := "g9"; filename := None |}.

End HandlerExample.

(** Requests and databases for the edge cases of the session module. *)
Module SessionExample.
Import Demo.

(** A deployment whose [PUBLIC_API_URL] is not a URL. *)
Definition ctx_bad_url : Ctx :=
  {| req_cookie := None; now := 1000; nanoid := "s9";
     db := Example.db_with "w1" Example.role_r1;
     PUBLIC_API_URL := "api.vrite.io"; COOKIE_DOMAIN := "vrite.io";
     auth_userId := "acct1" |}.

(** A request carrying the access cookie issued at creation. *)
Definition ctx_access : Ctx :=
  Example.request (Some ("accessToken=s:" +:+ jwtSign "s1" one_day 1000)) 1500 "x"
    (Example.db_with "w1" Example.role_r1) "acct1".

(** The store fails at the third round trip. *)
Definition world_failing : World :=
  with_outages [false; false; true] Example.world_created.

(** The selected workspace exists, the account is no member of it. *)
Definition db_non_member : Db :=
  {| userSettings_findOne := λ _, Res (Some {| currentWorkspaceId := "w1" |});
     workspaceMemberships_findOne := λ _ _, Res None;
     workspaces_findOne := λ w,
       Res (Some {| ws_id := w; ws_subscriptionStatus := Some "active";
                    ws_subscriptionPlan := Some "team" |});
     roles_findOne := λ _, Res None |}.

(** The account is a member of the selected workspace, whose record is
    missing. *)
Definition db_missing_workspace : Db :=
  {| userSettings_findOne := λ _, Res (Some {| currentWorkspaceId := "w1" |});
     workspaceMemberships_findOne := λ _ _, Res (Some {| m_roleId := "r1" |});
     workspaces_findOne := λ _, Res None;
     roles_findOne := λ _, Res (Some Example.role_r1) |}.

(** The settings select workspace [w2], of which the account is no
    member; the request carries the access cookie issued at creation. *)
Definition db_selects_w2 : Db :=
  {| userSettings_findOne := λ _, Res (Some {| currentWorkspaceId := "w2" |});
     workspaceMemberships_findOne := λ _ _, Res None;
     workspaces_findOne := λ w, Res (Some (Example.workspace_of w));
     roles_findOne := λ _, Res None |}.

Definition ctx_switch_non_member : Ctx :=
  Example.request (Some ("accessToken=s:" +:+ jwtSign "s1" one_day 1000)) 3000 "x"
    db_selects_w2 "acct1".

End SessionExample.

(** * Reasoning about the keyspace *)

#[local] Set Warnings "-clear-no-such-hyp".

(** ** Key templates are injective *)

Lemma length_append (s1 s2 : string) :
  String.length (s1 +:+ s2) = (String.length s1 + String.length s2)%nat.
Proof. induction s1 as [|a s1 IH]; simpl; [done | by rewrite IH]. Qed.

Lemma append_inv_tail (s1 s2 t : string) : s1 +:+ t = s2 +:+ t → s1 = s2.
Proof.
  revert s2. induction s1 as [|a s1 IH]; intros [|b s2] H.
  - done.
  - apply (f_equal String.length) in H.
    rewrite !length_append in H. simpl in H. lia.
  - apply (f_equal String.length) in H.
    rewrite !length_append in H. simpl in H. lia.
  - injection H as -> H. f_equal. by apply IH.
Qed.

Lemma session_key_inj a b : session_key a = session_key b → a = b.
Proof. intros H. by injection H. Qed.
Lemma refresh_key_inj a b : refresh_key a = refresh_key b → a = b.
Proof. intros H. by injection H. Qed.
Lemma role_key_inj a b : role_key a = role_key b → a = b.
Proof. intros H. injection H as H. exact (append_inv_tail a b ":sessions" H). Qed.
Lemma user_key_inj a b : user_key a = user_key b → a = b.
Proof. intros H. injection H as H. exact (append_inv_tail a b ":sessions" H). Qed.
Lemma workspace_key_inj a b : workspace_key a = workspace_key b → a = b.
Proof. intros H. injection H as H. exact (append_inv_tail a b ":sessions" H). Qed.

(** ** Kinds of the keys the module uses *)

Lemma key_kind_role r : key_kind (role_key r) = Some KSet.
Proof. reflexivity. Qed.
Lemma key_kind_user u : key_kind (user_key u) = Some KSet.
Proof. reflexivity. Qed.
Lemma key_kind_workspace ws : key_kind (workspace_key ws) = Some KSet.
Proof. reflexivity. Qed.
Lemma key_kind_refresh id : key_kind (refresh_key id) = Some KString.
Proof. reflexivity. Qed.
Lemma key_kind_hash_role : key_kind "session:role" = Some KHash.
Proof. reflexivity. Qed.
Lemma key_kind_hash_user : key_kind "session:user" = Some KHash.
Proof. reflexivity. Qed.
Lemma key_kind_hash_workspace : key_kind "session:workspace" = Some KHash.
Proof. reflexivity. Qed.

Lemma key_kind_session id : valid_id id → key_kind (session_key id) = Some KString.
Proof.
  intros (_ & H1 & H2 & H3).
  apply String.eqb_neq in H1, H2, H3.
  unfold key_kind, session_key.
  change (String.eqb ("session:" +:+ id) "session:role") with (String.eqb id "role").
  change (String.eqb ("session:" +:+ id) "session:user") with (String.eqb id "user").
  change (String.eqb ("session:" +:+ id) "session:workspace")
    with (String.eqb id "workspace").
  by rewrite H1, H2, H3.
Qed.

Lemma valid_id_hash_ne id :
  valid_id id →
  session_key id ≠ "session:role" ∧ session_key id ≠ "session:user"
  ∧ session_key id ≠ "session:workspace".
Proof.
  intros (_ & H1 & H2 & H3).
  repeat split; intros H; injection H; done.
Qed.

Lemma well_kinded_insert ks k e :
  well_kinded ks →
  (∀ kd, key_kind k = Some kd → kind_of (e_val e) = kd) →
  well_kinded (<[k := e]> ks).
Proof.
  intros Hwf Hk k' e' kd. rewrite lookup_insert. case_decide; subst.
  - intros [= <-]. apply Hk.
  - apply Hwf.
Qed.

Lemma well_kinded_delete ks k : well_kinded ks → well_kinded (delete k ks).
Proof.
  intros Hwf k' e' kd. rewrite lookup_delete. case_decide; [done | apply Hwf].
Qed.

Lemma well_kinded_empty : well_kinded ∅.
Proof. intros k e kd. by rewrite lookup_empty. Qed.

(** What a key of a given kind can hold in a well-kinded keyspace. *)
Lemma kinded_set ks k :
  well_kinded ks → key_kind k = Some KSet →
  ks !! k = None ∨ ∃ s t, ks !! k = Some (Entry (VSet s) t).
Proof.
  intros Hwf Hk. destruct (ks !! k) as [[v t]|] eqn:E; [|by left].
  specialize (Hwf _ _ _ E Hk). destruct v; simplify_eq/=. right; eauto.
Qed.

Lemma kinded_hash ks k :
  well_kinded ks → key_kind k = Some KHash →
  ks !! k = None ∨ ∃ h t, ks !! k = Some (Entry (VHash h) t).
Proof.
  intros Hwf Hk. destruct (ks !! k) as [[v t]|] eqn:E; [|by left].
  specialize (Hwf _ _ _ E Hk). destruct v; simplify_eq/=. right; eauto.
Qed.

Lemma kinded_string ks k :
  well_kinded ks → key_kind k = Some KString →
  ks !! k = None ∨ ∃ s t, ks !! k = Some (Entry (VString s) t).
Proof.
  intros Hwf Hk. destruct (ks !! k) as [[v t]|] eqn:E; [|by left].
  specialize (Hwf _ _ _ E Hk). destruct v; simplify_eq/=. right; eauto.
Qed.

(** ** Effect of each command on the observations *)

Section Commands.
Implicit Types (ks : gmap string entry) (k f m v : string).

(** A command writes at most the key it names. *)
Lemma exec_set_ex_ne ks k v t k' :
  k ≠ k' → exec (Redis.set_ex k v t) ks !! k' = ks !! k'.
Proof. intros. unfold exec; simpl. by rewrite lookup_insert_ne. Qed.

Lemma exec_del_ne ks k k' : k ≠ k' → exec (Redis.del k) ks !! k' = ks !! k'.
Proof. intros. unfold exec; simpl. by rewrite lookup_delete_ne. Qed.

Lemma exec_expire_ne ks k t k' :
  k ≠ k' → exec (Redis.expire k t) ks !! k' = ks !! k'.
Proof.
  intros. unfold exec, Redis.expire. destruct (ks !! k); [|done].
  by rewrite lookup_insert_ne.
Qed.

Lemma exec_sadd_ne ks k m k' : k ≠ k' → exec (Redis.sadd k m) ks !! k' = ks !! k'.
Proof.
  intros. unfold exec, Redis.sadd.
  destruct (ks !! k) as [[[] ?]|]; try done; by rewrite lookup_insert_ne.
Qed.

Lemma exec_srem_ne ks k m k' : k ≠ k' → exec (Redis.srem k m) ks !! k' = ks !! k'.
Proof.
  intros. unfold exec, Redis.srem.
  destruct (ks !! k) as [[[] ?]|]; try done.
  case_decide; [by rewrite lookup_delete_ne | by rewrite lookup_insert_ne].
Qed.

Lemma exec_hset_ne ks k f v k' :
  k ≠ k' → exec (Redis.hset k f v) ks !! k' = ks !! k'.
Proof.
  intros. unfold exec, Redis.hset.
  destruct (ks !! k) as [[[] ?]|]; try done; by rewrite lookup_insert_ne.
Qed.

Lemma exec_hdel_ne ks k f k' : k ≠ k' → exec (Redis.hdel k f) ks !! k' = ks !! k'.
Proof.
  intros. unfold exec, Redis.hdel.
  destruct (ks !! k) as [[[] ?]|]; try done.
  case_decide; [by rewrite lookup_delete_ne | by rewrite lookup_insert_ne].
Qed.

Lemma exec_del_eq ks k : exec (Redis.del k) ks !! k = None.
Proof. unfold exec; simpl. by rewrite lookup_delete_eq. Qed.

(** Observations depend on the entry at their key only. *)
Lemma text_lookup ks ks' k : ks' !! k = ks !! k → text ks' k = text ks k.
Proof. unfold text. by intros ->. Qed.
Lemma members_lookup ks ks' k : ks' !! k = ks !! k → members ks' k = members ks k.
Proof. unfold members. by intros ->. Qed.
Lemma field_lookup ks ks' k f : ks' !! k = ks !! k → field ks' k f = field ks k f.
Proof. unfold field. by intros ->. Qed.

(** *** [text] *)

Lemma text_set_ex ks k v t k' :
  text (exec (Redis.set_ex k v t) ks) k' = if decide (k = k') then Some v else text ks k'.
Proof.
  case_decide; subst.
  - unfold text, exec; simpl. by rewrite lookup_insert_eq.
  - by apply text_lookup, exec_set_ex_ne.
Qed.

Lemma text_del ks k k' :
  text (exec (Redis.del k) ks) k' = if decide (k = k') then None else text ks k'.
Proof.
  case_decide; subst.
  - unfold text, exec; simpl. by rewrite lookup_delete_eq.
  - by apply text_lookup, exec_del_ne.
Qed.

Lemma text_expire ks k t k' : text (exec (Redis.expire k t) ks) k' = text ks k'.
Proof.
  destruct (decide (k = k')) as [<-|]; [|by apply text_lookup, exec_expire_ne].
  unfold text, exec, Redis.expire. destruct (ks !! k) as [[]|] eqn:E; [|by rewrite E].
  by rewrite lookup_insert_eq.
Qed.

Lemma text_sadd ks k m k' : text (exec (Redis.sadd k m) ks) k' = text ks k'.
Proof.
  destruct (decide (k = k')) as [<-|]; [|by apply text_lookup, exec_sadd_ne].
  unfold text, exec, Redis.sadd.
  destruct (ks !! k) as [[[] ?]|] eqn:E; rewrite ?E, ?lookup_insert_eq; done.
Qed.

Lemma text_srem ks k m k' : text (exec (Redis.srem k m) ks) k' = text ks k'.
Proof.
  destruct (decide (k = k')) as [<-|]; [|by apply text_lookup, exec_srem_ne].
  unfold text, exec, Redis.srem.
  destruct (ks !! k) as [[[] ?]|] eqn:E; rewrite ?E; try done.
  case_decide; rewrite ?lookup_delete_eq, ?lookup_insert_eq; done.
Qed.

Lemma text_hset ks k f v k' : text (exec (Redis.hset k f v) ks) k' = text ks k'.
Proof.
  destruct (decide (k = k')) as [<-|]; [|by apply text_lookup, exec_hset_ne].
  unfold text, exec, Redis.hset.
  destruct (ks !! k) as [[[] ?]|] eqn:E; rewrite ?E, ?lookup_insert_eq; done.
Qed.

Lemma text_hdel ks k f k' : text (exec (Redis.hdel k f) ks) k' = text ks k'.
Proof.
  destruct (decide (k = k')) as [<-|]; [|by apply text_lookup, exec_hdel_ne].
  unfold text, exec, Redis.hdel.
  destruct (ks !! k) as [[[] ?]|] eqn:E; rewrite ?E; try done.
  case_decide; rewrite ?lookup_delete_eq, ?lookup_insert_eq; done.
Qed.

(** *** [members] *)

Lemma members_set_ex ks k v t k' :
  members (exec (Redis.set_ex k v t) ks) k' = if decide (k = k') then ∅ else members ks k'.
Proof.
  case_decide; subst.
  - unfold members, exec; simpl. by rewrite lookup_insert_eq.
  - by apply members_lookup, exec_set_ex_ne.
Qed.

Lemma members_del ks k k' :
  members (exec (Redis.del k) ks) k' = if decide (k = k') then ∅ else members ks k'.
Proof.
  case_decide; subst.
  - unfold members, exec; simpl. by rewrite lookup_delete_eq.
  - by apply members_lookup, exec_del_ne.
Qed.

Lemma members_expire ks k t k' : members (exec (Redis.expire k t) ks) k' = members ks k'.
Proof.
  destruct (decide (k = k')) as [<-|]; [|by apply members_lookup, exec_expire_ne].
  unfold members, exec, Redis.expire. destruct (ks !! k) as [[]|] eqn:E; [|by rewrite E].
  by rewrite lookup_insert_eq.
Qed.

Lemma members_sadd ks k m k' :
  well_kinded ks → key_kind k = Some KSet →
  members (exec (Redis.sadd k m) ks) k'
  = if decide (k = k') then {[ m ]} ∪ members ks k else members ks k'.
Proof.
  intros Hwf Hk. case_decide; subst; [|by apply members_lookup, exec_sadd_ne].
  unfold members, exec, Redis.sadd.
  destruct (kinded_set ks k' Hwf Hk) as [E|(s & t & E)]; rewrite E, lookup_insert_eq.
  - set_solver.
  - done.
Qed.

Lemma members_srem ks k m k' :
  members (exec (Redis.srem k m) ks) k'
  = if decide (k = k') then members ks k ∖ {[ m ]} else members ks k'.
Proof.
  case_decide; subst; [|by apply members_lookup, exec_srem_ne].
  unfold members, exec, Redis.srem.
  destruct (ks !! k') as [[[] ?]|] eqn:E; rewrite ?E; try set_solver.
  case_decide as Hs; rewrite ?lookup_delete_eq, ?lookup_insert_eq; [by rewrite Hs | done].
Qed.

Lemma members_hset ks k f v k' : members (exec (Redis.hset k f v) ks) k' = members ks k'.
Proof.
  destruct (decide (k = k')) as [<-|]; [|by apply members_lookup, exec_hset_ne].
  unfold members, exec, Redis.hset.
  destruct (ks !! k) as [[[] ?]|] eqn:E; rewrite ?E, ?lookup_insert_eq; done.
Qed.

Lemma members_hdel ks k f k' : members (exec (Redis.hdel k f) ks) k' = members ks k'.
Proof.
  destruct (decide (k = k')) as [<-|]; [|by apply members_lookup, exec_hdel_ne].
  unfold members, exec, Redis.hdel.
  destruct (ks !! k) as [[[] ?]|] eqn:E; rewrite ?E; try done.
  case_decide; rewrite ?lookup_delete_eq, ?lookup_insert_eq; done.
Qed.

(** *** [field] *)

Lemma field_set_ex ks k v t k' f :
  field (exec (Redis.set_ex k v t) ks) k' f = if decide (k = k') then None else field ks k' f.
Proof.
  case_decide; subst.
  - unfold field, exec; simpl. by rewrite lookup_insert_eq.
  - by apply field_lookup, exec_set_ex_ne.
Qed.

Lemma field_del ks k k' f :
  field (exec (Redis.del k) ks) k' f = if decide (k = k') then None else field ks k' f.
Proof.
  case_decide; subst.
  - unfold field, exec; simpl. by rewrite lookup_delete_eq.
  - by apply field_lookup, exec_del_ne.
Qed.

Lemma field_expire ks k t k' f : field (exec (Redis.expire k t) ks) k' f = field ks k' f.
Proof.
  destruct (decide (k = k')) as [<-|]; [|by apply field_lookup, exec_expire_ne].
  unfold field, exec, Redis.expire. destruct (ks !! k) as [[]|] eqn:E; [|by rewrite E].
  by rewrite lookup_insert_eq.
Qed.

Lemma field_sadd ks k m k' f : field (exec (Redis.sadd k m) ks) k' f = field ks k' f.
Proof.
  destruct (decide (k = k')) as [<-|]; [|by apply field_lookup, exec_sadd_ne].
  unfold field, exec, Redis.sadd.
  destruct (ks !! k) as [[[] ?]|] eqn:E; rewrite ?E, ?lookup_insert_eq; done.
Qed.

Lemma field_srem ks k m k' f : field (exec (Redis.srem k m) ks) k' f = field ks k' f.
Proof.
  destruct (decide (k = k')) as [<-|]; [|by apply field_lookup, exec_srem_ne].
  unfold field, exec, Redis.srem.
  destruct (ks !! k) as [[[] ?]|] eqn:E; rewrite ?E; try done.
  case_decide; rewrite ?lookup_delete_eq, ?lookup_insert_eq; done.
Qed.

Lemma field_hset ks k f v k' f' :
  well_kinded ks → key_kind k = Some KHash →
  field (exec (Redis.hset k f v) ks) k' f'
  = if decide (k = k') then (if decide (f = f') then Some v else field ks k f')
    else field ks k' f'.
Proof.
  intros Hwf Hk. case_decide; subst; [|by apply field_lookup, exec_hset_ne].
  unfold field, exec, Redis.hset.
  destruct (kinded_hash ks k' Hwf Hk) as [E|(h & t & E)]; rewrite E, lookup_insert_eq.
  - case_decide; subst; [by rewrite lookup_singleton_eq | by rewrite lookup_singleton_ne].
  - case_decide; subst; [by rewrite lookup_insert_eq | by rewrite lookup_insert_ne].
Qed.

Lemma field_hdel ks k f k' f' :
  field (exec (Redis.hdel k f) ks) k' f'
  = if decide (k = k') then (if decide (f = f') then None else field ks k f')
    else field ks k' f'.
Proof.
  case_decide; subst; [|by apply field_lookup, exec_hdel_ne].
  unfold field, exec, Redis.hdel.
  destruct (ks !! k') as [[[] ?]|] eqn:E; rewrite ?E; try (by case_decide).
  case_decide as Hh.
  - rewrite lookup_delete_eq.
    case_decide; subst; [done|].
    by rewrite <- (lookup_delete_ne fields f f'), Hh, lookup_empty.
  - rewrite lookup_insert_eq.
    case_decide; subst; [by rewrite lookup_delete_eq | by rewrite lookup_delete_ne].
Qed.

(** *** The schema is preserved *)

Lemma well_kinded_set_ex ks k v t :
  well_kinded ks → key_kind k ≠ Some KSet → key_kind k ≠ Some KHash →
  well_kinded (exec (Redis.set_ex k v t) ks).
Proof.
  intros Hwf H1 H2. apply well_kinded_insert; [done|].
  intros [] Hk; simpl; congruence.
Qed.

Lemma well_kinded_del ks k : well_kinded ks → well_kinded (exec (Redis.del k) ks).
Proof. apply well_kinded_delete. Qed.

Lemma well_kinded_expire ks k t :
  well_kinded ks → well_kinded (exec (Redis.expire k t) ks).
Proof.
  intros Hwf. unfold exec, Redis.expire. destruct (ks !! k) as [e|] eqn:E; [|done].
  apply well_kinded_insert; [done|]. intros kd Hk. simpl. by eapply Hwf.
Qed.

Lemma well_kinded_sadd ks k m :
  well_kinded ks → key_kind k = Some KSet → well_kinded (exec (Redis.sadd k m) ks).
Proof.
  intros Hwf Hk. unfold exec, Redis.sadd.
  destruct (ks !! k) as [[[] ?]|] eqn:E; try done;
    (apply well_kinded_insert; [done|]; intros kd; rewrite Hk; by intros [= <-]).
Qed.

Lemma well_kinded_srem ks k m : well_kinded ks → well_kinded (exec (Redis.srem k m) ks).
Proof.
  intros Hwf. unfold exec, Redis.srem.
  destruct (ks !! k) as [[[] ?]|] eqn:E; try done.
  case_decide; [by apply well_kinded_delete|].
  apply well_kinded_insert; [done|]. intros kd Hk. by apply (Hwf _ _ _ E Hk).
Qed.

Lemma well_kinded_hset ks k f v :
  well_kinded ks → key_kind k = Some KHash → well_kinded (exec (Redis.hset k f v) ks).
Proof.
  intros Hwf Hk. unfold exec, Redis.hset.
  destruct (ks !! k) as [[[] ?]|] eqn:E; try done;
    (apply well_kinded_insert; [done|]; intros kd; rewrite Hk; by intros [= <-]).
Qed.

Lemma well_kinded_hdel ks k f : well_kinded ks → well_kinded (exec (Redis.hdel k f) ks).
Proof.
  intros Hwf. unfold exec, Redis.hdel.
  destruct (ks !! k) as [[[] ?]|] eqn:E; try done.
  case_decide; [by apply well_kinded_delete|].
  apply well_kinded_insert; [done|]. intros kd Hk. by apply (Hwf _ _ _ E Hk).
Qed.

End Commands.

(** ** Time passing between requests *)

Section Time.
Implicit Types (ks : gmap string entry) (k f m v : string).

Lemma lookup_elapse dt ks k :
  Redis.elapse dt ks !! k
  = ks !! k ≫= λ e,
      match e_ttl e with
      | Some t => if decide (t ≤ dt)%Z then None
                  else Some (Entry (e_val e) (Some (t - dt)))
      | None => Some e
      end.
Proof. unfold Redis.elapse. by rewrite lookup_omap. Qed.

Lemma lookup_elapse_none dt ks k : ks !! k = None → Redis.elapse dt ks !! k = None.
Proof. intros H. by rewrite lookup_elapse, H. Qed.

Lemma lookup_elapse_alive dt ks k (x : value) t :
  ks !! k = Some (Entry x (Some t)) → dt < t →
  Redis.elapse dt ks !! k = Some (Entry x (Some (t - dt))).
Proof. intros H Hlt. rewrite lookup_elapse, H. simpl. by rewrite decide_False by lia. Qed.

Lemma lookup_elapse_forever dt ks k (x : value) :
  ks !! k = Some (Entry x None) → Redis.elapse dt ks !! k = Some (Entry x None).
Proof. intros H. by rewrite lookup_elapse, H. Qed.

Lemma well_kinded_elapse dt ks : well_kinded ks → well_kinded (Redis.elapse dt ks).
Proof.
  intros Hwf k e kd He Hk. rewrite lookup_elapse in He.
  destruct (ks !! k) as [[v [t|]]|] eqn:E; simpl in He; try done.
  - case_decide; [done|]. injection He as <-. by apply (Hwf k _ kd E).
  - injection He as <-. by apply (Hwf k _ kd E).
Qed.

Lemma persistent_elapse dt ks : persistent ks → persistent (Redis.elapse dt ks).
Proof.
  intros Hp k e He Hk. rewrite lookup_elapse in He.
  destruct (ks !! k) as [[v [t|]]|] eqn:E; simpl in He; try done.
  - case_decide; [done|]. injection He as <-. simpl in Hk.
    by pose proof (Hp k _ E Hk).
  - by injection He as <-.
Qed.

Lemma members_elapse dt ks k : persistent ks → members (Redis.elapse dt ks) k = members ks k.
Proof.
  intros Hp. unfold members. rewrite lookup_elapse.
  destruct (ks !! k) as [[v t]|] eqn:E; [|done].
  destruct v as [s|s|h]; simpl.
  - by destruct t as [t|]; [case_decide|].
  - assert (t = None) as -> by (by apply (Hp k _ E)). done.
  - by destruct t as [t|]; [case_decide|].
Qed.

Lemma field_elapse dt ks k f : persistent ks → field (Redis.elapse dt ks) k f = field ks k f.
Proof.
  intros Hp. unfold field. rewrite lookup_elapse.
  destruct (ks !! k) as [[v t]|] eqn:E; [|done].
  destruct v as [s|s|h]; simpl.
  - by destruct t as [t|]; [case_decide|].
  - by destruct t as [t|]; [case_decide|].
  - assert (t = None) as -> by (by apply (Hp k _ E)). done.
Qed.

Lemma text_elapse_alive dt ks k s t :
  ks !! k = Some (Entry (VString s) (Some t)) → dt < t →
  text (Redis.elapse dt ks) k = Some s.
Proof. intros H Hlt. unfold text. by rewrite (lookup_elapse_alive _ _ _ _ _ H Hlt). Qed.

(** Each command keeps the sets and hashes without time to live. *)
Lemma persistent_set_ex ks k v t : persistent ks → persistent (exec (Redis.set_ex k v t) ks).
Proof.
  intros Hp k' e. unfold exec; simpl.
  destruct (decide (k = k')) as [<-|Hne].
  - rewrite lookup_insert_eq. by intros [= <-].
  - rewrite lookup_insert_ne by done. apply Hp.
Qed.

Lemma persistent_del ks k : persistent ks → persistent (exec (Redis.del k) ks).
Proof.
  intros Hp k' e. unfold exec; simpl.
  destruct (decide (k = k')) as [<-|Hne].
  - by rewrite lookup_delete_eq.
  - rewrite lookup_delete_ne by done. apply Hp.
Qed.

Lemma persistent_sadd ks k m : persistent ks → persistent (exec (Redis.sadd k m) ks).
Proof.
  intros Hp k' e. unfold exec, Redis.sadd.
  destruct (ks !! k) as [[[s|s|h] t]|] eqn:E; try apply Hp.
  - destruct (decide (k = k')) as [<-|Hne]; [|rewrite lookup_insert_ne by done; apply Hp].
    rewrite lookup_insert_eq. intros [= <-] _. simpl. by apply (Hp k _ E).
  - destruct (decide (k = k')) as [<-|Hne]; [|rewrite lookup_insert_ne by done; apply Hp].
    rewrite lookup_insert_eq. by intros [= <-].
Qed.

Lemma persistent_srem ks k m : persistent ks → persistent (exec (Redis.srem k m) ks).
Proof.
  intros Hp k' e. unfold exec, Redis.srem.
  destruct (ks !! k) as [[[s|s|h] t]|] eqn:E; try apply Hp.
  case_decide.
  - destruct (decide (k = k')) as [<-|Hne]; [by rewrite lookup_delete_eq|].
    rewrite lookup_delete_ne by done. apply Hp.
  - destruct (decide (k = k')) as [<-|Hne]; [|rewrite lookup_insert_ne by done; apply Hp].
    rewrite lookup_insert_eq. intros [= <-] _. simpl. by apply (Hp k _ E).
Qed.

Lemma persistent_hset ks k f v : persistent ks → persistent (exec (Redis.hset k f v) ks).
Proof.
  intros Hp k' e. unfold exec, Redis.hset.
  destruct (ks !! k) as [[[s|s|h] t]|] eqn:E; try apply Hp.
  - destruct (decide (k = k')) as [<-|Hne]; [|rewrite lookup_insert_ne by done; apply Hp].
    rewrite lookup_insert_eq. intros [= <-] _. simpl. by apply (Hp k _ E).
  - destruct (decide (k = k')) as [<-|Hne]; [|rewrite lookup_insert_ne by done; apply Hp].
    rewrite lookup_insert_eq. by intros [= <-].
Qed.

Lemma persistent_hdel ks k f : persistent ks → persistent (exec (Redis.hdel k f) ks).
Proof.
  intros Hp k' e. unfold exec, Redis.hdel.
  destruct (ks !! k) as [[[s|s|h] t]|] eqn:E; try apply Hp.
  case_decide.
  - destruct (decide (k = k')) as [<-|Hne]; [by rewrite lookup_delete_eq|].
    rewrite lookup_delete_ne by done. apply Hp.
  - destruct (decide (k = k')) as [<-|Hne]; [|rewrite lookup_insert_ne by done; apply Hp].
    rewrite lookup_insert_eq. intros [= <-] _. simpl. by apply (Hp k _ E).
Qed.

Lemma persistent_empty : persistent ∅.
Proof. intros k e. by rewrite lookup_empty. Qed.

End Time.

Section TimedRecord.
Context `{T : Transport} `{R : Runtime}.
Implicit Types (ks : gmap string entry).

(** [setSession] leaves the record with its sixty days. *)
Lemma lookup_attach_record ks sid d :
  valid_id sid →
  attach_ks sid d ks !! session_key sid
  = Some (Entry (VString (JSON_stringify d)) (Some sixty_days)).
Proof.
  intros Hv. destruct (valid_id_hash_ne sid Hv) as (H1 & H2 & H3).
  unfold attach_ks.
  rewrite !exec_hset_ne by done. rewrite !exec_sadd_ne by discriminate.
  unfold exec; simpl. by rewrite lookup_insert_eq.
Qed.

Lemma attach_ks_full_ttl ks sid d : valid_id sid → full_ttl (attach_ks sid d ks) sid.
Proof. intros Hv. eexists. by apply lookup_attach_record. Qed.

Lemma lookup_issue_ne ctx sid ks k :
  k ≠ refresh_key sid → issue_ks ctx sid ks !! k = ks !! k.
Proof. intros Hne. unfold issue_ks. by rewrite exec_set_ex_ne. Qed.

(** So does [refreshSession] on a live session. *)
Lemma lookup_refreshed_record ctx sid d ks :
  live ks sid d →
  issue_ks ctx sid
    (exec (Redis.expire (session_key sid) sixty_days)
       (exec (Redis.del (refresh_key sid)) ks)) !! session_key sid
  = Some (Entry (VString (JSON_stringify d)) (Some sixty_days)).
Proof.
  intros Hl. rewrite lookup_issue_ne by discriminate.
  unfold live, text in Hl. unfold exec at 1, Redis.expire.
  rewrite exec_del_ne by discriminate.
  destruct (ks !! session_key sid) as [[[s|s|m] t]|]; try done.
  injection Hl as ->. by rewrite lookup_insert_eq.
Qed.

(** A record with its sixty days is there less than sixty days later. *)
Lemma live_later dt ks sid d :
  ks !! session_key sid = Some (Entry (VString (JSON_stringify d)) (Some sixty_days)) →
  dt < sixty_days → live (Redis.elapse dt ks) sid d.
Proof. intros Hk Hdt. unfold live. by eapply text_elapse_alive. Qed.

Lemma persistent_attach ks sid d : persistent ks → persistent (attach_ks sid d ks).
Proof.
  intros Hp. unfold attach_ks.
  by repeat first [apply persistent_hset | apply persistent_sadd | apply persistent_set_ex].
Qed.

Lemma persistent_detach ks sid d : persistent ks → persistent (detach_ks sid d ks).
Proof. intros Hp. unfold detach_ks. by repeat apply persistent_srem. Qed.

Lemma persistent_unhash ks sid : persistent ks → persistent (unhash_ks sid ks).
Proof. intros Hp. unfold unhash_ks. by repeat apply persistent_hdel. Qed.

Lemma persistent_issue ctx ks sid : persistent ks → persistent (issue_ks ctx sid ks).
Proof. intros Hp. unfold issue_ks. by apply persistent_set_ex. Qed.

End TimedRecord.

(** * Running the session functions *)

(** ** Commands that succeed *)

Lemma get_ok ks k :
  well_kinded ks → key_kind k = Some KString → Redis.get k ks = inr (text ks k, ks).
Proof.
  intros Hwf Hk. unfold Redis.get, text.
  by destruct (kinded_string ks k Hwf Hk) as [->|(s & t & ->)].
Qed.

Lemma smembers_ok ks k :
  well_kinded ks → key_kind k = Some KSet →
  Redis.smembers k ks = inr (elements (members ks k), ks).
Proof.
  intros Hwf Hk. unfold Redis.smembers, members.
  destruct (kinded_set ks k Hwf Hk) as [->|(s & t & ->)]; [|done].
  by rewrite elements_empty.
Qed.

Lemma hget_ok ks k f :
  well_kinded ks → key_kind k = Some KHash → Redis.hget k f ks = inr (field ks k f, ks).
Proof.
  intros Hwf Hk. unfold Redis.hget, field.
  by destruct (kinded_hash ks k Hwf Hk) as [->|(s & t & ->)].
Qed.

Lemma set_ex_ok ks k v t :
  Redis.set_ex k v t ks = inr (tt, exec (Redis.set_ex k v t) ks).
Proof. done. Qed.

Lemma del_ok ks k : Redis.del k ks = inr (tt, exec (Redis.del k) ks).
Proof. done. Qed.

Lemma expire_ok ks k t : Redis.expire k t ks = inr (tt, exec (Redis.expire k t) ks).
Proof. unfold exec, Redis.expire. by destruct (ks !! k). Qed.

Lemma sadd_ok ks k m :
  well_kinded ks → key_kind k = Some KSet →
  Redis.sadd k m ks = inr (tt, exec (Redis.sadd k m) ks).
Proof.
  intros Hwf Hk. unfold exec, Redis.sadd.
  by destruct (kinded_set ks k Hwf Hk) as [->|(s & t & ->)].
Qed.

Lemma srem_ok ks k m :
  well_kinded ks → key_kind k = Some KSet →
  Redis.srem k m ks = inr (tt, exec (Redis.srem k m) ks).
Proof.
  intros Hwf Hk. unfold exec, Redis.srem.
  destruct (kinded_set ks k Hwf Hk) as [->|(s & t & ->)]; [done|].
  by case_decide.
Qed.

Lemma hset_ok ks k f v :
  well_kinded ks → key_kind k = Some KHash →
  Redis.hset k f v ks = inr (tt, exec (Redis.hset k f v) ks).
Proof.
  intros Hwf Hk. unfold exec, Redis.hset.
  by destruct (kinded_hash ks k Hwf Hk) as [->|(s & t & ->)].
Qed.

Lemma hdel_ok ks k f :
  well_kinded ks → key_kind k = Some KHash →
  Redis.hdel k f ks = inr (tt, exec (Redis.hdel k f) ks).
Proof.
  intros Hwf Hk. unfold exec, Redis.hdel.
  destruct (kinded_hash ks k Hwf Hk) as [->|(s & t & ->)]; [done|].
  by case_decide.
Qed.

(** ** Steps of a computation *)

Lemma call_ok {A} (c : gmap string entry → Redis.reply A) w a ks' :
  outages w = [] → c (redis w) = inr (a, ks') →
  call c w = (inr a, with_redis ks' w).
Proof.
  intros Ho Hc. unfold call. rewrite Ho, Hc. simpl.
  destruct w; simpl in *; by subst.
Qed.

Lemma call_read {A} (c : gmap string entry → Redis.reply A) w a :
  outages w = [] → c (redis w) = inr (a, redis w) → call c w = (inr a, w).
Proof.
  intros Ho Hc. rewrite (call_ok c w a (redis w) Ho Hc). by destruct w.
Qed.

(** One round trip under a fault schedule. *)
Lemma call_down {A} (c : gmap string entry → Redis.reply A) w o :
  outages w = true :: o → call c w = (inl StoreUnavailable, with_outages o w).
Proof. intros Ho. unfold call. by rewrite Ho. Qed.

Lemma call_up {A} (c : gmap string entry → Redis.reply A) w o a ks' :
  outages w = false :: o → c (redis w) = inr (a, ks') →
  call c w = (inr a, with_redis ks' (with_outages o w)).
Proof. intros Ho Hc. unfold call. by rewrite Ho, Hc. Qed.

Lemma io_bind_ok {A B} (m : Io A) (f : A → Io B) w a w' :
  m w = (inr a, w') → (m ≫= f) w = f a w'.
Proof. intros Hm. unfold mbind, io_mbind, io_bind. by rewrite Hm. Qed.

Lemma io_bind_err {A B} (m : Io A) (f : A → Io B) w e w' :
  m w = (inl e, w') → (m ≫= f) w = (inl e, w').
Proof. intros Hm. unfold mbind, io_mbind, io_bind. by rewrite Hm. Qed.

Create HintDb kinded.

#[local] Hint Resolve well_kinded_set_ex well_kinded_del well_kinded_expire
  well_kinded_sadd well_kinded_srem well_kinded_hset well_kinded_hdel
  key_kind_role key_kind_user key_kind_workspace key_kind_session
  key_kind_hash_role key_kind_hash_user key_kind_hash_workspace : kinded.

(** One awaited command whose preconditions are at hand. *)
Ltac step lem :=
  erewrite io_bind_ok;
  [| apply call_ok; [done | apply lem; simpl; auto 10 with kinded]];
  simpl.

Section Run.
Context `{T : Transport} `{R : Runtime}.

Lemma session_key_slot sid :
  valid_id sid →
  key_kind (session_key sid) ≠ Some KSet ∧ key_kind (session_key sid) ≠ Some KHash.
Proof. intros Hv. by rewrite (key_kind_session sid Hv). Qed.

Lemma attach_ks_kinded sid d ks :
  well_kinded ks → valid_id sid → well_kinded (attach_ks sid d ks).
Proof.
  intros Hwf Hv. destruct (session_key_slot sid Hv).
  unfold attach_ks. auto 10 with kinded.
Qed.

Lemma detach_ks_kinded sid d ks : well_kinded ks → well_kinded (detach_ks sid d ks).
Proof. intros. unfold detach_ks. auto with kinded. Qed.

Lemma unhash_ks_kinded sid ks : well_kinded ks → well_kinded (unhash_ks sid ks).
Proof. intros. unfold unhash_ks. auto with kinded. Qed.

Lemma issue_ks_kinded ctx sid ks : well_kinded ks → well_kinded (issue_ks ctx sid ks).
Proof. intros. unfold issue_ks. apply well_kinded_set_ex; by rewrite ?key_kind_refresh. Qed.

Lemma setSession_run sid d w :
  outages w = [] → well_kinded (redis w) → valid_id sid →
  setSession sid d w = (inr tt, with_redis (attach_ks sid d (redis w)) w).
Proof.
  intros Ho Hwf Hv. destruct (session_key_slot sid Hv).
  unfold setSession, attach_ks.
  step set_ex_ok. step sadd_ok. step sadd_ok. step sadd_ok.
  step hset_ok. step hset_ok.
  erewrite call_ok; [done | done | apply hset_ok; simpl; auto 10 with kinded].
Qed.

End Run.

(** ** The example collaborators satisfy the interface laws *)

Lemma dec_enc_pos p : Demo.dec_pos (Demo.enc_pos p) = Some p.
Proof. induction p as [p IH|p IH|]; simpl; rewrite ?IH; done. Qed.

Lemma demo_json_sound : @json_sound Demo.runtime.
Proof.
  intros d. split.
  - unfold JSON_parse, JSON_stringify; simpl.
    rewrite dec_enc_pos. simpl. apply decode_encode.
  - unfold JSON_stringify; simpl. by destruct (encode d).
Qed.

(** ** Checking the schema of a concrete keyspace *)

Lemma well_kinded_check ks :
  bool_decide (map_Forall (λ k e, kinded_entry k e = true) ks) = true → well_kinded ks.
Proof.
  intros Hc%bool_decide_eq_true k e kd Hk Hkd.
  specialize (Hc k e Hk). unfold kinded_entry in Hc. rewrite Hkd in Hc.
  by destruct kd, (e_val e).
Qed.

Lemma valid_id_s1 : valid_id "s1".
Proof. by repeat split. Qed.

(** Decides a closed decidable proposition by evaluation. *)
Ltac by_compute := apply (bool_decide_unpack _); vm_compute; exact I.

Lemma world_created_kinded : well_kinded (redis Example.world_created).
Proof. apply well_kinded_check. vm_compute. reflexivity. Qed.

Lemma world_created_live :
  live (redis Example.world_created) "s1" (loaded Example.ctx_create "acct1").
Proof. vm_compute. reflexivity. Qed.

(** ** Stepping through nested blocks *)

Lemma get_text ks k s : text ks k = Some s → Redis.get k ks = inr (Some s, ks).
Proof.
  unfold text, Redis.get. destruct (ks !! k) as [[[] ?]|]; naive_solver.
Qed.

Lemma truthy_None : truthy None = None.
Proof. done. Qed.

Lemma truthy_stringify `{R : Runtime} d :
  json_sound → truthy (Some (JSON_stringify d)) = Some (JSON_stringify d).
Proof. intros Hj. destruct (Hj d) as [_ Hne]. simpl. by case_decide. Qed.

Lemma parse_stringify `{R : Runtime} d :
  json_sound → parse_session (JSON_stringify d) = mret d.
Proof. intros Hj. destruct (Hj d) as [Hp _]. unfold parse_session. by rewrite Hp. Qed.

(** A record in a well-kinded keyspace does not sit on a forward hash. *)
Lemma text_not_hash ks k s :
  well_kinded ks → text ks k = Some s → key_kind k ≠ Some KHash ∧ key_kind k ≠ Some KSet.
Proof.
  unfold text. intros Hwf Ht.
  destruct (ks !! k) as [[[] ?]|] eqn:E; try done.
  split; intros Hk; by specialize (Hwf _ _ _ E Hk).
Qed.

(** Expose the binds, then run the awaited commands one by one. *)
Ltac io_unfold := unfold mbind, io_mbind, io_bind, mret, io_mret, io_ret.

Ltac run lem :=
  erewrite call_ok; [| done | apply lem; simpl; auto 10 with kinded];
  cbn beta iota.

Ltac run_read lem :=
  erewrite call_read; [| done | apply lem; simpl; auto 10 with kinded];
  cbn beta iota.

(** ** Observations after attach, detach and the clearing of the hashes *)

Lemma elem_of_index_of d k :
  k ∈ index_of d
  ↔ k = role_key (roleId d) ∨ k = user_key (userId d) ∨ k = workspace_key (workspaceId d).
Proof. unfold index_of. set_solver. Qed.

(** Closes the cases of a comparison of keys. *)
Ltac key_cases :=
  repeat case_decide; subst; try done;
  repeat match goal with
         | H : _ ∈ index_of _ |- _ => rewrite elem_of_index_of in H
         | H : _ ∉ index_of _ |- _ => rewrite elem_of_index_of in H
         end;
  try (exfalso; naive_solver);
  try discriminate.

Section Composite.
Context `{T : Transport} `{R : Runtime}.
Implicit Types (ks : gmap string entry) (d : SessionData).

Lemma members_detach ks sid d k :
  members (detach_ks sid d ks) k
  = if decide (k ∈ index_of d) then members ks k ∖ {[ sid ]} else members ks k.
Proof.
  unfold detach_ks. rewrite !members_srem. key_cases.
Qed.

Lemma text_detach ks sid d k : text (detach_ks sid d ks) k = text ks k.
Proof. unfold detach_ks. by rewrite !text_srem. Qed.

Lemma members_unhash ks sid k : members (unhash_ks sid ks) k = members ks k.
Proof. unfold unhash_ks. by rewrite !members_hdel. Qed.

Lemma text_unhash ks sid k : text (unhash_ks sid ks) k = text ks k.
Proof. unfold unhash_ks. by rewrite !text_hdel. Qed.

Lemma field_unhash ks sid k f :
  field (unhash_ks sid ks) k f
  = if decide (k ∈ forward_hashes ∧ f = sid) then None else field ks k f.
Proof.
  unfold unhash_ks, forward_hashes. rewrite !field_hdel.
  repeat case_decide; subst; try done;
    exfalso; set_unfold; naive_solver.
Qed.

Lemma unhashed_unhash ks sid : unhashed (unhash_ks sid ks) sid.
Proof.
  unfold unhashed. rewrite !field_unhash.
  repeat split; (rewrite decide_True; [done|]); split; try done;
    unfold forward_hashes; set_solver.
Qed.

Lemma members_string_slot ks k :
  well_kinded ks → key_kind k = Some KString → members ks k = ∅.
Proof.
  intros Hwf Hk. unfold members.
  by destruct (kinded_string ks k Hwf Hk) as [->|(s & t & ->)].
Qed.

Lemma field_string_slot ks k f :
  well_kinded ks → key_kind k = Some KString → field ks k f = None.
Proof.
  intros Hwf Hk. unfold field.
  by destruct (kinded_string ks k Hwf Hk) as [->|(s & t & ->)].
Qed.

Lemma members_attach ks sid d k :
  well_kinded ks → valid_id sid →
  members (attach_ks sid d ks) k
  = if decide (k ∈ index_of d) then {[ sid ]} ∪ members ks k else members ks k.
Proof.
  intros Hwf Hv. destruct (session_key_slot sid Hv).
  unfold attach_ks. rewrite !members_hset.
  rewrite !members_sadd by auto 10 with kinded.
  rewrite !members_set_ex.
  pose proof (members_string_slot ks (session_key sid) Hwf (key_kind_session sid Hv))
    as Hm.
  key_cases; by rewrite ?Hm.
Qed.

Lemma text_attach ks sid d k :
  text (attach_ks sid d ks) k
  = if decide (k = session_key sid) then Some (JSON_stringify d) else text ks k.
Proof.
  unfold attach_ks. rewrite !text_hset, !text_sadd, !text_set_ex. key_cases.
Qed.

Lemma forward_attach ks sid d :
  well_kinded ks → valid_id sid → forward_of (attach_ks sid d ks) sid d.
Proof.
  intros Hwf Hv. destruct (session_key_slot sid Hv).
  unfold forward_of, attach_ks.
  repeat split; rewrite !field_hset by auto 15 with kinded; key_cases.
Qed.

Lemma field_attach_ne ks sid d k f :
  well_kinded ks → valid_id sid → f ≠ sid →
  field (attach_ks sid d ks) k f = field ks k f.
Proof.
  intros Hwf Hv Hf. destruct (session_key_slot sid Hv).
  unfold attach_ks.
  rewrite !field_hset by auto 15 with kinded.
  rewrite !field_sadd, !field_set_ex.
  pose proof (field_string_slot ks (session_key sid) f Hwf (key_kind_session sid Hv))
    as Hm.
  destruct (valid_id_hash_ne sid Hv) as (? & ? & ?).
  key_cases; by rewrite ?Hm.
Qed.

Lemma not_forward_hash k :
  k ∉ forward_hashes ↔
  k ≠ "session:role" ∧ k ≠ "session:user" ∧ k ≠ "session:workspace".
Proof. unfold forward_hashes. set_unfold. naive_solver. Qed.

Lemma lookup_detach_ne ks sid d k :
  k ∉ index_of d → detach_ks sid d ks !! k = ks !! k.
Proof.
  rewrite elem_of_index_of. intros Hi.
  unfold detach_ks. rewrite !exec_srem_ne; naive_solver.
Qed.

Lemma lookup_unhash_none ks sid k : ks !! k = None → unhash_ks sid ks !! k = None.
Proof.
  intros Hk. unfold unhash_ks.
  assert (∀ ks' h, ks' !! k = None → exec (Redis.hdel h sid) ks' !! k = None) as Hstep.
  { intros ks' h Hn. destruct (decide (h = k)) as [->|]; [|by rewrite exec_hdel_ne].
    unfold exec, Redis.hdel. by rewrite Hn. }
  auto.
Qed.

Lemma lookup_unhash_ne ks sid k :
  k ∉ forward_hashes → unhash_ks sid ks !! k = ks !! k.
Proof.
  rewrite not_forward_hash. intros (? & ? & ?).
  unfold unhash_ks. rewrite !exec_hdel_ne; naive_solver.
Qed.

Lemma session_key_free ks d sid s :
  well_kinded ks → text ks (session_key sid) = Some s →
  (session_key sid ∉ index_of d) ∧ (session_key sid ∉ forward_hashes).
Proof.
  intros Hwf Ht. destruct (text_not_hash _ _ _ Hwf Ht) as [Hh _].
  rewrite elem_of_index_of, not_forward_hash.
  split; [intros [|[|]]; discriminate|].
  repeat split; intros E; rewrite E in Hh; by apply Hh.
Qed.

Lemma live_inj ks sid d d' : json_sound → live ks sid d → live ks sid d' → d = d'.
Proof.
  unfold live. intros Hj H1 H2. rewrite H1 in H2. injection H2 as H2.
  destruct (Hj d) as [Hd _], (Hj d') as [Hd' _]. congruence.
Qed.

End Composite.

(** * Properties of the session module *)

(** ** Token issuer *)

Lemma createTokens_run `{T : Transport} `{R : Runtime} ctx sid w protocol :
  outages w = [] → URL_protocol (PUBLIC_API_URL ctx) = Some protocol →
  createTokens ctx sid w
  = (inr tt, with_res_cookies (res_cookies w ++ token_cookies ctx sid protocol)
               (with_redis (issue_ks ctx sid (redis w)) w)).
Proof.
  intros Ho Hu. unfold createTokens. rewrite Hu.
  erewrite io_bind_ok by reflexivity.
  step set_ex_ok.
  unfold mbind, io_mbind, io_bind, setCookie, token_cookies; simpl.
  by rewrite <- app_assoc.
Qed.

(** C9. [createTokens] signs an access credential of 86400 s and a refresh
    credential of 5184000 s for the session identifier, stores the refresh
    credential under [refreshToken:{sessionId}] with a TTL of 5184000 s, and
    sets the [refreshToken] cookie (path [/session], maxAge 5184000) and the
    [accessToken] cookie (path [/], maxAge 86400), both httpOnly, sameSite
    and signed, and secure exactly when the protocol of the public URL is
    [https:]. *)
Theorem createTokens_issues `{T : Transport} `{R : Runtime} ctx sid w protocol :
  outages w = [] →
  URL_protocol (PUBLIC_API_URL ctx) = Some protocol →
  let access := jwtSign sid 86400 (now ctx) in
  let refresh := jwtSign sid 5184000 (now ctx) in
  let options p age :=
    {| httpOnly := true; sameSite := true; signed := true;
       secure := bool_decide (protocol = "https:");
       domain := COOKIE_DOMAIN ctx; path := p; maxAge := age |} in
  ∃ w', createTokens ctx sid w = (inr tt, w')
    ∧ redis w'
      = <["refreshToken:" +:+ sid := Entry (VString refresh) (Some 5184000)]> (redis w)
    ∧ res_cookies w'
      = (res_cookies w ++ [ SetCookie "refreshToken" refresh (options "/session" 5184000);
                            SetCookie "accessToken" access (options "/" 86400) ])%list
    ∧ socket w' = socket w ∧ log w' = log w.
Proof.
  intros Ho Hu access refresh options.
  eexists. split; [by apply createTokens_run|]. done.
Qed.

(** The tokens of session [s1], issued at clock 1000 under an https URL. *)
Lemma createTokens_issues_witness :
  let ctx := Example.request None 1000 "s1" (Example.db_with "w1" Example.role_r1) "acct1" in
  outages Example.empty_world = []
  ∧ URL_protocol (PUBLIC_API_URL ctx) = Some "https:"
  ∧ ∃ w', createTokens ctx "s1" Example.empty_world = (inr tt, w')
      ∧ redis w' = <["refreshToken:s1" :=
                       Entry (VString (jwtSign "s1" 5184000 1000)) (Some 5184000)]> ∅
      ∧ res_cookies w'
        = [ SetCookie "refreshToken" (jwtSign "s1" 5184000 1000)
              {| httpOnly := true; sameSite := true; signed := true; secure := true;
                 domain := "vrite.io"; path := "/session"; maxAge := 5184000 |};
            SetCookie "accessToken" (jwtSign "s1" 86400 1000)
              {| httpOnly := true; sameSite := true; signed := true; secure := true;
                 domain := "vrite.io"; path := "/"; maxAge := 86400 |} ].
Proof.
  intros ctx. split; [reflexivity|]. split; [reflexivity|].
  destruct (createTokens_issues ctx "s1" Example.empty_world "https:")
    as (w' & Hrun & Hredis & Hcookies & _); [reflexivity | reflexivity |].
  exists w'. split; [exact Hrun|]. split; [exact Hredis | exact Hcookies].
Defined.

(** ** Operations on a session without primary record *)

Lemma get_absent w k :
  outages w = [] → redis w !! k = None → call (Redis.get k) w = (inr None, w).
Proof.
  intros Ho Hk. apply call_read; [done|]. unfold Redis.get. by rewrite Hk.
Qed.

Lemma with_redis_same w : with_redis (redis w) w = w.
Proof. by destruct w. Qed.

(** C3, as the code has it.  When [session:{id}] is absent and no round trip
    fails, [updateSession] changes nothing and resolves; [refreshSession]
    resolves too but has deleted [refreshToken:{id}] before it looked at the
    record, and leaves every other key, the cookies and the log as they
    were; with no such key to delete it changes nothing either. *)
Theorem absent_session_noop `{T : Transport} `{R : Runtime} ctx sid uid w :
  outages w = [] →
  redis w !! session_key sid = None →
  updateSession ctx sid uid w = (inr tt, w)
  ∧ refreshSession ctx sid w
    = (inr tt, with_redis (delete (refresh_key sid) (redis w)) w)
  ∧ (redis w !! refresh_key sid = None → refreshSession ctx sid w = (inr tt, w)).
Proof.
  intros Ho Habs.
  assert (refreshSession ctx sid w
          = (inr tt, with_redis (delete (refresh_key sid) (redis w)) w)) as Href.
  { unfold refreshSession.
    erewrite io_bind_ok by (by apply get_absent).
    step del_ok. done. }
  split; [|split; [done|]].
  - unfold updateSession.
    erewrite io_bind_ok by (by apply get_absent). done.
  - intros Hno. rewrite Href. by rewrite delete_id, with_redis_same.
Qed.

(** In the empty store neither call changes anything. *)
Lemma absent_session_noop_witness :
  let ctx := Example.request None 1000 "s1" (Example.db_with "w1" Example.role_r1) "acct1" in
  let w := Example.empty_world in
  outages w = [] ∧ redis w !! session_key "s1" = None
  ∧ updateSession ctx "s1" "acct1" w = (inr tt, w)
  ∧ refreshSession ctx "s1" w = (inr tt, w).
Proof.
  intros ctx w. split; [reflexivity|]. split; [reflexivity|].
  destruct (absent_session_noop ctx "s1" "acct1" w) as (Hu & _ & Hr);
    [reflexivity | reflexivity |].
  split; [exact Hu | apply Hr; reflexivity].
Defined.

(** C3 as stated fails for [refreshSession]: with no record [session:s1]
    but a stored refresh credential, the call resolves and the credential
    is gone. *)
Lemma refresh_absent_session_mutates :
  let ctx := Example.request None 1000 "x" (Example.db_with "w1" Example.role_r1) "acct1" in
  let w := with_redis {[ refresh_key "s1" := Entry (VString "token") (Some sixty_days) ]}
             Example.empty_world in
  redis w !! session_key "s1" = None
  ∧ redis w !! refresh_key "s1" = Some (Entry (VString "token") (Some sixty_days))
  ∧ (refreshSession (T := Demo.transport) (R := Demo.runtime) ctx "s1" w).1 = inr tt
  ∧ redis (refreshSession (T := Demo.transport) (R := Demo.runtime) ctx "s1" w).2
      !! refresh_key "s1" = None.
Proof. vm_compute. done. Qed.

(** ** Session loader *)

(** Closes one combination of lookup outcomes. *)
Ltac loader_case :=
  repeat match goal with
         | |- _ ∧ _ => split
         | |- _ ∨ _ => fail 1
         | |- ∀ _, _ => intro
         | H : ∃ _, _ |- _ => destruct H
         | H : _ ∧ _ |- _ => destruct H
         end;
  simplify_eq; try done; try congruence;
  repeat match goal with
         | H1 : ?x = _, H2 : ?x = _ |- _ => rewrite H1 in H2; simplify_eq
         end;
  repeat match goal with
         | H : ?x = _ |- context [match ?x with _ => _ end] => rewrite H
         end;
  try done;
  try (exfalso;
       match goal with H : ∀ _, ¬ _ |- _ => eapply H; eauto 10 end).

(** C6. [loadSessionData] resolves for every outcome of the lookups and
    touches neither the store nor the cookies.  Its [workspaceId] is the
    identifier of the workspace when the settings, the membership and the
    workspace all resolved, and the empty string otherwise; [roleId] and
    [permissions] are those of the role when one was found, and the empty
    string and the empty list otherwise.  A lookup that rejects, and missing
    settings, are logged and not thrown; a missing membership, workspace or
    role is no error and logs nothing. *)
Theorem loadSessionData_best_effort `{T : Transport} `{R : Runtime} ctx uid w :
  ∃ d w', loadSessionData ctx uid w = (inr d, w')
    ∧ redis w' = redis w ∧ outages w' = outages w
    ∧ res_cookies w' = res_cookies w ∧ socket w' = socket w
    ∧ userId d = uid
    ∧ (∀ ws, resolves_workspace (db ctx) uid ws → workspaceId d = ws_id ws)
    ∧ ((∀ ws, ¬ resolves_workspace (db ctx) uid ws) → workspaceId d = "")
    ∧ (∀ r, resolves_role (db ctx) uid r →
         roleId d = r_id r ∧ permissions d = r_permissions r)
    ∧ ((∀ r, ¬ resolves_role (db ctx) uid r) → roleId d = "" ∧ permissions d = [])
    ∧ (userSettings_findOne (db ctx) uid = Threw →
         log w' = (log w ++ [LookupFailed "userSettings"])%list)
    ∧ (userSettings_findOne (db ctx) uid = Res None →
         log w' = (log w ++ [NotFound "userSettings"])%list)
    ∧ (∀ us, userSettings_findOne (db ctx) uid = Res (Some us) →
         (workspaceMemberships_findOne (db ctx) uid (currentWorkspaceId us) = Threw →
            log w' = (log w ++ [LookupFailed "workspaceMemberships"])%list)
         ∧ (∀ m, workspaceMemberships_findOne (db ctx) uid (currentWorkspaceId us)
                 = Res m →
              (workspaces_findOne (db ctx) (currentWorkspaceId us) = Threw →
                 log w' = (log w ++ [LookupFailed "workspaces"])%list)
              ∧ (∀ ws, workspaces_findOne (db ctx) (currentWorkspaceId us) = Res ws →
                   match m with
                   | None => log w' = log w
                   | Some mm =>
                       match roles_findOne (db ctx) (m_roleId mm) with
                       | Threw => log w' = (log w ++ [LookupFailed "roles"])%list
                       | Res _ => log w' = log w
                       end
                   end))).
Proof.
  unfold loadSessionData, resolves_workspace, resolves_role, load_try.
  eexists _, _. split; [reflexivity|].
  destruct (userSettings_findOne (db ctx) uid) as [|[us|]] eqn:Eus; simpl;
    [loader_case | | loader_case].
  destruct (workspaceMemberships_findOne (db ctx) uid (currentWorkspaceId us))
    as [|[m|]] eqn:Em; simpl.
  - loader_case.
  - destruct (workspaces_findOne (db ctx) (currentWorkspaceId us)) as [|[ws|]] eqn:Ews;
      simpl; [loader_case | |];
      destruct (roles_findOne (db ctx) (m_roleId m)) as [|[r|]] eqn:Er; simpl;
      loader_case.
  - destruct (workspaces_findOne (db ctx) (currentWorkspaceId us)) as [|[ws|]] eqn:Ews;
      simpl; loader_case.
Qed.

(** C6 as stated fails for a lookup that finds nothing: the account has
    selected a workspace of which it is no member.  The lookup of the
    membership resolves to null, which is not thrown: the record comes
    back with an empty [workspaceId] and nothing is logged. *)
Lemma missing_membership_not_logged :
  let ctx := Example.request None 1000 "x" SessionExample.db_non_member "acct1" in
  let result := loadSessionData ctx "acct1" Example.empty_world in
  workspaceMemberships_findOne (db ctx) "acct1" "w1" = Res None
  ∧ roles_findOne (db ctx) "" = Res None
  ∧ (∃ d, result.1 = inr d ∧ workspaceId d = "" ∧ roleId d = "" ∧ permissions d = [])
  ∧ log result.2 = [].
Proof.
  intros ctx result. repeat split. by eexists.
Qed.

(** ** Resolving a credential *)

(** C4, as the code has it.  [getSessionId] never rejects and never writes
    to the store.  It returns an identifier only if the socket already
    carries it, in which case neither the cookie nor the store is looked
    at, or if the cookie of the requested kind is present, unsigns to a
    credential that verifies for this identifier and, for the refresh kind,
    [refreshToken:{sessionId}] exists in the store at the call and the
    round trip did not fail. *)
Theorem getSessionId_fails_closed `{T : Transport} `{R : Runtime} ctx tokenType w :
  ∃ r w', getSessionId ctx tokenType w = (inr r, w')
    ∧ redis w' = redis w
    ∧ ∀ sid, r = Some sid →
        cached_id w = Some sid
        ∨ (cached_id w = None
           ∧ (∃ token, presents ctx tokenType token sid)
           ∧ (tokenType = RefreshToken →
                is_Some (redis w !! refresh_key sid) ∧ head (outages w) ≠ Some true)).
Proof.
  unfold getSessionId, cached_id, presents.
  destruct (truthy (socket w ≫= sessionId)) as [cached|] eqn:Ec.
  { eexists _, _. split; [done|]. split; [done|]. intros sid [= <-]. by left. }
  unfold try_catch, resolve_cookie.
  destruct (truthy (parseCookie (default "" (req_cookie ctx)) !! cookie_name tokenType))
    as [c|] eqn:Hc; [|by eexists _, _].
  destruct (truthy (unsignCookie c)) as [token|] eqn:Ht; [|by eexists _, _].
  unfold jwt_verify.
  destruct (jwtVerify (now ctx) token) as [sid|] eqn:Hv; [|by eexists _, _].
  erewrite io_bind_ok by reflexivity.
  destruct tokenType.
  - unfold mbind, io_mbind, io_bind, remember_on_socket.
    destruct (socket w); simpl; eexists _, _; (split; [done|]); (split; [done|]);
      intros ? [= <-]; right; naive_solver.
  - unfold mbind, io_mbind, io_bind, call, Redis.exists_, remember_on_socket.
    destruct (outages w) as [|[] o] eqn:Ho; simpl.
    2: by eexists _, _.
    all: destruct (redis w !! refresh_key sid) eqn:Hk; simpl.
    2,4: by eexists _, _.
    all: destruct (socket w); simpl; eexists _, _; (split; [done|]); (split; [done|]);
      intros ? [= <-]; right; naive_solver.
Qed.

(** C4 as stated fails: on a connection whose socket cached the identifier
    when the access cookie was resolved, [getSessionId] for the refresh
    kind returns it after [deleteSession] removed [refreshToken:s1], and for
    a request that carries no cookie at all. *)
Lemma cached_socket_skips_revocation :
  let ctx_access :=
    Example.request (Some ("accessToken=s:" +:+ jwtSign "s1" one_day 1000)) 1500 "x"
      (Example.db_with "w1" Example.role_r1) "acct1" in
  let ctx_bare := Example.request None 1600 "x"
      (Example.db_with "w1" Example.role_r1) "acct1" in
  let w1 := Example.after (getSessionId ctx_access AccessToken) Example.world_connected in
  let w2 := Example.after (deleteSession ctx_access "s1") w1 in
  (getSessionId ctx_access AccessToken Example.world_connected).1 = inr (Some "s1")
  ∧ redis w2 !! refresh_key "s1" = None
  ∧ (getSessionId ctx_bare RefreshToken w2).1 = inr (Some "s1").
Proof. vm_compute. done. Qed.

(** ** Deleting a session *)

Section Delete.
Context `{T : Transport} `{R : Runtime}.

Lemma deleteSession_live ctx sid d w :
  json_sound → outages w = [] → well_kinded (redis w) → live (redis w) sid d →
  deleteSession ctx sid w
  = (inr tt,
     with_res_cookies (res_cookies w ++ cleared_cookies ctx)
       (with_redis
          (exec (Redis.del (refresh_key sid))
             (unhash_ks sid (detach_ks sid d (exec (Redis.del (session_key sid)) (redis w)))))
          w)).
Proof.
  intros Hj Ho Hwf Hl. unfold deleteSession. io_unfold.
  run_read get_text; [|exact Hl].
  rewrite (truthy_stringify d Hj), (parse_stringify d Hj). io_unfold.
  run del_ok. run srem_ok. run srem_ok. run srem_ok.
  run hdel_ok. run hdel_ok. run hdel_ok. run del_ok.
  unfold clearCookie, cleared_cookies; simpl. by rewrite <- app_assoc.
Qed.

Lemma deleteSession_absent ctx sid w :
  outages w = [] → well_kinded (redis w) → redis w !! session_key sid = None →
  deleteSession ctx sid w
  = (inr tt,
     with_res_cookies (res_cookies w ++ cleared_cookies ctx)
       (with_redis (exec (Redis.del (refresh_key sid)) (unhash_ks sid (redis w))) w)).
Proof.
  intros Ho Hwf Ha. unfold deleteSession. io_unfold.
  rewrite (get_absent w _ Ho Ha). cbn beta iota. rewrite truthy_None.
  run hdel_ok. run hdel_ok. run hdel_ok. run del_ok.
  unfold clearCookie, cleared_cookies; simpl. by rewrite <- app_assoc.
Qed.

End Delete.




(** ** Create, update, refresh and switch, step by step *)

Section Lifecycle.
Context `{T : Transport} `{R : Runtime}.

Lemma after_load_redis ctx uid w : redis (after_load ctx uid w) = redis w.
Proof. unfold after_load, loadSessionData; simpl. by destruct (thrown _). Qed.

Lemma after_load_outages ctx uid w : outages (after_load ctx uid w) = outages w.
Proof. unfold after_load, loadSessionData; simpl. by destruct (thrown _). Qed.

Lemma after_load_cookies ctx uid w : res_cookies (after_load ctx uid w) = res_cookies w.
Proof. unfold after_load, loadSessionData; simpl. by destruct (thrown _). Qed.

Lemma loadSessionData_run ctx uid w :
  loadSessionData ctx uid w = (inr (loaded ctx uid), after_load ctx uid w).
Proof. done. Qed.

Lemma updateSession_live ctx sid uid d0 w :
  json_sound → outages w = [] → well_kinded (redis w) → valid_id sid →
  live (redis w) sid d0 →
  updateSession ctx sid uid w
  = (inr tt, with_redis (attach_ks sid (loaded ctx uid) (redis w)) (after_load ctx uid w)).
Proof.
  intros Hj Ho Hwf Hv Hl. unfold updateSession.
  erewrite io_bind_ok by (apply call_read; [done | by apply get_text]).
  rewrite (truthy_stringify d0 Hj).
  erewrite io_bind_ok by apply loadSessionData_run.
  rewrite setSession_run;
    rewrite ?after_load_redis, ?after_load_outages; done.
Qed.

Lemma updateSession_absent ctx sid uid w :
  outages w = [] → redis w !! session_key sid = None →
  updateSession ctx sid uid w = (inr tt, w).
Proof.
  intros Ho Ha. unfold updateSession.
  erewrite io_bind_ok by (by apply get_absent). done.
Qed.

Lemma createSession_run ctx uid w protocol :
  outages w = [] → well_kinded (redis w) → valid_id (nanoid ctx) →
  URL_protocol (PUBLIC_API_URL ctx) = Some protocol →
  createSession ctx uid w
  = (inr tt,
     with_res_cookies (res_cookies w ++ token_cookies ctx (nanoid ctx) protocol)
       (with_redis
          (issue_ks ctx (nanoid ctx) (attach_ks (nanoid ctx) (loaded ctx uid) (redis w)))
          (after_load ctx uid w))).
Proof.
  intros Ho Hwf Hv Hu. unfold createSession.
  erewrite io_bind_ok by apply loadSessionData_run.
  erewrite io_bind_ok
    by (apply setSession_run; rewrite ?after_load_redis, ?after_load_outages; done).
  erewrite createTokens_run; [|by rewrite <- (after_load_outages ctx uid w) in Ho|done].
  cbn [redis res_cookies with_redis with_res_cookies].
  by rewrite after_load_cookies, after_load_redis.
Qed.

Lemma refreshSession_live ctx sid d w protocol :
  json_sound → outages w = [] → live (redis w) sid d →
  URL_protocol (PUBLIC_API_URL ctx) = Some protocol →
  refreshSession ctx sid w
  = (inr tt,
     with_res_cookies (res_cookies w ++ token_cookies ctx sid protocol)
       (with_redis
          (issue_ks ctx sid
             (exec (Redis.expire (session_key sid) sixty_days)
                (exec (Redis.del (refresh_key sid)) (redis w))))
          w)).
Proof.
  intros Hj Ho Hl Hu. unfold refreshSession.
  erewrite io_bind_ok by (apply call_read; [done | by apply get_text]).
  rewrite (truthy_stringify d Hj).
  step del_ok. step expire_ok.
  by erewrite createTokens_run.
Qed.

Lemma getSessionId_access ctx sid w :
  authenticated ctx w sid →
  ∃ w', getSessionId ctx AccessToken w = (inr (Some sid), w')
    ∧ redis w' = redis w ∧ outages w' = outages w
    ∧ res_cookies w' = res_cookies w ∧ log w' = log w
    ∧ (cached_id w' = None ∨ cached_id w' = Some sid).
Proof.
  unfold authenticated, getSessionId, cached_id, presents.
  intros [Hc|(Hc & token & c & Hck & Hun & Hv)]; rewrite Hc.
  { eexists. repeat split; try done. by right. }
  unfold try_catch, resolve_cookie. rewrite Hck, Hun. unfold jwt_verify. rewrite Hv.
  io_unfold. unfold remember_on_socket.
  destruct (socket w) eqn:Es; eexists; (repeat split; [done..|]); simpl.
  - case_decide; [by left | by right].
  - rewrite Es. by left.
Qed.

Lemma after_load_cached ctx uid w : cached_id (after_load ctx uid w) = cached_id w.
Proof. unfold cached_id, after_load, loadSessionData; simpl. by destruct (thrown _). Qed.

Lemma switch_detach_live sid d w :
  json_sound → outages w = [] → well_kinded (redis w) → live (redis w) sid d →
  switch_detach sid w
  = (inr tt, with_redis (unhash_ks sid (detach_ks sid d (redis w))) w).
Proof.
  intros Hj Ho Hwf Hl. unfold switch_detach. io_unfold.
  run_read get_text; [|exact Hl].
  rewrite (truthy_stringify d Hj), (parse_stringify d Hj). io_unfold.
  run srem_ok. run srem_ok. run srem_ok.
  run hdel_ok. run hdel_ok. run hdel_ok. done.
Qed.

Lemma switch_detach_absent sid w :
  outages w = [] → well_kinded (redis w) → redis w !! session_key sid = None →
  switch_detach sid w = (inr tt, with_redis (unhash_ks sid (redis w)) w).
Proof.
  intros Ho Hwf Ha. unfold switch_detach. io_unfold.
  rewrite (get_absent w _ Ho Ha). cbn beta iota. rewrite truthy_None.
  run hdel_ok. run hdel_ok. run hdel_ok. done.
Qed.

End Lifecycle.

(** ** Switching the workspace *)

Lemma loaded_selects `{T : Transport} `{R : Runtime} ctx uid ws :
  selects (db ctx) uid ws → workspaceId (loaded ctx uid) = ws.
Proof.
  intros (us & m & wsr & Hus & <- & Hm & Hws & Hid).
  unfold loaded, load_try. rewrite Hus, Hm, Hws.
  by destruct (roles_findOne (db ctx) (m_roleId m)) as [|[]].
Qed.

Lemma loaded_unresolved `{T : Transport} `{R : Runtime} ctx uid :
  (∀ ws, ¬ resolves_workspace (db ctx) uid ws) → workspaceId (loaded ctx uid) = "".
Proof.
  intros Hno. unfold loaded, load_try.
  destruct (userSettings_findOne (db ctx) uid) as [|[us|]] eqn:Hus; [done| |done].
  destruct (workspaceMemberships_findOne (db ctx) uid (currentWorkspaceId us))
    as [|[m|]] eqn:Hm; [done| |].
  - destruct (workspaces_findOne (db ctx) (currentWorkspaceId us)) as [|[ws|]] eqn:Hws;
      [done| |].
    + destruct (Hno ws). by exists us, m.
    + by destruct (roles_findOne (db ctx) (m_roleId m)) as [|[]].
  - by destruct (workspaces_findOne (db ctx) (currentWorkspaceId us)) as [|[ws|]].
Qed.

Lemma truthy_valid sid : valid_id sid → truthy (Some sid) = Some sid.
Proof. intros [Hne _]. simpl. by case_decide. Qed.

(** C7. For an authenticated request whose session record exists or is
    absent, and with no failing round trip, [switchWorkspaceSession]
    resolves the identifier, runs the detach block and then
    [updateSession].  Before the reload the forward hashes have no entry
    for the identifier, whether the record exists or not, and when it
    exists the identifier has left the three reverse sets it names.  When
    the record names workspace [w1] and the settings of the account now
    select another workspace [w2] of which it is a member and whose record
    exists, the identifier ends outside [workspace:w1:sessions], inside
    [workspace:w2:sessions], and the record is rewritten with [workspaceId]
    equal to [w2].  When the lookups resolve no workspace for the account
    (the settings, the membership or the record of the workspace is missing
    or its lookup rejects), the record is rewritten with an empty
    [workspaceId], the identifier enters [workspace::sessions], and it
    enters the set of no workspace with a name. *)
Theorem switchWorkspace_moves `{T : Transport} `{R : Runtime} ctx sid w :
  json_sound → outages w = [] → well_kinded (redis w) → valid_id sid →
  authenticated ctx w sid →
  (redis w !! session_key sid = None ∨ ∃ d, live (redis w) sid d) →
  ∃ wr wmid w',
    getSessionId ctx AccessToken w = (inr (Some sid), wr)
    ∧ switch_detach sid wr = (inr tt, wmid)
    ∧ updateSession ctx sid (auth_userId ctx) wmid = (inr tt, w')
    ∧ switchWorkspaceSession ctx w = (inr tt, w')
    ∧ unhashed (redis wmid) sid
    ∧ (∀ d0, live (redis w) sid d0 →
         ∀ k, k ∈ index_of d0 → sid ∉ members (redis wmid) k)
    ∧ (∀ d0 w1 w2,
         live (redis w) sid d0 → workspaceId d0 = w1 →
         selects (db ctx) (auth_userId ctx) w2 → w1 ≠ w2 →
         (sid ∉ members (redis w') ("workspace:" +:+ w1 +:+ ":sessions"))
         ∧ sid ∈ members (redis w') ("workspace:" +:+ w2 +:+ ":sessions")
         ∧ ∃ d', live (redis w') sid d' ∧ workspaceId d' = w2)
    ∧ (∀ d0,
         live (redis w) sid d0 →
         (∀ ws, ¬ resolves_workspace (db ctx) (auth_userId ctx) ws) →
         (∃ d', live (redis w') sid d' ∧ workspaceId d' = "")
         ∧ sid ∈ members (redis w') "workspace::sessions"
         ∧ ∀ w2, w2 ≠ "" →
             sid ∈ members (redis w') ("workspace:" +:+ w2 +:+ ":sessions") →
             sid ∈ members (redis w) ("workspace:" +:+ w2 +:+ ":sessions")
             ∧ w2 ≠ workspaceId d0).
Proof.
  intros Hj Ho Hwf Hv Hauth Hrec.
  destruct (getSessionId_access ctx sid w Hauth) as (wr & Hget & Hr & Hor & _ & _ & _).
  rewrite <- Hr in Hwf, Hrec. rewrite <- Hor in Ho.
  assert (∀ wmid w', switch_detach sid wr = (inr tt, wmid) →
            updateSession ctx sid (auth_userId ctx) wmid = (inr tt, w') →
            switchWorkspaceSession ctx w = (inr tt, w')) as Hwhole.
  { intros wmid w' Hd Hu. unfold switchWorkspaceSession.
    erewrite io_bind_ok by exact Hget. rewrite (truthy_valid sid Hv).
    by erewrite io_bind_ok by exact Hd. }
  destruct Hrec as [Ha|[d Hl]].
  - exists wr, (with_redis (unhash_ks sid (redis wr)) wr),
      (with_redis (unhash_ks sid (redis wr)) wr).
    assert (switch_detach sid wr
            = (inr tt, with_redis (unhash_ks sid (redis wr)) wr)) as Hd
      by by apply switch_detach_absent.
    assert (updateSession ctx sid (auth_userId ctx)
              (with_redis (unhash_ks sid (redis wr)) wr)
            = (inr tt, with_redis (unhash_ks sid (redis wr)) wr)) as Hu.
    { apply updateSession_absent; [done|]. by apply lookup_unhash_none. }
    split; [done|]. split; [done|]. split; [done|]. split; [by eapply Hwhole|].
    split; [apply unhashed_unhash|].
    rewrite <- Hr.
    split; [|split].
    + intros d0 Hl. unfold live, text in Hl. by rewrite Ha in Hl.
    + intros d0 w1 w2 Hl. unfold live, text in Hl. by rewrite Ha in Hl.
    + intros d0 Hl. unfold live, text in Hl. by rewrite Ha in Hl.
  - set (ks1 := unhash_ks sid (detach_ks sid d (redis wr))).
    set (uid := auth_userId ctx).
    assert (switch_detach sid wr = (inr tt, with_redis ks1 wr)) as Hd
      by by apply switch_detach_live.
    assert (well_kinded ks1) as Hwf1
      by by apply unhash_ks_kinded, detach_ks_kinded.
    assert (live ks1 sid d) as Hl1.
    { unfold live, ks1. by rewrite text_unhash, text_detach. }
    assert (updateSession ctx sid uid (with_redis ks1 wr)
            = (inr tt, with_redis (attach_ks sid (loaded ctx uid) ks1)
                         (after_load ctx uid (with_redis ks1 wr)))) as Hu
      by by eapply updateSession_live.
    eexists wr, _, _.
    split; [done|]. split; [exact Hd|]. split; [exact Hu|].
    split; [by eapply Hwhole|].
    cbn [redis with_redis].
    split; [apply unhashed_unhash|].
    rewrite <- Hr.
    split; [|split].
    + intros d0 Hl0 k Hk. rewrite (live_inj _ _ _ _ Hj Hl0 Hl) in Hk.
      unfold ks1. rewrite members_unhash, members_detach, decide_True by done.
      set_solver.
    + intros d0 w1 w2 Hl0 Hw1 Hsel Hne.
      rewrite (live_inj _ _ _ _ Hj Hl0 Hl) in Hw1.
      pose proof (loaded_selects ctx uid w2 Hsel) as Hw2.
      change ("workspace:" +:+ w1 +:+ ":sessions") with (workspace_key w1).
      change ("workspace:" +:+ w2 +:+ ":sessions") with (workspace_key w2).
      rewrite !members_attach by done.
      split; [|split].
      * rewrite decide_False.
        2:{ rewrite elem_of_index_of, Hw2. intros [E|[E|E]]; try discriminate E.
            by apply workspace_key_inj in E. }
        unfold ks1. rewrite members_unhash, members_detach, decide_True; [set_solver|].
        rewrite elem_of_index_of, Hw1. auto.
      * rewrite decide_True; [set_solver|].
        rewrite elem_of_index_of, Hw2. auto.
      * exists (loaded ctx uid). split; [|done].
        unfold live. by rewrite text_attach, decide_True.
    + intros d0 Hl0 Hno.
      rewrite (live_inj _ _ _ _ Hj Hl0 Hl).
      pose proof (loaded_unresolved ctx uid Hno) as Hw2.
      split; [|split].
      * exists (loaded ctx uid). split; [|done].
        unfold live. by rewrite text_attach, decide_True.
      * change "workspace::sessions" with (workspace_key "").
        rewrite members_attach by done. rewrite decide_True; [set_solver|].
        rewrite elem_of_index_of, Hw2. auto.
      * intros w2 Hne.
        change ("workspace:" +:+ w2 +:+ ":sessions") with (workspace_key w2).
        rewrite members_attach by done. rewrite decide_False.
        2:{ rewrite elem_of_index_of, Hw2. intros [E|[E|E]]; try discriminate E.
            by apply workspace_key_inj in E. }
        unfold ks1. rewrite members_unhash, members_detach.
        case_decide as Hk; [set_solver|]. intros Hin. split; [done|].
        intros ->. apply Hk. rewrite elem_of_index_of. auto.
Qed.

(** The example session moves from workspace [w1] to workspace [w2]. *)
Lemma switchWorkspace_moves_witness :
  let w := Example.world_created in
  let ctx := Example.ctx_switch in
  json_sound ∧ outages w = [] ∧ well_kinded (redis w) ∧ valid_id "s1"
  ∧ authenticated ctx w "s1"
  ∧ live (redis w) "s1" (loaded Example.ctx_create "acct1")
  ∧ selects (db ctx) (auth_userId ctx) "w2"
  ∧ ∃ w', switchWorkspaceSession ctx w = (inr tt, w')
      ∧ ("s1" ∉ members (redis w') "workspace:w1:sessions")
      ∧ "s1" ∈ members (redis w') "workspace:w2:sessions"
      ∧ ∃ d', live (redis w') "s1" d' ∧ workspaceId d' = "w2".
Proof.
  intros w ctx.
  assert (json_sound) as Hj by exact demo_json_sound.
  assert (outages w = []) as Ho by reflexivity.
  assert (well_kinded (redis w)) as Hwf by exact world_created_kinded.
  assert (authenticated ctx w "s1") as Hauth.
  { right. split; [reflexivity|].
    exists (jwtSign "s1" one_day 1000), ("s:" +:+ jwtSign "s1" one_day 1000).
    repeat split; vm_compute; reflexivity. }
  assert (live (redis w) "s1" (loaded Example.ctx_create "acct1")) as Hl
    by exact world_created_live.
  assert (selects (db ctx) (auth_userId ctx) "w2") as Hsel.
  { exists {| currentWorkspaceId := "w2" |}, {| m_roleId := "r1" |},
      (Example.workspace_of "w2").
    repeat split. }
  split; [exact Hj|]. split; [exact Ho|]. split; [exact Hwf|].
  split; [exact valid_id_s1|]. split; [exact Hauth|]. split; [exact Hl|].
  split; [exact Hsel|].
  destruct (switchWorkspace_moves ctx "s1" w Hj Ho Hwf valid_id_s1 Hauth
              (or_intror (ex_intro _ _ Hl)))
    as (wr & wmid & w' & _ & _ & _ & Hrun & _ & _ & Hmove & _).
  exists w'. split; [exact Hrun|].
  apply (Hmove _ "w1" "w2" Hl); [reflexivity | exact Hsel | discriminate].
Defined.

(** C7 as stated fails: the settings of the account select workspace
    [w2], of which the account is no member.  The session leaves
    [workspace:w1:sessions] and does not enter [workspace:w2:sessions]: its
    record is rewritten with an empty [workspaceId] and the identifier is
    added to [workspace::sessions]. *)
Lemma switch_without_membership :
  let ctx := SessionExample.ctx_switch_non_member in
  let w' := Example.after (switchWorkspaceSession ctx) Example.world_created in
  userSettings_findOne (db ctx) "acct1" = Res (Some {| currentWorkspaceId := "w2" |})
  ∧ workspaceMemberships_findOne (db ctx) "acct1" "w2" = Res None
  ∧ "s1" ∈ members (redis Example.world_created) "workspace:w1:sessions"
  ∧ (switchWorkspaceSession ctx Example.world_created).1 = inr tt
  ∧ ("s1" ∉ members (redis w') "workspace:w1:sessions")
  ∧ ("s1" ∉ members (redis w') "workspace:w2:sessions")
  ∧ "s1" ∈ members (redis w') "workspace::sessions"
  ∧ (text (redis w') "session:s1" ≫= JSON_parse) = Some (loaded ctx "acct1")
  ∧ workspaceId (loaded ctx "acct1") = "".
Proof.
  intros ctx w'.
  split; [reflexivity|]. split; [reflexivity|]. split; [by_compute|].
  split; [vm_compute; reflexivity|]. split; [by_compute|]. split; [by_compute|].
  split; [by_compute|]. split; [vm_compute; reflexivity|]. reflexivity.
Qed.

(** ** Refreshing and replaying a refresh credential *)

Section Refresh.
Context `{T : Transport} `{R : Runtime}.

Lemma getSessionId_refresh ctx token sid w :
  cached_id w = None → outages w = [] →
  presents ctx RefreshToken token sid →
  ∃ w', getSessionId ctx RefreshToken w
        = (inr (if redis w !! refresh_key sid is Some _ then Some sid else None), w').
Proof.
  unfold getSessionId, cached_id, presents.
  intros Hc Ho (c & Hck & Hun & Hv). rewrite Hc.
  unfold try_catch, resolve_cookie. rewrite Hck, Hun. unfold jwt_verify. rewrite Hv.
  io_unfold. unfold call, Redis.exists_, remember_on_socket. rewrite Ho.
  destruct (redis w !! refresh_key sid); simpl; [|by eexists].
  destruct (socket w); by eexists.
Qed.

Lemma live_issue ctx sid d ks x :
  live ks sid d → live (issue_ks ctx x ks) sid d.
Proof.
  unfold live, issue_ks. intros Hl. rewrite text_set_ex.
  by rewrite decide_False by discriminate.
Qed.

Lemma live_refreshed ctx sid d ks :
  live ks sid d →
  live (issue_ks ctx sid
          (exec (Redis.expire (session_key sid) sixty_days)
             (exec (Redis.del (refresh_key sid)) ks))) sid d.
Proof.
  intros Hl. apply live_issue. unfold live.
  rewrite text_expire, text_del. by rewrite decide_False by discriminate.
Qed.

Lemma lookup_issue ctx sid ks :
  issue_ks ctx sid ks !! refresh_key sid
  = Some (Entry (VString (jwtSign sid sixty_days (now ctx))) (Some sixty_days)).
Proof. unfold issue_ks, exec; simpl. by rewrite lookup_insert_eq. Qed.

Lemma text_issue ctx sid ks :
  text (issue_ks ctx sid ks) (refresh_key sid) = Some (jwtSign sid sixty_days (now ctx)).
Proof. unfold text. by rewrite lookup_issue. Qed.

End Refresh.

(** Names the world on the right of a run equation. *)
Ltac name_world H w :=
  match type of H with _ = (_, ?x) => set (w := x) in * end.

Lemma getSessionId_refresh_run `{T : Transport} `{R : Runtime} ctx token sid w :
  cached_id w = None → outages w = [] →
  presents ctx RefreshToken token sid →
  ∃ w', getSessionId ctx RefreshToken w
        = (inr (if redis w !! refresh_key sid is Some _ then Some sid else None), w')
    ∧ redis w' = redis w ∧ outages w' = [].
Proof.
  unfold getSessionId, cached_id, presents.
  intros Hc Ho (c & Hck & Hun & Hv). rewrite Hc.
  unfold try_catch, resolve_cookie. rewrite Hck, Hun. unfold jwt_verify. rewrite Hv.
  io_unfold. unfold call, Redis.exists_, remember_on_socket. rewrite Ho.
  destruct (redis w !! refresh_key sid); simpl; [|by eexists].
  destruct (socket w); by eexists.
Qed.

(** C2, as the code has it.  A session is created and refreshed twice,
    no round trip failing, each request less than sixty days after the one
    before, on connections without a cached identifier.  After the second
    refresh the store holds the credential of the second refresh under
    [refreshToken:{id}], and a request that presents the credential of the
    first refresh, still verifying at its clock, resolves to the session
    identifier: the resolution asks for the existence of the key, not for
    its value.  Once [deleteSession] has then removed the key, the same
    request resolves to absent on every connection whose socket has cached
    no identifier. *)
Theorem refresh_replay_resolves `{T : Transport} `{R : Runtime}
    ctx0 uid ctx1 ctx2 ctx3 w p0 p1 p2 :
  let sid := nanoid ctx0 in
  json_sound → outages w = [] → well_kinded (redis w) → valid_id sid →
  cached_id w = None →
  0 ≤ now ctx1 - now ctx0 < sixty_days →
  0 ≤ now ctx2 - now ctx1 < sixty_days →
  0 ≤ now ctx3 - now ctx2 < sixty_days →
  URL_protocol (PUBLIC_API_URL ctx0) = Some p0 →
  URL_protocol (PUBLIC_API_URL ctx1) = Some p1 →
  URL_protocol (PUBLIC_API_URL ctx2) = Some p2 →
  presents ctx3 RefreshToken (jwtSign sid sixty_days (now ctx1)) sid →
  ∃ w1 w2 w3 w4 w5,
    createSession ctx0 uid w = (inr tt, w1)
    ∧ refreshSession ctx1 sid (later (now ctx1 - now ctx0) w1) = (inr tt, w2)
    ∧ text (redis w2) ("refreshToken:" +:+ sid) = Some (jwtSign sid sixty_days (now ctx1))
    ∧ refreshSession ctx2 sid (later (now ctx2 - now ctx1) w2) = (inr tt, w3)
    ∧ text (redis w3) ("refreshToken:" +:+ sid) = Some (jwtSign sid sixty_days (now ctx2))
    ∧ getSessionId ctx3 RefreshToken (later (now ctx3 - now ctx2) w3)
      = (inr (Some sid), w4)
    ∧ deleteSession ctx3 sid w4 = (inr tt, w5)
    ∧ redis w5 !! ("refreshToken:" +:+ sid) = None
    ∧ ∀ s, cached_id (with_socket s w5) = None →
        ∃ w6, getSessionId ctx3 RefreshToken (with_socket s w5) = (inr None, w6).
Proof.
  intros sid Hj Ho Hwf Hv Hc Hg1 Hg2 Hg3 Hu0 Hu1 Hu2 Hp.
  change ("refreshToken:" +:+ sid) with (refresh_key sid).
  set (d := loaded ctx0 uid).
  pose proof (createSession_run ctx0 uid w p0 Ho Hwf Hv Hu0) as H1.
  fold sid d in H1. name_world H1 w1.
  assert (outages w1 = [] ∧ cached_id w1 = None) as [Ho1 Hc1].
  { unfold cached_id, w1; simpl. rewrite after_load_outages.
    unfold after_load, loadSessionData; simpl. by destruct (thrown _). }
  assert (well_kinded (redis w1)) as Hwf1.
  { apply issue_ks_kinded. by apply attach_ks_kinded. }
  assert (redis w1 !! session_key sid
          = Some (Entry (VString (JSON_stringify d)) (Some sixty_days))) as Hr1.
  { unfold w1. cbn [redis with_redis with_res_cookies].
    rewrite lookup_issue_ne by discriminate. by apply lookup_attach_record. }
  (* the first refresh *)
  set (w1l := later (now ctx1 - now ctx0) w1).
  assert (live (redis w1l) sid d) as Hl1 by (apply live_later; [done|lia]).
  assert (well_kinded (redis w1l)) as Hwf1l by by apply well_kinded_elapse.
  pose proof (refreshSession_live ctx1 sid d w1l p1 Hj Ho1 Hl1 Hu1) as H2.
  name_world H2 w2.
  assert (well_kinded (redis w2)) as Hwf2.
  { by apply issue_ks_kinded, well_kinded_expire, well_kinded_del. }
  assert (redis w2 !! session_key sid
          = Some (Entry (VString (JSON_stringify d)) (Some sixty_days))) as Hr2
    by by apply lookup_refreshed_record.
  (* the second refresh *)
  set (w2l := later (now ctx2 - now ctx1) w2).
  assert (live (redis w2l) sid d) as Hl2 by (apply live_later; [done|lia]).
  assert (well_kinded (redis w2l)) as Hwf2l by by apply well_kinded_elapse.
  pose proof (refreshSession_live ctx2 sid d w2l p2 Hj Ho1 Hl2 Hu2) as H3.
  name_world H3 w3.
  assert (well_kinded (redis w3)) as Hwf3.
  { by apply issue_ks_kinded, well_kinded_expire, well_kinded_del. }
  assert (redis w3 !! session_key sid
          = Some (Entry (VString (JSON_stringify d)) (Some sixty_days))) as Hr3
    by by apply lookup_refreshed_record.
  (* the replay *)
  set (w3l := later (now ctx3 - now ctx2) w3).
  assert (live (redis w3l) sid d) as Hl3 by (apply live_later; [done|lia]).
  assert (well_kinded (redis w3l)) as Hwf3l by by apply well_kinded_elapse.
  assert (is_Some (redis w3l !! refresh_key sid)) as [e He].
  { eexists. apply lookup_elapse_alive; [apply lookup_issue|lia]. }
  destruct (getSessionId_refresh_run ctx3 _ sid w3l Hc1 Ho1 Hp) as (w4 & H4 & Hr4 & Ho4).
  rewrite He in H4.
  (* the deletion, then the replay again *)
  rewrite <- Hr4 in Hl3, Hwf3l.
  pose proof (deleteSession_live ctx3 sid d w4 Hj Ho4 Hwf3l Hl3) as H5.
  name_world H5 w5.
  assert (redis w5 !! refresh_key sid = None) as Hr5 by apply exec_del_eq.
  exists w1, w2, w3, w4, w5.
  split; [exact H1|]. split; [exact H2|].
  split; [exact (text_issue ctx1 sid _)|].
  split; [exact H3|].
  split; [exact (text_issue ctx2 sid _)|].
  split; [exact H4|]. split; [exact H5|]. split; [exact Hr5|].
  intros s Hs.
  destruct (getSessionId_refresh ctx3 _ sid (with_socket s w5) Hs Ho4 Hp) as (w6 & H6).
  cbn [redis with_socket] in H6. fold w5 in H6. rewrite Hr5 in H6. by exists w6.
Qed.

(** The example session, refreshed at clocks 2000 and 3000. *)
Lemma refresh_replay_resolves_witness :
  let first := jwtSign "s1" sixty_days 2000 in
  json_sound ∧ outages Example.empty_world = []
  ∧ well_kinded (redis Example.empty_world) ∧ valid_id "s1"
  ∧ cached_id Example.empty_world = None
  ∧ 0 ≤ 2000 - 1000 < sixty_days ∧ 0 ≤ 3000 - 2000 < sixty_days
  ∧ 0 ≤ 4000 - 3000 < sixty_days
  ∧ presents Example.ctx_replay RefreshToken first "s1"
  ∧ ∃ w1 w2 w3 w4 w5,
      createSession Example.ctx_create "acct1" Example.empty_world = (inr tt, w1)
      ∧ refreshSession Example.ctx_refresh1 "s1" (later 1000 w1) = (inr tt, w2)
      ∧ refreshSession Example.ctx_refresh2 "s1" (later 1000 w2) = (inr tt, w3)
      ∧ getSessionId Example.ctx_replay RefreshToken (later 1000 w3)
        = (inr (Some "s1"), w4)
      ∧ deleteSession Example.ctx_replay "s1" w4 = (inr tt, w5)
      ∧ redis w5 !! "refreshToken:s1" = None.
Proof.
  intros first.
  assert (presents Example.ctx_replay RefreshToken first "s1") as Hp.
  { exists ("s:" +:+ first). repeat split; vm_compute; reflexivity. }
  assert (0 ≤ 1000 < sixty_days) as Hg by (by vm_compute).
  split; [exact demo_json_sound|]. split; [reflexivity|].
  split; [exact well_kinded_empty|]. split; [exact valid_id_s1|].
  split; [reflexivity|]. split; [exact Hg|]. split; [exact Hg|]. split; [exact Hg|].
  split; [exact Hp|].
  destruct (refresh_replay_resolves Example.ctx_create "acct1" Example.ctx_refresh1
              Example.ctx_refresh2 Example.ctx_replay Example.empty_world
              "https:" "https:" "https:"
              demo_json_sound eq_refl well_kinded_empty valid_id_s1 eq_refl
              Hg Hg Hg eq_refl eq_refl eq_refl Hp)
    as (w1 & w2 & w3 & w4 & w5 & H1 & H2 & _ & H3 & _ & H4 & H5 & H6 & _).
  exists w1, w2, w3, w4, w5. auto 10.
Defined.

(** C2 as stated fails: the session created at clock 1000 is refreshed
    at clocks 2000 and 3000.  The credential issued by the first refresh
    resolves before the second refresh and resolves again after it, at
    clock 4000, although the store then holds the credential of the second
    refresh. *)
Lemma first_refresh_credential_replays :
  let first := jwtSign "s1" sixty_days 2000 in
  let second := jwtSign "s1" sixty_days 3000 in
  let w1 := Example.after (refreshSession Example.ctx_refresh1 "s1")
              (later 1000 Example.world_created) in
  let w2 := Example.after (refreshSession Example.ctx_refresh2 "s1") (later 1000 w1) in
  req_cookie Example.ctx_replay = Some ("refreshToken=s:" +:+ first)
  ∧ (getSessionId Example.ctx_refresh2 RefreshToken (later 1000 w1)).1
    = inr (Some "s1")
  ∧ first ≠ second
  ∧ text (redis w2) "refreshToken:s1" = Some second
  ∧ (getSessionId Example.ctx_replay RefreshToken (later 1000 w2)).1
    = inr (Some "s1").
Proof. vm_compute. repeat split; done. Qed.

(** ** Fan-out over the sessions of a role *)

Section FanOut.
Context `{T : Transport} `{R : Runtime}.
Implicit Types (ks : gmap string entry).

Lemma updateSessionRole_unfold ctx rid :
  updateSessionRole ctx rid
  = (sessionIds ← call (Redis.smembers (role_key rid));
     for_each sessionIds (member_update ctx)).
Proof. done. Qed.

Lemma updateSession_run ctx sid uid w :
  outages w = [] → well_kinded (redis w) → valid_id sid →
  ∃ w', updateSession ctx sid uid w = (inr tt, w')
    ∧ redis w'
      = match truthy (text (redis w) (session_key sid)) with
        | Some _ => attach_ks sid (loaded ctx uid) (redis w)
        | None => redis w
        end
    ∧ outages w' = [] ∧ res_cookies w' = res_cookies w ∧ socket w' = socket w.
Proof.
  intros Ho Hwf Hv. unfold updateSession.
  erewrite io_bind_ok
    by (apply call_read; [done | apply get_ok; [done | by apply key_kind_session]]).
  destruct (truthy (text (redis w) (session_key sid))); [|by eexists].
  erewrite io_bind_ok by apply loadSessionData_run.
  rewrite setSession_run; rewrite ?after_load_redis, ?after_load_outages; try done.
  eexists. split; [done|]. cbn [redis outages res_cookies socket with_redis].
  rewrite after_load_outages, after_load_cookies.
  repeat split; try done.
  unfold after_load, loadSessionData; simpl. by destruct (thrown _).
Qed.

Lemma member_update_run ctx sid w :
  outages w = [] → well_kinded (redis w) → valid_id sid →
  ∃ w', member_update ctx sid w = (inr tt, w')
    ∧ redis w' = member_ks ctx sid (redis w)
    ∧ outages w' = [] ∧ res_cookies w' = res_cookies w ∧ socket w' = socket w.
Proof.
  intros Ho Hwf Hv. unfold member_update, member_ks.
  erewrite io_bind_ok by (apply call_read; [done | by apply hget_ok]).
  destruct (truthy (field (redis w) "session:user" sid)) as [u|].
  - destruct (updateSession_run ctx sid u w Ho Hwf Hv) as (w' & Hrun & Hks & ?).
    exists w'. split; [done|]. split; [|done].
    rewrite Hks. by destruct (truthy (text _ _)).
  - by exists w.
Qed.

Lemma member_ks_kinded ctx sid ks :
  well_kinded ks → valid_id sid → well_kinded (member_ks ctx sid ks).
Proof.
  intros Hwf Hv. unfold member_ks.
  destruct (truthy (field _ _ _)); [|done].
  destruct (truthy (text _ _)); [|done]. by apply attach_ks_kinded.
Qed.

Lemma fan_out_loop ctx l w :
  outages w = [] → well_kinded (redis w) → Forall valid_id l →
  ∃ w', for_each l (member_update ctx) w = (inr tt, w')
    ∧ redis w' = fan_ks ctx l (redis w)
    ∧ outages w' = [] ∧ res_cookies w' = res_cookies w ∧ socket w' = socket w.
Proof.
  revert w. induction l as [|sid l IH]; intros w Ho Hwf Hl.
  { by exists w. }
  apply Forall_cons in Hl as [Hv Hl].
  destruct (member_update_run ctx sid w Ho Hwf Hv) as (w1 & H1 & Hks1 & Ho1 & Hc1 & Hs1).
  destruct (IH w1) as (w' & H' & Hks' & Ho' & Hc' & Hs'); [done| |done|].
  { rewrite Hks1. by apply member_ks_kinded. }
  exists w'. split.
  - simpl. by erewrite io_bind_ok by exact H1.
  - simpl. rewrite Hks', Hks1, Hc', Hc1, Hs', Hs1. done.
Qed.

(** One member changes its own record and forward entries only. *)
Lemma member_ks_other ctx x ks sid :
  well_kinded ks → valid_id x → sid ≠ x →
  text (member_ks ctx x ks) (session_key sid) = text ks (session_key sid)
  ∧ field (member_ks ctx x ks) "session:user" sid = field ks "session:user" sid.
Proof.
  intros Hwf Hv Hne. unfold member_ks.
  destruct (truthy (field ks "session:user" x)); [|done].
  destruct (truthy (text ks (session_key x))); [|done].
  rewrite text_attach, field_attach_ne by done.
  rewrite decide_False; [done|]. intros E. by apply session_key_inj in E.
Qed.

Lemma fan_ks_other ctx l ks sid :
  well_kinded ks → Forall valid_id l → sid ∉ l →
  text (fan_ks ctx l ks) (session_key sid) = text ks (session_key sid)
  ∧ field (fan_ks ctx l ks) "session:user" sid = field ks "session:user" sid.
Proof.
  revert ks. induction l as [|x l IH]; intros ks Hwf Hl Hni; [done|].
  apply Forall_cons in Hl as [Hv Hl].
  apply not_elem_of_cons in Hni as [Hne Hni].
  simpl. destruct (IH (member_ks ctx x ks)) as [-> ->];
    [by apply member_ks_kinded | done | done |].
  by apply member_ks_other.
Qed.

Lemma fan_ks_member ctx l ks sid :
  well_kinded ks → Forall valid_id l → NoDup l → sid ∈ l →
  text (fan_ks ctx l ks) (session_key sid)
  = match truthy (field ks "session:user" sid), truthy (text ks (session_key sid)) with
    | Some u, Some _ => Some (JSON_stringify (loaded ctx u))
    | _, _ => text ks (session_key sid)
    end.
Proof.
  revert ks. induction l as [|x l IH]; intros ks Hwf Hl Hnd Hin.
  { by apply elem_of_nil in Hin. }
  apply Forall_cons in Hl as [Hv Hl].
  apply NoDup_cons in Hnd as [Hx Hnd].
  simpl. destruct (decide (sid = x)) as [->|Hne].
  - destruct (fan_ks_other ctx l (member_ks ctx x ks) x) as [-> _];
      [by apply member_ks_kinded | done | done |].
    unfold member_ks.
    destruct (truthy (field ks "session:user" x)); [|done].
    destruct (truthy (text ks (session_key x))) eqn:E; [|done].
    by rewrite text_attach, decide_True.
  - apply elem_of_cons in Hin as [?|Hin]; [done|].
    rewrite IH by (try apply member_ks_kinded; done).
    by destruct (member_ks_other ctx x ks sid Hwf Hv Hne) as [-> ->].
Qed.

End FanOut.

Lemma for_each_abort {A} (body : A → Io unit) l1 x l2 w w1 w2 e :
  for_each l1 body w = (inr tt, w1) → body x w1 = (inl e, w2) →
  for_each (l1 ++ x :: l2) body w = (inl e, w2).
Proof.
  revert w. induction l1 as [|y l1 IH]; intros w H1 Hx; simpl in *.
  - injection H1 as <-. by erewrite io_bind_err.
  - unfold mbind, io_mbind, io_bind in *.
    destruct (body y w) as [[e'|[]] w']; [done|]. by apply IH.
Qed.

Lemma loaded_role `{T : Transport} `{R : Runtime} ctx uid r :
  resolves_role (db ctx) uid r →
  roleId (loaded ctx uid) = r_id r ∧ permissions (loaded ctx uid) = r_permissions r.
Proof.
  intros (us & m & ws & Hus & Hm & Hws & Hr).
  unfold loaded, load_try. by rewrite Hus, Hm, Hws, Hr.
Qed.

(** Whichever lookup rejects, the loader has no role. *)
Lemma loaded_thrown `{T : Transport} `{R : Runtime} ctx uid :
  is_Some (thrown (load_try (db ctx) uid)) →
  roleId (loaded ctx uid) = "" ∧ permissions (loaded ctx uid) = [].
Proof.
  unfold loaded, load_try.
  destruct (userSettings_findOne (db ctx) uid) as [|[us|]]; [done| |done].
  destruct (workspaceMemberships_findOne (db ctx) uid (currentWorkspaceId us))
    as [|m]; [done|].
  destruct (workspaces_findOne (db ctx) (currentWorkspaceId us)) as [|ws]; [done|].
  destruct m as [m|]; [|by intros [? ?]].
  destruct (roles_findOne (db ctx) (m_roleId m)) as [|r]; [done|]. by intros [? ?].
Qed.


(** ** The fan-out under a fault schedule *)

(** One awaited command that the schedule lets through. *)
Ltac up lem :=
  erewrite io_bind_ok;
  [| eapply call_up;
     [ cbn [outages with_redis with_outages]; first [eassumption | reflexivity]
     | apply lem; cbn [redis with_redis with_outages]; auto 10 with kinded ]];
  cbn beta iota.

(** The command at which the schedule fails. *)
Ltac down :=
  first
    [ erewrite io_bind_err;
      [| eapply call_down; cbn [outages with_redis with_outages];
         first [eassumption | reflexivity]]
    | erewrite call_down;
      [| cbn [outages with_redis with_outages]; first [eassumption | reflexivity]] ].

Section Schedule.
Context `{T : Transport} `{R : Runtime}.
Implicit Types (ks : gmap string entry).

Lemma setSession_up sid d w rest :
  well_kinded (redis w) → valid_id sid →
  outages w = (replicate 7 false ++ rest)%list →
  setSession sid d w
  = (inr tt, with_redis (attach_ks sid d (redis w)) (with_outages rest w)).
Proof.
  intros Hwf Hv Ho. destruct (session_key_slot sid Hv). simpl in Ho.
  unfold setSession, attach_ks.
  up set_ex_ok. up sadd_ok. up sadd_ok. up sadd_ok. up hset_ok. up hset_ok.
  erewrite call_up;
    [| cbn [outages with_redis with_outages]; reflexivity
     | apply hset_ok; cbn [redis with_redis with_outages]; auto 10 with kinded ].
  reflexivity.
Qed.

Lemma setSession_down sid d w k o :
  well_kinded (redis w) → valid_id sid →
  outages w = (replicate k false ++ true :: o)%list → (k < 7)%nat →
  ∃ w', setSession sid d w = (inl StoreUnavailable, w') ∧ outages w' = o.
Proof.
  intros Hwf Hv Ho Hk. destruct (session_key_slot sid Hv).
  unfold setSession.
  do 7 (destruct k as [|k]; [simpl in Ho;
    repeat first [up set_ex_ok | up sadd_ok | up hset_ok]; down;
    eexists; split; reflexivity|]).
  lia.
Qed.

Lemma updateSession_up ctx sid uid w rest :
  well_kinded (redis w) → valid_id sid →
  outages w
  = (replicate (if truthy (text (redis w) (session_key sid)) is Some _ then 8 else 1)
       false ++ rest)%list →
  ∃ w', updateSession ctx sid uid w = (inr tt, w')
    ∧ redis w'
      = match truthy (text (redis w) (session_key sid)) with
        | Some _ => attach_ks sid (loaded ctx uid) (redis w)
        | None => redis w
        end
    ∧ outages w' = rest.
Proof.
  intros Hwf Hv Ho. unfold updateSession.
  destruct (truthy (text (redis w) (session_key sid))) as [s|] eqn:Ht; simpl in Ho.
  - erewrite io_bind_ok
      by (eapply call_up; [exact Ho | apply get_ok; [done | by apply key_kind_session]]).
    rewrite Ht. erewrite io_bind_ok by apply loadSessionData_run.
    erewrite setSession_up;
      [| by rewrite after_load_redis | done
       | rewrite after_load_outages; cbn [outages with_redis with_outages];
         reflexivity].
    eexists. split; [reflexivity|]. by rewrite after_load_redis.
  - erewrite io_bind_ok
      by (eapply call_up; [exact Ho | apply get_ok; [done | by apply key_kind_session]]).
    rewrite Ht. by eexists.
Qed.

Lemma updateSession_down ctx sid uid w k o :
  well_kinded (redis w) → valid_id sid →
  outages w = (replicate k false ++ true :: o)%list →
  (k < if truthy (text (redis w) (session_key sid)) is Some _ then 8 else 1)%nat →
  ∃ w', updateSession ctx sid uid w = (inl StoreUnavailable, w') ∧ outages w' = o.
Proof.
  intros Hwf Hv Ho Hk. unfold updateSession.
  destruct k as [|k]; simpl in Ho.
  { down. by eexists. }
  destruct (truthy (text (redis w) (session_key sid))) as [s|] eqn:Ht; [|lia].
  erewrite io_bind_ok
    by (eapply call_up; [exact Ho | apply get_ok; [done | by apply key_kind_session]]).
  rewrite Ht. erewrite io_bind_ok by apply loadSessionData_run.
  apply (setSession_down sid (loaded ctx uid) _ k o); [|done| |lia].
  - by rewrite after_load_redis.
  - by rewrite after_load_outages.
Qed.

Lemma member_update_up ctx sid w rest :
  well_kinded (redis w) → valid_id sid →
  outages w = (replicate (trips_of (redis w) sid) false ++ rest)%list →
  ∃ w', member_update ctx sid w = (inr tt, w')
    ∧ redis w' = member_ks ctx sid (redis w)
    ∧ outages w' = rest.
Proof.
  intros Hwf Hv Ho. unfold member_update, member_ks, trips_of in *.
  destruct (truthy (field (redis w) "session:user" sid)) as [u|] eqn:Hu.
  - assert (∃ n, outages w = false :: replicate n false ++ rest
                 ∧ n = if truthy (text (redis w) (session_key sid)) is Some _
                       then 8%nat else 1%nat) as (n & Ho' & Hn).
    { destruct (truthy (text (redis w) (session_key sid))); simpl in Ho;
        [exists 8%nat | exists 1%nat]; (split; [exact Ho|done]). }
    erewrite io_bind_ok by (eapply call_up; [exact Ho' | by apply hget_ok]).
    rewrite Hu.
    destruct (updateSession_up ctx sid u
                (with_redis (redis w) (with_outages (replicate n false ++ rest) w)) rest)
      as (w' & Hrun & Hks & Ho''); [done|done|by rewrite Hn|].
    exists w'. split; [exact Hrun|]. split; [|done].
    rewrite Hks. cbn [redis with_redis]. by destruct (truthy (text _ _)).
  - simpl in Ho.
    erewrite io_bind_ok by (eapply call_up; [exact Ho | by apply hget_ok]).
    rewrite Hu. by eexists.
Qed.

Lemma member_update_down ctx sid w k o :
  well_kinded (redis w) → valid_id sid →
  outages w = (replicate k false ++ true :: o)%list →
  (k < trips_of (redis w) sid)%nat →
  ∃ w', member_update ctx sid w = (inl StoreUnavailable, w') ∧ outages w' = o.
Proof.
  intros Hwf Hv Ho Hk. unfold member_update, trips_of in *.
  destruct k as [|k]; simpl in Ho.
  { down. by eexists. }
  destruct (truthy (field (redis w) "session:user" sid)) as [u|] eqn:Hu; [|lia].
  erewrite io_bind_ok by (eapply call_up; [exact Ho | by apply hget_ok]).
  rewrite Hu.
  apply (updateSession_down ctx sid u _ k o); [done|done|done|].
  cbn [redis with_redis]. destruct (truthy (text _ _)); lia.
Qed.

(** What one turn leaves of the records of the other sessions, whatever
    its outcome. *)
Lemma keeps_text_ret {A} k (a : A) : keeps_text k (mret a : Io A).
Proof. by intros w. Qed.

Lemma keeps_text_bind {A B} k (m : Io A) (f : A → Io B) :
  keeps_text k m → (∀ a, keeps_text k (f a)) → keeps_text k (m ≫= f).
Proof.
  intros Hm Hf w. io_unfold. specialize (Hm w).
  destruct (m w) as [[e|a] w1]; [done|]. simpl in Hm. by rewrite Hf.
Qed.

Lemma keeps_text_call {A} k (c : gmap string entry → Redis.reply A) :
  (∀ ks, text (exec c ks) k = text ks k) → keeps_text k (call c).
Proof.
  intros Hc w. unfold call. specialize (Hc (redis w)). unfold exec in Hc.
  destruct (outages w) as [|[] o]; try done;
    by destruct (c (redis w)) as [|[]].
Qed.

Lemma keeps_text_load k ctx uid : keeps_text k (loadSessionData ctx uid).
Proof. intros w. unfold loadSessionData; simpl. by destruct (thrown _). Qed.

Lemma keeps_text_member ctx sid sid' :
  sid' ≠ sid → keeps_text (session_key sid') (member_update ctx sid).
Proof.
  intros Hne. unfold member_update, updateSession, setSession.
  assert (session_key sid ≠ session_key sid') as Hk by by intros ?%session_key_inj.
  repeat first
    [ apply keeps_text_ret | apply keeps_text_load
    | apply keeps_text_bind; [|intros ?]
    | match goal with |- keeps_text _ (match truthy ?x with _ => _ end) =>
        destruct (truthy x) end
    | apply keeps_text_call; intros ks;
      first [ by rewrite text_set_ex, decide_False | apply text_sadd | apply text_hset
            | by unfold exec, Redis.get; destruct (ks !! _) as [[[] ?]|]
            | by unfold exec, Redis.hget; destruct (ks !! _) as [[[] ?]|] ] ].
Qed.

Lemma trips_of_other ctx x ks sid :
  well_kinded ks → valid_id x → sid ≠ x →
  trips_of (member_ks ctx x ks) sid = trips_of ks sid.
Proof.
  intros Hwf Hv Hne. unfold trips_of.
  by destruct (member_ks_other ctx x ks sid Hwf Hv Hne) as [-> ->].
Qed.

Lemma loop_up ctx l w rest :
  well_kinded (redis w) → Forall valid_id l → NoDup l →
  outages w = (replicate (sum_list (trips_of (redis w) <$> l)) false ++ rest)%list →
  ∃ w', for_each l (member_update ctx) w = (inr tt, w')
    ∧ redis w' = fan_ks ctx l (redis w)
    ∧ outages w' = rest.
Proof.
  revert w. induction l as [|sid l IH]; intros w Hwf Hl Hnd Ho.
  { by exists w. }
  apply Forall_cons in Hl as [Hv Hl]. apply NoDup_cons in Hnd as [Hsid Hnd].
  simpl in Ho. rewrite replicate_add, <- app_assoc in Ho.
  destruct (member_update_up ctx sid w _ Hwf Hv Ho) as (w1 & H1 & Hks1 & Ho1).
  assert (trips_of (redis w1) <$> l = trips_of (redis w) <$> l) as Hsame.
  { apply list_fmap_ext. intros i x Hx. rewrite Hks1. apply trips_of_other; [done..|].
    intros ->. apply Hsid. by eapply list_elem_of_lookup_2. }
  destruct (IH w1) as (w' & H' & Hks' & Ho'); [|done|done| |].
  { rewrite Hks1. by apply member_ks_kinded. }
  { by rewrite Hsame. }
  exists w'. split.
  - simpl. by erewrite io_bind_ok by exact H1.
  - simpl. by rewrite Hks', Hks1.
Qed.

End Schedule.

Section ScheduleLoop.
Context `{T : Transport} `{R : Runtime}.

Lemma fan_ks_kinded ctx l ks :
  well_kinded ks → Forall valid_id l → well_kinded (fan_ks ctx l ks).
Proof.
  revert ks. induction l as [|x l IH]; intros ks Hwf Hl; [done|].
  apply Forall_cons in Hl as [Hv Hl]. simpl. apply IH; [|done].
  by apply member_ks_kinded.
Qed.

Lemma trips_of_fan ctx l ks sid :
  well_kinded ks → Forall valid_id l → sid ∉ l →
  trips_of (fan_ks ctx l ks) sid = trips_of ks sid.
Proof.
  intros Hwf Hl Hni. unfold trips_of.
  by destruct (fan_ks_other ctx l ks sid Hwf Hl Hni) as [-> ->].
Qed.

End ScheduleLoop.

(** C8, as the code has it.  [updateSessionRole] reads
    [role:{roleId}:sessions] and runs the loop body on its members in turn.
    With no failing round trip it resolves: a member with an owner in
    [session:user] and a record ends up with the record the loader returns
    for that owner, which carries the permissions of the role the lookups
    resolve and no role and the empty list when a lookup rejects; a member
    without owner, and a session outside the set, keep their record.  A
    round trip that fails, whichever it is, rejects the fan-out: the
    [SMEMBERS] with the store as it was; the [HGET] or the [GET] of a
    member or one of the seven commands of its update with the members
    before it rewritten, the member itself possibly in part, and the
    members after it not processed. *)
Theorem updateSessionRole_fan_out `{T : Transport} `{R : Runtime} ctx rid :
  let set := "role:" +:+ rid +:+ ":sessions" in
  (∀ w,
     outages w = [] → well_kinded (redis w) →
     (∀ sid, sid ∈ members (redis w) set → valid_id sid) →
     ∃ w', updateSessionRole ctx rid w = (inr tt, w')
       ∧ (∀ sid u,
            sid ∈ members (redis w) set →
            truthy (field (redis w) "session:user" sid) = Some u →
            is_Some (truthy (text (redis w) (session_key sid))) →
            live (redis w') sid (loaded ctx u))
       ∧ (∀ sid,
            sid ∈ members (redis w) set →
            truthy (field (redis w) "session:user" sid) = None →
            text (redis w') (session_key sid) = text (redis w) (session_key sid))
       ∧ (∀ sid,
            sid ∉ members (redis w) set →
            text (redis w') (session_key sid) = text (redis w) (session_key sid)))
  ∧ (∀ u r, resolves_role (db ctx) u r →
       permissions (loaded ctx u) = r_permissions r)
  ∧ (∀ u, is_Some (thrown (load_try (db ctx) u)) →
       roleId (loaded ctx u) = "" ∧ permissions (loaded ctx u) = [])
  ∧ (∀ w o,
       outages w = true :: o →
       updateSessionRole ctx rid w = (inl StoreUnavailable, with_outages o w))
  ∧ (∀ w l1 x l2 j o,
       well_kinded (redis w) →
       (∀ sid, sid ∈ members (redis w) set → valid_id sid) →
       elements (members (redis w) set) = (l1 ++ x :: l2)%list →
       (j < trips_of (redis w) x)%nat →
       outages w
       = (replicate (1 + sum_list (trips_of (redis w) <$> l1) + j) false ++ true :: o)%list →
       ∃ w', updateSessionRole ctx rid w = (inl StoreUnavailable, w')
         ∧ outages w' = o
         ∧ (∀ sid u,
              sid ∈ l1 →
              truthy (field (redis w) "session:user" sid) = Some u →
              is_Some (truthy (text (redis w) (session_key sid))) →
              live (redis w') sid (loaded ctx u))
         ∧ (∀ sid,
              sid ∈ l2 →
              text (redis w') (session_key sid) = text (redis w) (session_key sid))).
Proof.
  intros set. change set with (role_key rid). clear set.
  split; [|split; [|split; [|split]]].
  - intros w Ho Hwf Hvalid.
    set (l := elements (members (redis w) (role_key rid))).
    assert (Forall valid_id l) as Hl.
    { apply Forall_forall. intros sid Hin. apply Hvalid. by apply elem_of_elements. }
    assert (NoDup l) as Hnd by apply NoDup_elements.
    destruct (fan_out_loop ctx l w Ho Hwf Hl) as (w' & Hrun & Hks & _).
    exists w'. split.
    { rewrite updateSessionRole_unfold.
      erewrite io_bind_ok by (apply call_read; [done | by apply smembers_ok]).
      exact Hrun. }
    rewrite Hks. split; [|split].
    + intros sid u Hin Hu [s Hs]. unfold live.
      rewrite (fan_ks_member ctx l) by (try done; by apply elem_of_elements in Hin).
      by rewrite Hu, Hs.
    + intros sid Hin Hu.
      rewrite (fan_ks_member ctx l) by (try done; by apply elem_of_elements in Hin).
      by rewrite Hu.
    + intros sid Hni.
      apply fan_ks_other; [done | done |]. unfold l. by rewrite elem_of_elements.
  - intros u r Hr. by apply loaded_role.
  - intros u Hu. by apply loaded_thrown.
  - intros w o Ho. rewrite updateSessionRole_unfold.
    by erewrite io_bind_err by (by apply call_down).
  - intros w l1 x l2 j o Hwf Hvalid El Hj Ho.
    assert (Forall valid_id (l1 ++ x :: l2)) as Hl.
    { apply Forall_forall. intros sid Hin. apply Hvalid.
      apply elem_of_elements. by rewrite El. }
    assert (NoDup (l1 ++ x :: l2)) as Hnd by (rewrite <- El; apply NoDup_elements).
    apply Forall_app in Hl as [Hl1 Hl2]. apply Forall_cons in Hl2 as [Hvx Hl2].
    apply NoDup_app in Hnd as (Hnd1 & Hdisj & Hnd2).
    apply NoDup_cons in Hnd2 as [Hx2 Hnd2].
    assert (x ∉ l1) as Hx1 by (intros Hin; apply (Hdisj x Hin); by left).
    rewrite <- Nat.add_assoc in Ho. simpl in Ho.
    rewrite replicate_add, <- app_assoc in Ho.
    set (w0 := with_redis (redis w)
                 (with_outages
                    (replicate (sum_list (trips_of (redis w) <$> l1)) false
                     ++ replicate j false ++ true :: o)%list w)).
    assert (call (Redis.smembers (role_key rid)) w = (inr (l1 ++ x :: l2)%list, w0)) as H0.
    { eapply call_up; [exact Ho|]. rewrite <- El. by apply smembers_ok. }
    destruct (loop_up ctx l1 w0 (replicate j false ++ true :: o)%list)
      as (w1 & H1 & Hks1 & Ho1); [done..|].
    cbn [redis with_redis w0] in Hks1.
    destruct (member_update_down ctx x w1 j o) as (w2 & H2 & Ho2); [|done|done| |].
    { rewrite Hks1. by apply fan_ks_kinded. }
    { rewrite Hks1. by rewrite trips_of_fan. }
    exists w2. split; [|split; [done|split]].
    + rewrite updateSessionRole_unfold. erewrite io_bind_ok by exact H0.
      by eapply for_each_abort.
    + intros sid u Hin Hu [s Hs].
      assert (sid ≠ x) as Hne by (by intros ->).
      pose proof (keeps_text_member ctx x sid Hne w1) as Hkeep.
      rewrite H2 in Hkeep. unfold live. cbn [snd] in Hkeep. rewrite Hkeep, Hks1.
      rewrite (fan_ks_member ctx l1) by done. by rewrite Hu, Hs.
    + intros sid Hin.
      assert (sid ≠ x) as Hne by (by intros ->).
      assert (sid ∉ l1) as Hni by (intros Hin1; apply (Hdisj sid Hin1); by right).
      pose proof (keeps_text_member ctx x sid Hne w1) as Hkeep.
      rewrite H2 in Hkeep. cbn [snd] in Hkeep. rewrite Hkeep, Hks1.
      by apply fan_ks_other.
Qed.

(** The three sessions of role [r1], updated after the role gained a
    permission; and the store failing at the twelfth round trip. *)
Lemma updateSessionRole_fan_out_witness :
  let w := Example.world_three in
  let ctx := Example.ctx_fan_out in
  outages w = [] ∧ well_kinded (redis w)
  ∧ (∀ sid, sid ∈ members (redis w) "role:r1:sessions" → valid_id sid)
  ∧ (∃ w', updateSessionRole ctx "r1" w = (inr tt, w')
      ∧ live (redis w') "s1" (loaded ctx "a1")
      ∧ live (redis w') "s2" (loaded ctx "a2")
      ∧ live (redis w') "s3" (loaded ctx "a3"))
  ∧ ∃ w', updateSessionRole ctx "r1" (with_outages (replicate 11 false ++ [true]) w)
          = (inl StoreUnavailable, w')
      ∧ live (redis w') "s3" (loaded ctx "a3")
      ∧ text (redis w') "session:s2" = text (redis w) "session:s2".
Proof.
  intros w ctx.
  assert (well_kinded (redis w)) as Hwf
    by (apply well_kinded_check; vm_compute; reflexivity).
  assert (∀ sid, sid ∈ members (redis w) "role:r1:sessions" → valid_id sid) as Hv.
  { intros sid Hin.
    assert (sid ∈ ["s3"; "s1"; "s2"]) as Hl
      by (apply elem_of_elements in Hin; exact Hin).
    repeat (apply elem_of_cons in Hl as [->|Hl]; [by repeat split|]).
    by apply elem_of_nil in Hl. }
  split; [reflexivity|]. split; [exact Hwf|]. split; [exact Hv|].
  destruct (updateSessionRole_fan_out ctx "r1") as (Hok & _ & _ & _ & Hfail).
  split.
  - destruct (Hok w eq_refl Hwf Hv) as (w' & Hrun & Hlive & _).
    exists w'. split; [exact Hrun|].
    repeat split; apply Hlive; try by_compute; try (vm_compute; reflexivity);
      by eexists.
  - destruct (Hfail (with_outages (replicate 11 false ++ [true]) w)
                ["s3"] "s1" ["s2"] 1%nat [] Hwf Hv)
      as (w' & Hrun & _ & Hdone & Hrest);
      [vm_compute; reflexivity | vm_compute; lia | vm_compute; reflexivity |].
    exists w'. split; [exact Hrun|]. split.
    + apply (Hdone "s3" "a3"); [by left | vm_compute; reflexivity |].
      vm_compute. by eexists.
    + apply (Hrest "s2"). by left.
Defined.

(** C8 as stated fails.  The role [r1] gains a permission while the
    lookups for account [a2] reject: the fan-out resolves, the sessions of
    [a1] and [a3] carry the new set and the session of [a2] the empty list.
    And with a store that fails at the eleventh round trip, after the first
    member (session [s3]) has been rewritten, the fan-out rejects and the
    two remaining members keep the old set. *)
Lemma fan_out_incomplete :
  let w := Example.world_three in
  let ctx := Example.ctx_fan_out in
  let w' := Example.after (updateSessionRole ctx "r1") w in
  let wo := with_outages (replicate 10 false ++ [true]) w in
  let wo' := Example.after (updateSessionRole ctx "r1") wo in
  elements (members (redis w) (role_key "r1")) = ["s3"; "s1"; "s2"]
  ∧ (updateSessionRole ctx "r1" w).1 = inr tt
  ∧ Example.permissions_of w' "s1" = Some ["read"; "write"]
  ∧ Example.permissions_of w' "s2" = Some []
  ∧ Example.permissions_of w' "s3" = Some ["read"; "write"]
  ∧ (updateSessionRole ctx "r1" wo).1 = inl StoreUnavailable
  ∧ Example.permissions_of wo' "s3" = Some ["read"; "write"]
  ∧ Example.permissions_of wo' "s1" = Some ["read"]
  ∧ Example.permissions_of wo' "s2" = Some ["read"].
Proof. vm_compute. repeat split; done. Qed.

(** * The git-sync handler *)


(** The piece moved from [docs/intro.md] to [docs/guides/intro.md]. *)
Example moved_record :
  GitSync.handleContentPieceUpdated GitSyncExample.dirs GitSyncExample.recs
    GitSyncExample.piece
  = inr {| GitSync.directories := GitSyncExample.dirs;
           GitSync.records :=
             [ {| GitSync.path := "docs/intro.md"; GitSync.contentPieceId := "p1";
                  GitSync.currentHash := ""; GitSync.syncedHash := "old" |};
               {| GitSync.path := "docs/guides/intro.md"; GitSync.contentPieceId := "p1";
                  GitSync.currentHash := "md5:# Title"; GitSync.syncedHash := "" |} ] |}.
Proof. reflexivity. Qed.


(** C10. Whatever the directories, the records and the content piece,
    [handleContentPieceUpdated] either returns an object whose
    [directories] is the list it was given, or rejects because the lookup
    of the contents or the output processor rejected, which happens only
    for a piece inside a synchronised content group. *)
Theorem handler_keeps_directories `{E : GitSync.Env} dirs recs piece :
  (∃ out, GitSync.handleContentPieceUpdated dirs recs piece = inr out
          ∧ GitSync.directories out = dirs)
  ∨ (GitSync.handleContentPieceUpdated dirs recs piece = inl GitSync.ContentsLookupFailed
     ∧ GitSync.contents_findOne (GitSync.cp_id piece) = Threw)
  ∨ (GitSync.handleContentPieceUpdated dirs recs piece = inl GitSync.ProcessorFailed
     ∧ ∃ doc buffer, GitSync.contents_findOne (GitSync.cp_id piece) = Res (Some doc)
         ∧ GitSync.content doc = Some buffer
         ∧ GitSync.process buffer piece = None).
Proof.
  unfold GitSync.handleContentPieceUpdated.
  destruct (find _ dirs) as [dir|].
  - destruct (GitSync.contents_findOne (GitSync.cp_id piece)) as [|[doc|]] eqn:Hc; simpl.
    + right; left. done.
    + destruct (GitSync.content doc) as [buffer|] eqn:Hb; [|left; by eexists].
      destruct (GitSync.process buffer piece) as [output|] eqn:Hp.
      * left. destruct (GitSync.find_index _ recs); by eexists.
      * right; right. split; [done|]. by exists doc, buffer.
    + left. by eexists.
  - left. destruct (GitSync.find_index _ recs); by eexists.
Qed.

(** ** Index consistency along a sequence of operations *)

Section Consistency.
Context `{T : Transport} `{R : Runtime}.

Lemma settled_authenticated sid ctx w :
  settled sid w → (∃ token, presents ctx AccessToken token sid) →
  authenticated ctx w sid.
Proof. intros (_ & _ & [Hc|Hc]) Hp; [right | left]; done. Qed.

Lemma indexed_create sid d ks :
  well_kinded ks → valid_id sid → (∀ k, sid ∉ members ks k) →
  indexed sid (Some d) ∅ (attach_ks sid d ks).
Proof.
  intros Hwf Hv Hfresh. split; [|split].
  - intros k. rewrite members_attach by done. simpl.
    specialize (Hfresh k). case_decide; set_solver.
  - unfold live. by rewrite text_attach, decide_True.
  - by apply forward_attach.
Qed.

Lemma indexed_update sid d stale d' ks :
  well_kinded ks → valid_id sid → indexed sid (Some d) stale ks →
  indexed sid (Some d') ((index_of d ∪ stale) ∖ index_of d') (attach_ks sid d' ks).
Proof.
  intros Hwf Hv [Hm _]. split; [|split].
  - intros k. rewrite members_attach by done. simpl in *.
    specialize (Hm k).
    set (A := index_of d) in *. set (C := index_of d') in *. clearbody A C.
    case_decide; set_solver.
  - unfold live. by rewrite text_attach, decide_True.
  - by apply forward_attach.
Qed.

Lemma indexed_switch sid d stale d' ks :
  well_kinded ks → valid_id sid → indexed sid (Some d) stale ks →
  indexed sid (Some d') ((stale ∖ index_of d) ∖ index_of d')
    (attach_ks sid d' (unhash_ks sid (detach_ks sid d ks))).
Proof.
  intros Hwf Hv [Hm _].
  assert (well_kinded (unhash_ks sid (detach_ks sid d ks))) as Hwf'
    by by apply unhash_ks_kinded, detach_ks_kinded.
  split; [|split].
  - intros k. rewrite members_attach, members_unhash, members_detach by done.
    simpl in *. specialize (Hm k).
    set (A := index_of d) in *. set (C := index_of d') in *. clearbody A C.
    repeat case_decide; set_solver.
  - unfold live. by rewrite text_attach, decide_True.
  - by apply forward_attach.
Qed.

Lemma indexed_delete sid d stale ks :
  well_kinded ks → valid_id sid → indexed sid (Some d) stale ks →
  indexed sid None (stale ∖ index_of d)
    (exec (Redis.del (refresh_key sid))
       (unhash_ks sid (detach_ks sid d (exec (Redis.del (session_key sid)) ks)))).
Proof.
  intros Hwf Hv [Hm [Hl _]].
  destruct (session_key_free _ d _ _ Hwf Hl) as [Hsi Hsh].
  split; [|split].
  - intros k. rewrite members_del, members_unhash, members_detach, members_del.
    simpl in *. specialize (Hm k).
    pose proof (members_string_slot ks _ Hwf (key_kind_session sid Hv)) as Hs.
    pose proof (members_string_slot ks _ Hwf (key_kind_refresh sid)) as Hr.
    set (A := index_of d) in *. clearbody A.
    repeat case_decide; subst; set_solver.
  - rewrite exec_del_ne by discriminate.
    rewrite lookup_unhash_ne, lookup_detach_ne by done. apply exec_del_eq.
  - unfold unhashed. rewrite !field_del.
    destruct (unhashed_unhash
                (detach_ks sid d (exec (Redis.del (session_key sid)) ks)) sid)
      as (? & ? & ?).
    repeat split; by case_decide.
Qed.

Lemma indexed_dead_unhash sid stale ks :
  indexed sid None stale ks → indexed sid None stale (unhash_ks sid ks).
Proof.
  intros [Hm [Ha _]]. split; [|split].
  - intros k. by rewrite members_unhash.
  - by apply lookup_unhash_none.
  - apply unhashed_unhash.
Qed.

Lemma indexed_dead_delete sid stale ks :
  well_kinded ks → indexed sid None stale ks →
  indexed sid None stale (exec (Redis.del (refresh_key sid)) (unhash_ks sid ks)).
Proof.
  intros Hwf [Hm [Ha _]]. split; [|split].
  - intros k. rewrite members_del, members_unhash. specialize (Hm k).
    pose proof (members_string_slot ks _ Hwf (key_kind_refresh sid)) as Hr.
    case_decide; subst; set_solver.
  - rewrite exec_del_ne by discriminate. by apply lookup_unhash_none.
  - unfold unhashed. rewrite !field_del.
    destruct (unhashed_unhash ks sid) as (? & ? & ?).
    repeat split; by case_decide.
Qed.

Lemma switchWorkspaceSession_run ctx sid w :
  json_sound → settled sid w → valid_id sid → authenticated ctx w sid →
  (redis w !! session_key sid = None ∨ ∃ d, live (redis w) sid d) →
  ∃ w', switchWorkspaceSession ctx w = (inr tt, w')
    ∧ settled sid w'
    ∧ (redis w !! session_key sid = None → redis w' = unhash_ks sid (redis w))
    ∧ (∀ d, live (redis w) sid d →
         redis w'
         = attach_ks sid (loaded ctx (auth_userId ctx))
             (unhash_ks sid (detach_ks sid d (redis w)))).
Proof.
  intros Hj (Ho & Hwf & _) Hv Hauth Hrec.
  destruct (getSessionId_access ctx sid w Hauth)
    as (wr & Hget & Hr & Hor & _ & _ & Hcr).
  rewrite <- Hr in *. rewrite <- Hor in Ho.
  unfold switchWorkspaceSession.
  erewrite io_bind_ok by exact Hget. rewrite (truthy_valid sid Hv).
  destruct Hrec as [Ha|[d Hl]].
  - erewrite io_bind_ok by by apply switch_detach_absent.
    rewrite updateSession_absent; [|done|by apply lookup_unhash_none].
    eexists. split; [done|]. split; [|split].
    + split; [done|]. split; [|done]. by apply unhash_ks_kinded.
    + done.
    + intros d Hl. unfold live, text in Hl. by rewrite Ha in Hl.
  - erewrite io_bind_ok by by apply switch_detach_live.
    assert (well_kinded (unhash_ks sid (detach_ks sid d (redis wr)))) as Hwf1
      by by apply unhash_ks_kinded, detach_ks_kinded.
    erewrite updateSession_live; [|done|done|done|done|].
    2:{ unfold live. cbn [redis with_redis]. rewrite text_unhash, text_detach. exact Hl. }
    eexists. split; [done|]. split; [|split].
    + split; [|split].
      * cbn [outages with_redis]. by rewrite after_load_outages.
      * cbn [redis with_redis]. by apply attach_ks_kinded.
      * unfold cached_id in *. cbn [socket with_redis].
        fold (cached_id (after_load ctx (auth_userId ctx)
                (with_redis (unhash_ks sid (detach_ks sid d (redis wr))) wr))).
        by rewrite after_load_cached.
    + intros Ha. unfold live, text in Hl. by rewrite Ha in Hl.
    + intros d0 Hl0. by rewrite (live_inj _ _ _ _ Hj Hl0 Hl).
Qed.

(** One request from a consistent state. *)
Lemma serve_step sid r m stale w :
  json_sound → valid_id sid → settled sid w → request_ok sid r →
  indexed sid m stale (redis w) → persistent (redis w) →
  ∃ w', serve sid r w = (inr tt, w')
    ∧ settled sid w'
    ∧ indexed sid (next_record m r) (next_stale m stale r) (redis w')
    ∧ persistent (redis w')
    ∧ (is_Some (next_record m r) → full_ttl (redis w') sid).
Proof.
  intros Hj Hv Hs Hok Hi Hp.
  pose proof Hs as (Ho & Hwf & Hc).
  destruct r as [ctx uid|ctx|ctx]; destruct m as [d|]; simpl.
  - pose proof Hi as (_ & Hl & _).
    rewrite (updateSession_live ctx sid uid d w Hj Ho Hwf Hv Hl).
    eexists. split; [done|]. split; [|split; [|split]].
    + split; [|split].
      * cbn [outages with_redis]. by rewrite after_load_outages.
      * by apply attach_ks_kinded.
      * unfold cached_id in *. cbn [socket with_redis].
        fold (cached_id (after_load ctx uid w)). by rewrite after_load_cached.
    + by apply indexed_update.
    + by apply persistent_attach.
    + intros _. by apply attach_ks_full_ttl.
  - pose proof Hi as (_ & Ha & _).
    rewrite (updateSession_absent ctx sid uid w Ho Ha).
    eexists. split; [done|]. split; [done|]. split; [done|]. split; [done|].
    by intros [? ?].
  - pose proof Hi as (_ & Hl & _).
    destruct (switchWorkspaceSession_run ctx sid w Hj Hs Hv)
      as (w' & Hrun & Hs' & _ & Hks);
      [by apply settled_authenticated | by right; eexists |].
    exists w'. split; [done|]. split; [done|].
    rewrite (Hks d Hl). split; [by apply indexed_switch|]. split.
    + by apply persistent_attach, persistent_unhash, persistent_detach.
    + intros _. by apply attach_ks_full_ttl.
  - pose proof Hi as (_ & Ha & _).
    destruct (switchWorkspaceSession_run ctx sid w Hj Hs Hv)
      as (w' & Hrun & Hs' & Hks & _);
      [by apply settled_authenticated | by left |].
    exists w'. split; [done|]. split; [done|].
    rewrite (Hks Ha). split; [by apply indexed_dead_unhash|]. split.
    + by apply persistent_unhash.
    + by intros [? ?].
  - pose proof Hi as (_ & Hl & _).
    rewrite (deleteSession_live ctx sid d w Hj Ho Hwf Hl).
    eexists. split; [done|]. cbn [redis with_redis with_res_cookies].
    split; [|split; [|split]].
    + split; [done|]. split; [|done].
      cbn [redis with_redis with_res_cookies].
      by apply well_kinded_del, unhash_ks_kinded, detach_ks_kinded, well_kinded_del.
    + by apply indexed_delete.
    + by apply persistent_del, persistent_unhash, persistent_detach, persistent_del.
    + by intros [? ?].
  - pose proof Hi as (_ & Ha & _).
    rewrite (deleteSession_absent ctx sid w Ho Hwf Ha).
    eexists. split; [done|]. cbn [redis with_redis with_res_cookies].
    split; [|split; [|split]].
    + split; [done|]. split; [|done].
      cbn [redis with_redis with_res_cookies].
      by apply well_kinded_del, unhash_ks_kinded.
    + by apply indexed_dead_delete.
    + by apply persistent_del, persistent_unhash.
    + by intros [? ?].
Qed.

(** A consistent state less than sixty days later. *)
Lemma later_step sid m stale dt w :
  settled sid w → indexed sid m stale (redis w) → persistent (redis w) →
  (is_Some m → full_ttl (redis w) sid) → dt < sixty_days →
  settled sid (later dt w)
  ∧ indexed sid m stale (redis (later dt w))
  ∧ persistent (redis (later dt w)).
Proof.
  intros (Ho & Hwf & Hc) (Hm & Hrec) Hp Hfull Hdt.
  unfold later. cbn [redis with_redis]. split; [|split].
  - split; [done|]. split; [|done]. by apply well_kinded_elapse.
  - split.
    + intros k. by rewrite members_elapse.
    + destruct m as [d|].
      * destruct Hrec as [Hl (Hf1 & Hf2 & Hf3)].
        destruct Hfull as [s Hs]; [done|].
        split; [|by repeat split; rewrite field_elapse].
        unfold live in *. unfold text in Hl. rewrite Hs in Hl. injection Hl as ->.
        by eapply text_elapse_alive.
      * destruct Hrec as [Ha (Hf1 & Hf2 & Hf3)].
        split; [by apply lookup_elapse_none|].
        by repeat split; rewrite field_elapse.
  - by apply persistent_elapse.
Qed.

Lemma consistent_run_from sid reqs :
  json_sound → valid_id sid → Forall (request_ok sid) reqs →
  ∀ m stale clock w,
    paced clock reqs → settled sid w → indexed sid m stale (redis w) →
    persistent (redis w) → (is_Some m → full_ttl (redis w) sid) →
    consistent_run sid m stale clock reqs w.
Proof.
  intros Hj Hv. induction 1 as [|r reqs Hok _ IH];
    intros m stale clock w Hpace Hs Hi Hp Hfull.
  { by split. }
  split; [done|]. destruct Hpace as [Hgap Hpace].
  destruct (later_step sid m stale (now (ctx_of r) - clock) w Hs Hi Hp Hfull)
    as (Hs1 & Hi1 & Hp1); [lia|].
  destruct (serve_step sid r m stale _ Hj Hv Hs1 Hok Hi1 Hp1)
    as (w' & Hrun & Hs' & Hi' & Hp' & Hfull').
  exists w'. split; [done|]. by apply IH.
Qed.

End Consistency.

Lemma indexed_issue `{T : Transport} `{R : Runtime} ctx sid m stale ks :
  well_kinded ks → indexed sid m stale ks → indexed sid m stale (issue_ks ctx sid ks).
Proof.
  intros Hwf [Hm Hrec]. unfold issue_ks. split.
  - intros k. rewrite members_set_ex. specialize (Hm k).
    pose proof (members_string_slot ks _ Hwf (key_kind_refresh sid)) as Hr.
    case_decide; subst; [|done]. rewrite <- Hm, Hr. done.
  - destruct m as [d|].
    + destruct Hrec as [Hl (Hf1 & Hf2 & Hf3)]. split; [|split; [|split]].
      * unfold live. rewrite text_set_ex. by rewrite decide_False by discriminate.
      * rewrite field_set_ex. by rewrite decide_False by discriminate.
      * rewrite field_set_ex. by rewrite decide_False by discriminate.
      * rewrite field_set_ex. by rewrite decide_False by discriminate.
    + destruct Hrec as [Ha (Hf1 & Hf2 & Hf3)]. split; [|split; [|split]].
      * by rewrite exec_set_ex_ne by discriminate.
      * rewrite field_set_ex. by case_decide.
      * rewrite field_set_ex. by case_decide.
      * rewrite field_set_ex. by case_decide.
Qed.

(** C1, as the code has it.  A session is created under a fresh
    identifier and then updated, switched and deleted in any order, no
    round trip failing, each request less than sixty days after the one
    before, so that the record has not expired.  Every operation resolves,
    and after each of them: while the record exists, it holds the data last
    loaded, the three forward hashes map the identifier to its [roleId],
    [userId] and [workspaceId], and the identifier is a member of the three
    reverse sets these name; besides them it is a member of the stale sets
    and of no other set, where [updateSession], which attaches without
    detaching, makes stale the sets of the record it replaces, and the
    detach of [switchWorkspaceSession] and [deleteSession] removes the sets
    of the current record; after deletion record and forward entries are
    gone.  No set is stale after creation, and none becomes stale by a
    switch, a delete, or an update that reloads the role, account and
    workspace already recorded. *)
Theorem session_index_consistency `{T : Transport} `{R : Runtime}
    ctx0 uid0 reqs w p :
  let sid := nanoid ctx0 in
  json_sound → outages w = [] → well_kinded (redis w) → persistent (redis w) →
  valid_id sid →
  (cached_id w = None ∨ cached_id w = Some sid) →
  URL_protocol (PUBLIC_API_URL ctx0) = Some p →
  (∀ k, sid ∉ members (redis w) k) →
  Forall (request_ok sid) reqs →
  paced (now ctx0) reqs →
  (∃ w1, createSession ctx0 uid0 w = (inr tt, w1)
         ∧ consistent_run sid (Some (loaded ctx0 uid0)) ∅ (now ctx0) reqs w1)
  ∧ (∀ m r,
       (∀ ctx uid d, r = ReqUpdate ctx uid → m = Some d →
                     index_of d ⊆ index_of (loaded ctx uid)) →
       next_stale m ∅ r = ∅)
  ∧ (∀ d k, k ∈ index_of d
            ↔ k = "role:" +:+ roleId d +:+ ":sessions"
              ∨ k = "user:" +:+ userId d +:+ ":sessions"
              ∨ k = "workspace:" +:+ workspaceId d +:+ ":sessions")
  ∧ (∀ d ks, live ks sid d ↔ text ks ("session:" +:+ sid) = Some (JSON_stringify d)).
Proof.
  intros sid Hj Ho Hwf Hp Hv Hc Hu Hfresh Hreqs Hpace. split; [|split; [|split]].
  - eexists. split; [by apply createSession_run|].
    apply consistent_run_from; try done.
    + split; [|split].
      * cbn [outages with_redis with_res_cookies]. by rewrite after_load_outages.
      * cbn [redis with_redis with_res_cookies].
        by apply issue_ks_kinded, attach_ks_kinded.
      * unfold cached_id in *. cbn [socket with_redis with_res_cookies].
        fold (cached_id (after_load ctx0 uid0 w)). by rewrite after_load_cached.
    + cbn [redis with_redis with_res_cookies].
      apply indexed_issue; [by apply attach_ks_kinded|]. by apply indexed_create.
    + cbn [redis with_redis with_res_cookies].
      by apply persistent_issue, persistent_attach.
    + intros _. cbn [redis with_redis with_res_cookies].
      destruct (attach_ks_full_ttl (redis w) sid (loaded ctx0 uid0) Hv) as [s Hs].
      exists s. by rewrite lookup_issue_ne by discriminate.
  - intros [d|] [ctx uid|ctx|ctx] Hsteady; simpl; set_solver.
  - intros d k. apply elem_of_index_of.
  - done.
Qed.

(** The example session updated, switched and deleted, at clocks 2000,
    3000 and 3000. *)
Lemma session_index_consistency_witness :
  let reqs := [ ReqUpdate Example.ctx_update "acct1";
                ReqSwitch Example.ctx_switch;
                ReqDelete Example.ctx_switch ] in
  let w := Example.empty_world in
  json_sound ∧ outages w = [] ∧ well_kinded (redis w) ∧ persistent (redis w)
  ∧ valid_id "s1" ∧ cached_id w = None
  ∧ (∀ k, "s1" ∉ members (redis w) k)
  ∧ Forall (request_ok "s1") reqs
  ∧ paced 1000 reqs
  ∧ ∃ w1, createSession Example.ctx_create "acct1" w = (inr tt, w1)
      ∧ consistent_run "s1" (Some (loaded Example.ctx_create "acct1")) ∅ 1000 reqs w1.
Proof.
  intros reqs w.
  assert (∀ k, "s1" ∉ members (redis w) k) as Hfresh.
  { intros k. unfold members, w; simpl. rewrite lookup_empty. apply not_elem_of_empty. }
  assert (Forall (request_ok "s1") reqs) as Hreqs.
  { repeat constructor.
    exists (jwtSign "s1" one_day 1000), ("s:" +:+ jwtSign "s1" one_day 1000).
    repeat split; vm_compute; reflexivity. }
  assert (paced 1000 reqs) as Hpace by (by vm_compute).
  split; [exact demo_json_sound|]. split; [reflexivity|].
  split; [exact well_kinded_empty|]. split; [exact persistent_empty|].
  split; [exact valid_id_s1|].
  split; [reflexivity|]. split; [exact Hfresh|]. split; [exact Hreqs|].
  split; [exact Hpace|].
  exact (proj1 (session_index_consistency Example.ctx_create "acct1" reqs w "https:"
                  demo_json_sound eq_refl well_kinded_empty persistent_empty
                  valid_id_s1 (or_introl eq_refl) eq_refl Hfresh Hreqs Hpace)).
Defined.

(** C1 as stated fails: session [s1] was created at clock 1000 while
    the membership of its account named role [r1]; the membership changed
    to role [r2] and [updateSession] ran at clock 2000.  The record and the
    forward hash name [r2], and the identifier is still a member of
    [role:r1:sessions], a set the record does not name. *)
Lemma update_leaves_stale_membership :
  let w0 := later 1000 Example.world_created in
  let w := Example.after (updateSession Example.ctx_update "s1" "acct1") w0 in
  let d := loaded Example.ctx_update "acct1" in
  (updateSession Example.ctx_update "s1" "acct1" w0).1 = inr tt
  ∧ live (redis w) "s1" d
  ∧ roleId d = "r2"
  ∧ field (redis w) "session:role" "s1" = Some "r2"
  ∧ "s1" ∈ members (redis w) "role:r2:sessions"
  ∧ "s1" ∈ members (redis w) "role:r1:sessions"
  ∧ "role:r1:sessions" ∉ index_of d.
Proof.
  intros w0 w d.
  split; [vm_compute; reflexivity|]. split; [vm_compute; reflexivity|].
  split; [reflexivity|]. split; [vm_compute; reflexivity|].
  split; [by_compute|]. split; by_compute.
Qed.

(** * More properties of the source *)

(** ** The subscription banner *)

(** X1. The message about the end of the trial is never rendered: the bar
    is shown only for a status that is not [trialing], and the third
    [Match] asks for [trialing].  The bar shows the read-only message, the
    message about the payment, or no message. *)
Theorem trial_message_never_shown status visible remaining :
  let shown :=
    Banner.SubscriptionBanner status visible remaining ≫= Banner.shown_message in
  shown = None ∨ shown = Some Banner.ReadOnly ∨ shown = Some Banner.PaymentIssue.
Proof.
  unfold Banner.SubscriptionBanner.
  destruct (Banner.falsy status) eqn:Hf; simpl.
  { destruct visible; simpl; auto. }
  destruct (Banner.includes ["active"; "trialing"] status) eqn:Ha; simpl; [auto|].
  destruct visible; simpl; [|auto].
  destruct (Banner.includes ["canceled"; "unpaid"] status); [auto|].
  destruct (Banner.includes ["past_due"] status); [auto|].
  case_bool_decide as Ht; simpl; [|auto].
  subst. by vm_compute in Ha.
Qed.

(** X2. While it has not been dismissed, the bar is shown without any
    message for every status other than [active], [trialing], [canceled],
    [unpaid] and [past_due], and it then has a close button. *)
Theorem unknown_status_shows_empty_bar (status : string) remaining :
  status ≠ "" →
  status ∉ ["active"; "trialing"; "canceled"; "unpaid"; "past_due"] →
  Banner.SubscriptionBanner (Some status) true remaining
  = Some {| Banner.shown_message := None; Banner.close_button := true |}.
Proof.
  intros Hne Hni. rewrite !not_elem_of_cons in Hni.
  destruct Hni as (H1 & H2 & H3 & H4 & H5 & _).
  unfold Banner.SubscriptionBanner, Banner.includes, Banner.falsy.
  simpl. rewrite decide_False by done.
  rewrite (bool_decide_eq_false_2 (status ∈ ["active"; "trialing"]))
    by (rewrite !elem_of_cons, elem_of_nil; naive_solver).
  rewrite (bool_decide_eq_false_2 (status ∈ ["canceled"; "unpaid"]))
    by (rewrite !elem_of_cons, elem_of_nil; naive_solver).
  rewrite (bool_decide_eq_false_2 (status ∈ ["past_due"]))
    by (rewrite !elem_of_cons, elem_of_nil; naive_solver).
  rewrite (bool_decide_eq_false_2 (Some status = Some "trialing")) by congruence.
  done.
Qed.

Lemma unknown_status_shows_empty_bar_witness :
  "incomplete" ≠ ""
  ∧ ("incomplete" ∉ ["active"; "trialing"; "canceled"; "unpaid"; "past_due"])
  ∧ Banner.SubscriptionBanner (Some "incomplete") true 3
    = Some {| Banner.shown_message := None; Banner.close_button := true |}.
Proof.
  assert ("incomplete" ∉ ["active"; "trialing"; "canceled"; "unpaid"; "past_due"]) as Hni.
  { apply (bool_decide_unpack _). vm_compute. exact I. }
  split; [discriminate|]. split; [exact Hni|].
  apply unknown_status_shows_empty_bar; [discriminate | exact Hni].
Defined.

(** X3. The read-only message is shown exactly for a missing or empty
    status and for [canceled] and [unpaid]; the bar lacks the close button
    exactly for [canceled] and [unpaid], so the read-only bar of a
    subscription without status can be dismissed. *)
Theorem read_only_bar status remaining :
  let shown := Banner.SubscriptionBanner status true remaining in
  ((shown ≫= Banner.shown_message) = Some Banner.ReadOnly
   ↔ truthy status = None ∨ status = Some "canceled" ∨ status = Some "unpaid")
  ∧ (Banner.close_button <$> shown = Some false
     ↔ status = Some "canceled" ∨ status = Some "unpaid").
Proof.
  unfold Banner.SubscriptionBanner, Banner.includes, Banner.falsy.
  destruct status as [s|]; simpl.
  2:{ split; split; try done; try (by left); intros [|]; done. }
  destruct (decide (s = "")) as [->|Hs]; simpl.
  { split; split; try done; try (by left); intros [|]; done. }
  destruct (decide (s = "canceled")) as [->|Hc].
  { split; split; try done; try (intros _; right; by left); intros _; by left. }
  destruct (decide (s = "unpaid")) as [->|Hu].
  { split; split; try done; try (intros _; right; by right); intros _; by right. }
  rewrite (bool_decide_eq_false_2 (s ∈ ["canceled"; "unpaid"]))
    by (rewrite !elem_of_cons, elem_of_nil; naive_solver).
  destruct (bool_decide (s ∈ ["active"; "trialing"])); simpl.
  - split; split; try done; intros [|]; try done; naive_solver.
  - split; split; try done; try (intros [|]; naive_solver);
      repeat case_match; try done; intros [|[|]]; naive_solver.
Qed.

(** X4. [goToBilling] opens the billing section of the settings panel,
    keeps a panel width that is set and not zero and takes 375 otherwise,
    leaves the other entries of the storage alone, and doing it twice is
    doing it once. *)
Theorem goToBilling_idempotent storage :
  let once := Banner.goToBilling storage in
  Banner.goToBilling once = once
  ∧ Banner.sidePanelView once = Some "settings"
  ∧ Banner.settingsSection once = Some "billing"
  ∧ Banner.other_entries once = Banner.other_entries storage
  ∧ (∀ n, Banner.sidePanelWidth storage = Some n → n ≠ 0 →
       Banner.sidePanelWidth once = Some n)
  ∧ (Banner.sidePanelWidth storage = None ∨ Banner.sidePanelWidth storage = Some 0 →
       Banner.sidePanelWidth once = Some 375).
Proof.
  unfold Banner.goToBilling; simpl. repeat split.
  - f_equal. f_equal. destruct (Banner.sidePanelWidth storage) as [n|]; [|done].
    destruct (decide (n = 0)); [done|]. by rewrite decide_False.
  - intros n -> Hn. by rewrite decide_False.
  - by intros [-> | ->].
Qed.

(** * More properties of the git-sync handler *)

Section HandlerProps.
Import GitSync GitSyncViews.

Lemma find_index_Some {A} (p : A → bool) l i :
  find_index p l = Some i →
  ∃ l1 x l2, l = (l1 ++ x :: l2)%list ∧ length l1 = i
    ∧ Forall (λ y, p y = false) l1 ∧ p x = true.
Proof.
  revert i. induction l as [|a l IH]; intros i; simpl; [done|].
  destruct (p a) eqn:Hp.
  - intros [= <-]. by exists [], a, l.
  - destruct (find_index p l) as [i'|]; [|done]. simpl. intros [= <-].
    destruct (IH i' eq_refl) as (l1 & x & l2 & -> & <- & Hall & Hx).
    exists (a :: l1), x, l2. repeat split; [|done]. by constructor.
Qed.

Lemma find_index_None {A} (p : A → bool) l :
  find_index p l = None ↔ Forall (λ y, p y = false) l.
Proof.
  induction l as [|a l IH]; simpl; [done|].
  rewrite Forall_cons. destruct (p a) eqn:Hp; [naive_solver|].
  rewrite <- IH. destruct (find_index p l); naive_solver.
Qed.

Lemma find_index_app {A} (p : A → bool) l1 x l2 :
  Forall (λ y, p y = false) l1 → p x = true →
  find_index p (l1 ++ x :: l2) = Some (length l1).
Proof.
  intros Hall Hx. induction Hall as [|a l1 Ha _ IH]; simpl; [by rewrite Hx|].
  by rewrite Ha, IH.
Qed.

Lemma flat_id {A} (f : nat → A → list A) (l : list A) :
  (∀ i x, f i x = [x]) → mjoin (imap f l) = l.
Proof.
  revert f. induction l as [|a l IH]; intros f Hf; [done|].
  rewrite imap_cons. simpl. rewrite Hf. simpl. f_equal. apply IH.
  intros i x. apply Hf.
Qed.

(** [flatMap] with a function that expands one position only. *)
Lemma flat_at {A} (g : A → list A) (l1 : list A) x l2 :
  mjoin (imap (λ i r, if decide (i = length l1) then g r else [r]) (l1 ++ x :: l2))
  = (l1 ++ g x ++ l2)%list.
Proof.
  induction l1 as [|a l1 IH]; simpl.
  - f_equal. apply flat_id. intros i y. unfold compose. by case_decide.
  - f_equal. rewrite <- IH. f_equal. apply imap_ext. intros i y _. simpl.
    repeat case_decide; try done; lia.
Qed.

Lemma is_tracked_true piece r :
  is_tracked piece r = true ↔ contentPieceId r = cp_id piece ∧ currentHash r ≠ "".
Proof.
  unfold is_tracked. rewrite andb_true_iff, bool_decide_eq_true, negb_true_iff.
  by rewrite String.eqb_neq.
Qed.

Lemma is_tracked_false piece r :
  is_tracked piece r = false → contentPieceId r = cp_id piece → currentHash r = "".
Proof.
  unfold is_tracked. intros H Hid. rewrite bool_decide_eq_true_2 in H by done.
  simpl in H. apply negb_false_iff in H. by apply String.eqb_eq.
Qed.

Lemma identity_untrack piece recs :
  map identity
    (map (λ record, if bool_decide (contentPieceId record = cp_id piece)
                    then with_currentHash "" record else record) recs)
  = map identity recs.
Proof.
  induction recs as [|r l IH]; [done|]. simpl. rewrite IH. f_equal.
  by case_bool_decide.
Qed.

Context `{E : Env}.

(** The records the handler returns, one case per [return] of the source. *)
Lemma handler_shape dirs recs piece out :
  handleContentPieceUpdated dirs recs piece = inr out →
  directories out = dirs
  ∧ ((directory_of dirs piece = None
      ∧ records out
        = map (λ record, if bool_decide (contentPieceId record = cp_id piece)
                         then with_currentHash "" record else record) recs)
     ∨ records out = recs
     ∨ ∃ dir doc buffer output,
         directory_of dirs piece = Some dir
         ∧ contents_findOne (cp_id piece) = Res (Some doc)
         ∧ content doc = Some buffer
         ∧ process buffer piece = Some output
         ∧ let new := {| path := newRecordPath dir piece; contentPieceId := cp_id piece;
                         currentHash := md5_hex output; syncedHash := "" |} in
           ((Forall (λ r, is_tracked piece r = false) recs
             ∧ records out = (recs ++ [new])%list)
            ∨ ∃ l1 r l2,
                recs = (l1 ++ r :: l2)%list
                ∧ Forall (λ r, is_tracked piece r = false) l1
                ∧ is_tracked piece r = true
                ∧ ((path r = newRecordPath dir piece
                    ∧ records out
                      = (l1 ++ with_currentHash (md5_hex output) r :: l2)%list)
                   ∨ (path r ≠ newRecordPath dir piece
                      ∧ records out
                        = (l1 ++ with_currentHash "" r :: new :: l2)%list)))).
Proof.
  unfold handleContentPieceUpdated, directory_of.
  fold (is_tracked piece).
  destruct (find _ dirs) as [dir|] eqn:Hdir.
  - destruct (contents_findOne (cp_id piece)) as [|[doc|]] eqn:Hc; simpl; [done| |].
    2:{ intros [= <-]. simpl. auto. }
    destruct (content doc) as [buffer|] eqn:Hb.
    2:{ intros [= <-]. simpl. auto. }
    destruct (process buffer piece) as [output|] eqn:Hp; [|done].
    destruct (find_index (is_tracked piece) recs) as [found|] eqn:Hf.
    + intros [= <-]. simpl. split; [done|]. right; right.
      exists dir, doc, buffer, output. repeat split; [done..|]. right.
      destruct (find_index_Some _ _ _ Hf) as (l1 & r & l2 & -> & <- & Hall & Hr).
      exists l1, r, l2. repeat split; [done..|].
      rewrite (flat_at (λ record,
        if decide (path record = _) then [with_currentHash (md5_hex output) record]
        else [with_currentHash "" record; _])).
      apply is_tracked_true in Hr as [Hid _]. fold (newRecordPath dir piece).
      destruct (decide (path r = newRecordPath dir piece)); simpl; [by left|].
      right. split; [done|]. by rewrite Hid.
    + intros [= <-]. simpl. split; [done|]. right; right.
      exists dir, doc, buffer, output. repeat split; [done..|]. left.
      split; [|done]. by apply find_index_None.
  - destruct (find_index (is_tracked piece) recs); intros [= <-]; simpl; auto.
Qed.

(** The call inside a synchronised group whose content was processed. *)
Lemma handler_inside dirs recs piece dir doc buffer output :
  directory_of dirs piece = Some dir →
  contents_findOne (cp_id piece) = Res (Some doc) →
  content doc = Some buffer →
  process buffer piece = Some output →
  let new := {| path := newRecordPath dir piece; contentPieceId := cp_id piece;
                currentHash := md5_hex output; syncedHash := "" |} in
  (Forall (λ r, is_tracked piece r = false) recs →
   handleContentPieceUpdated dirs recs piece
   = inr {| directories := dirs; records := (recs ++ [new])%list |})
  ∧ (∀ l1 r l2,
       recs = (l1 ++ r :: l2)%list →
       Forall (λ r, is_tracked piece r = false) l1 →
       is_tracked piece r = true →
       handleContentPieceUpdated dirs recs piece
       = inr {| directories := dirs;
                records :=
                  if decide (path r = newRecordPath dir piece)
                  then (l1 ++ with_currentHash (md5_hex output) r :: l2)%list
                  else (l1 ++ with_currentHash "" r :: new :: l2)%list |}).
Proof.
  intros Hdir Hc Hb Hp new. unfold handleContentPieceUpdated.
  fold (is_tracked piece). unfold directory_of in Hdir. rewrite Hdir, Hc. simpl.
  rewrite Hb, Hp. fold (newRecordPath dir piece). split.
  - intros Hall. apply find_index_None in Hall. by rewrite Hall.
  - intros l1 r l2 -> Hall Hr. rewrite (find_index_app _ _ _ _ Hall Hr).
    rewrite (flat_at (λ record,
      if decide (path record = _) then [with_currentHash (md5_hex output) record]
      else [with_currentHash "" record; _])).
    apply is_tracked_true in Hr as [Hid _].
    destruct (decide (path r = newRecordPath dir piece)); simpl; [done|].
    subst new. by rewrite Hid.
Qed.

(** X5. Whatever the handler returns, the records of the other content
    pieces are the ones it was given, in the same order. *)
Theorem handler_keeps_other_pieces dirs recs piece out :
  handleContentPieceUpdated dirs recs piece = inr out →
  filter (λ r, contentPieceId r ≠ cp_id piece) (records out)
  = filter (λ r, contentPieceId r ≠ cp_id piece) recs.
Proof.
  intros H. apply handler_shape in H as [_ H].
  assert (∀ r l, contentPieceId r = cp_id piece →
            filter (λ r, contentPieceId r ≠ cp_id piece) (r :: l)
            = filter (λ r, contentPieceId r ≠ cp_id piece) l) as Hdrop.
  { intros r l Hid. by rewrite filter_cons_False by naive_solver. }
  destruct H as [[_ ->]|[->|(dir & doc & buffer & output & _ & _ & _ & _ & H)]];
    [|done|].
  - induction recs as [|r l IH]; [done|]. simpl.
    case_bool_decide as Hid.
    + by rewrite !Hdrop.
    + rewrite !filter_cons_True by done. by rewrite IH.
  - simpl in H. destruct H as [[_ ->]|(l1 & r & l2 & -> & _ & Hr & H)].
    + rewrite filter_app, Hdrop by done. simpl. by rewrite app_nil_r.
    + apply is_tracked_true in Hr as [Hid _].
      destruct H as [[_ ->]|[_ ->]]; rewrite !filter_app, !Hdrop; done.
Qed.

(** X6. For a piece whose content group has no synchronised directory the
    handler consults neither the contents collection nor the processor:
    the result is the same under every environment.  It keeps the number
    of records, and no record of the piece is left with a current hash. *)
Theorem handler_outside_group dirs recs piece :
  (∀ d, d ∈ dirs → contentGroupId d ≠ cp_contentGroupId piece) →
  ∃ recs',
    (∀ E' : Env,
       @handleContentPieceUpdated E' dirs recs piece
       = inr {| directories := dirs; records := recs' |})
    ∧ length recs' = length recs
    ∧ map identity recs' = map identity recs
    ∧ ∀ r, r ∈ recs' → contentPieceId r = cp_id piece → currentHash r = "".
Proof.
  intros Hout.
  assert (directory_of dirs piece = None) as Hdir.
  { unfold directory_of. induction dirs as [|d l IH]; [done|]. simpl.
    rewrite bool_decide_eq_false_2 by (apply Hout; left).
    apply IH. intros d' Hd'. apply Hout. by right. }
  unfold directory_of in Hdir.
  destruct (find_index (is_tracked piece) recs) as [found|] eqn:Hf.
  - eexists. split.
    { intros E'. unfold handleContentPieceUpdated. fold (is_tracked piece).
      rewrite Hdir, Hf. reflexivity. }
    split; [by rewrite length_map|]. split.
    + apply identity_untrack.
    + intros r (r0 & -> & _)%list_elem_of_fmap_1. by case_bool_decide.
  - exists recs. split.
    { intros E'. unfold handleContentPieceUpdated. fold (is_tracked piece).
      by rewrite Hdir, Hf. }
    repeat split; [done..|]. intros r Hr Hid.
    apply find_index_None in Hf. rewrite Forall_forall in Hf.
    by apply (is_tracked_false piece); [apply Hf|].
Qed.

(** X7. For a piece inside a synchronised group whose content exists and is
    processed, the handler returns records among which one of the piece sits
    at the new record path with the digest of the output as current
    hash; the list grows by one record at most. *)
Theorem handler_tracks_piece dirs recs piece dir doc buffer output :
  directory_of dirs piece = Some dir →
  contents_findOne (cp_id piece) = Res (Some doc) →
  content doc = Some buffer →
  process buffer piece = Some output →
  ∃ out, handleContentPieceUpdated dirs recs piece = inr out
    ∧ (∃ r, r ∈ records out
         ∧ contentPieceId r = cp_id piece
         ∧ path r = newRecordPath dir piece
         ∧ currentHash r = md5_hex output)
    ∧ (length recs ≤ length (records out) ≤ S (length recs))%nat.
Proof.
  intros Hdir Hc Hb Hp.
  destruct (handler_inside dirs recs piece dir doc buffer output Hdir Hc Hb Hp)
    as [Hnew Hold].
  destruct (find_index (is_tracked piece) recs) as [found|] eqn:Hf.
  - destruct (find_index_Some _ _ _ Hf) as (l1 & r & l2 & -> & _ & Hall & Hr).
    eexists. split; [by apply Hold|]. simpl.
    apply is_tracked_true in Hr as [Hid _].
    destruct (decide (path r = newRecordPath dir piece)) as [Hpath|Hpath]; split.
    + exists (with_currentHash (md5_hex output) r). split; [set_solver|done].
    + rewrite !length_app. simpl. lia.
    + eexists. split; [apply elem_of_app; right; right; left|done].
    + rewrite !length_app. simpl. lia.
  - apply find_index_None in Hf. eexists. split; [by apply Hnew|]. simpl. split.
    + eexists. split; [apply elem_of_app; right; left|done].
    + rewrite length_app. simpl. lia.
Qed.

(** X8. The handler is idempotent when the digest is never the empty string
    (an MD5 digest in hexadecimal has 32 characters): run again on the
    directories and records it returned, it returns them unchanged. *)
Theorem handler_idempotent dirs recs piece out :
  (∀ s, md5_hex s ≠ "") →
  handleContentPieceUpdated dirs recs piece = inr out →
  handleContentPieceUpdated (directories out) (records out) piece = inr out.
Proof.
  intros Hmd5 H. destruct out as [dirs' recs'].
  destruct (handler_shape _ _ _ _ H) as [Hd Hs]. simpl in *. subst dirs'.
  destruct Hs
    as [[Hdir ->]|[->|(dir & doc & buffer & output & Hdir & Hc & Hb & Hp & Hs)]];
    [|done|].
  - unfold handleContentPieceUpdated. fold (is_tracked piece).
    unfold directory_of in Hdir. rewrite Hdir.
    replace (find_index _ _) with (@None nat); [done|].
    symmetry. apply find_index_None, Forall_forall.
    intros r (r0 & -> & _)%list_elem_of_fmap_1. unfold is_tracked.
    destruct (bool_decide (contentPieceId r0 = cp_id piece)) eqn:Hid; simpl;
      [by rewrite andb_false_r|by rewrite Hid].
  - destruct (handler_inside dirs recs' piece dir doc buffer output Hdir Hc Hb Hp)
      as [_ Hold].
    assert (∀ r, contentPieceId r = cp_id piece →
              is_tracked piece (with_currentHash (md5_hex output) r) = true) as Hlive.
    { intros r Hid. apply is_tracked_true. split; [done|]. apply Hmd5. }
    simpl in Hs. destruct Hs as [[Hall ->]|(l1 & r & l2 & -> & Hall & Hr & Hs)].
    + erewrite (Hold recs _ []); [|done..|].
      * by rewrite decide_True.
      * apply is_tracked_true. split; [done|]. apply Hmd5.
    + apply is_tracked_true in Hr as [Hid _].
      destruct Hs as [[Hpath ->]|[Hpath ->]].
      * erewrite (Hold l1 _ l2); [|done..|by apply Hlive].
        by rewrite decide_True.
      * rewrite (Hold (l1 ++ [with_currentHash "" r])%list
                  {| path := newRecordPath dir piece; contentPieceId := cp_id piece;
                     currentHash := md5_hex output; syncedHash := "" |} l2).
        -- rewrite decide_True by done. simpl. by rewrite <- app_assoc.
        -- by rewrite <- app_assoc.
        -- apply Forall_app. split; [done|]. constructor; [|done].
           unfold is_tracked. simpl. by rewrite andb_false_r.
        -- apply is_tracked_true. split; [done|]. apply Hmd5.
Qed.

(** X9. The handler never removes a record and never rewrites the path, the
    content piece or the synced hash of a record it was given: these
    fields of the records given are, in order, among those of the records
    returned, and at most one record is added. *)
Theorem handler_never_drops_records dirs recs piece out :
  handleContentPieceUpdated dirs recs piece = inr out →
  map identity recs `sublist_of` map identity (records out)
  ∧ (length (records out) ≤ S (length recs))%nat.
Proof.
  intros H. apply handler_shape in H as [_ H].
  destruct H as [[_ ->]|[->|(dir & doc & buffer & output & _ & _ & _ & _ & H)]].
  - split; [|rewrite length_map; lia]. by rewrite identity_untrack.
  - split; [done|lia].
  - simpl in H. destruct H as [[_ ->]|(l1 & r & l2 & -> & _ & _ & [[_ ->]|[_ ->]])].
    + rewrite fmap_app, length_app. simpl. split; [|lia]. by apply sublist_inserts_r.
    + split; [|rewrite !length_app; simpl; lia]. by rewrite !fmap_app.
    + split; [|rewrite !length_app; simpl; lia]. rewrite !fmap_app. simpl.
      apply sublist_app; [done|]. apply sublist_skip. by apply sublist_cons.
Qed.

End HandlerProps.

(** The moved piece with a second piece beside it. *)
Lemma handler_keeps_other_pieces_witness :
  let out :=
    {| GitSync.directories := GitSyncExample.dirs;
       GitSync.records :=
         [ {| GitSync.path := "docs/intro.md"; GitSync.contentPieceId := "p1";
              GitSync.currentHash := ""; GitSync.syncedHash := "old" |};
           {| GitSync.path := "docs/guides/intro.md"; GitSync.contentPieceId := "p1";
              GitSync.currentHash := "md5:# Title"; GitSync.syncedHash := "" |};
           HandlerExample.other ] |} in
  GitSync.handleContentPieceUpdated GitSyncExample.dirs HandlerExample.recs
    GitSyncExample.piece = inr out
  ∧ filter (λ r, GitSync.contentPieceId r ≠ "p1") (GitSync.records out)
    = filter (λ r, GitSync.contentPieceId r ≠ "p1") HandlerExample.recs.
Proof.
  intros out. split; [reflexivity|].
  apply (handler_keeps_other_pieces GitSyncExample.dirs HandlerExample.recs
           GitSyncExample.piece out).
  reflexivity.
Defined.

Lemma handler_outside_group_witness :
  (∀ d, d ∈ GitSyncExample.dirs →
     GitSync.contentGroupId d ≠ GitSync.cp_contentGroupId HandlerExample.outside)
  ∧ ∃ recs',
      (∀ E' : GitSync.Env,
         @GitSync.handleContentPieceUpdated E' GitSyncExample.dirs HandlerExample.recs
           HandlerExample.outside
         = inr {| GitSync.directories := GitSyncExample.dirs;
                  GitSync.records := recs' |})
      ∧ length recs' = length HandlerExample.recs
      ∧ map GitSyncViews.identity recs'
        = map GitSyncViews.identity HandlerExample.recs
      ∧ ∀ r, r ∈ recs' →
          GitSync.contentPieceId r = GitSync.cp_id HandlerExample.outside →
          GitSync.currentHash r = "".
Proof.
  assert (∀ d, d ∈ GitSyncExample.dirs →
            GitSync.contentGroupId d
            ≠ GitSync.cp_contentGroupId HandlerExample.outside) as H.
  { intros d Hd. apply list_elem_of_singleton in Hd. subst d. simpl. discriminate. }
  split; [exact H|].
  exact (handler_outside_group GitSyncExample.dirs HandlerExample.recs
           HandlerExample.outside H).
Defined.

Lemma handler_tracks_piece_witness :
  ∃ out,
    GitSync.handleContentPieceUpdated GitSyncExample.dirs HandlerExample.recs
      GitSyncExample.piece = inr out
    ∧ (∃ r, r ∈ GitSync.records out
         ∧ GitSync.contentPieceId r = "p1"
         ∧ GitSync.path r = "docs/guides/intro.md"
         ∧ GitSync.currentHash r = "md5:# Title")
    ∧ (2 ≤ length (GitSync.records out) ≤ 3)%nat.
Proof.
  exact (handler_tracks_piece GitSyncExample.dirs HandlerExample.recs
           GitSyncExample.piece
           {| GitSync.dir_path := "docs/guides"; GitSync.contentGroupId := "g1" |}
           {| GitSync.content := Some "# Title" |} "# Title" "# Title"
           eq_refl eq_refl eq_refl eq_refl).
Defined.

Lemma handler_idempotent_witness :
  let out :=
    {| GitSync.directories := GitSyncExample.dirs;
       GitSync.records :=
         [ {| GitSync.path := "docs/intro.md"; GitSync.contentPieceId := "p1";
              GitSync.currentHash := ""; GitSync.syncedHash := "old" |};
           {| GitSync.path := "docs/guides/intro.md"; GitSync.contentPieceId := "p1";
              GitSync.currentHash := "md5:# Title"; GitSync.syncedHash := "" |};
           HandlerExample.other ] |} in
  (∀ s, GitSync.md5_hex s ≠ "")
  ∧ GitSync.handleContentPieceUpdated GitSyncExample.dirs HandlerExample.recs
      GitSyncExample.piece = inr out
  ∧ GitSync.handleContentPieceUpdated (GitSync.directories out) (GitSync.records out)
      GitSyncExample.piece = inr out.
Proof.
  intros out.
  assert (∀ s, GitSync.md5_hex s ≠ "") as H by (intros s; simpl; discriminate).
  split; [exact H|]. split; [reflexivity|].
  apply (handler_idempotent GitSyncExample.dirs HandlerExample.recs
           GitSyncExample.piece out H).
  reflexivity.
Defined.

Lemma handler_never_drops_records_witness :
  ∃ out,
    GitSync.handleContentPieceUpdated GitSyncExample.dirs HandlerExample.recs
      GitSyncExample.piece = inr out
    ∧ map GitSyncViews.identity HandlerExample.recs
        `sublist_of` map GitSyncViews.identity (GitSync.records out)
    ∧ (length (GitSync.records out) ≤ 3)%nat.
Proof.
  eexists. split; [reflexivity|].
  apply (handler_never_drops_records GitSyncExample.dirs HandlerExample.recs
           GitSyncExample.piece).
  reflexivity.
Defined.

(** * The record path *)

Lemma append_cons c (x s : string) : String c x +:+ s = String c (x +:+ s).
Proof. reflexivity. Qed.

Lemma append_nil_l (s : string) : "" +:+ s = s.
Proof. reflexivity. Qed.

Lemma append_nil_r (s : string) : s +:+ "" = s.
Proof. induction s as [|c s IH]; [done|]. by rewrite append_cons, IH. Qed.

Lemma append_assoc (a b c : string) : (a +:+ b) +:+ c = a +:+ (b +:+ c).
Proof. induction a as [|x a IH]; [done|]. by rewrite !append_cons, IH. Qed.

Lemma rev_app_append (a b : string) :
  String.rev_app a b = String.rev_app a "" +:+ b.
Proof.
  revert b. induction a as [|x a IH]; intros b; [done|]. simpl.
  rewrite (IH (String x b)), (IH (String x "")), append_assoc. done.
Qed.

Lemma rev_app_rev_app (a b c : string) :
  String.rev_app (String.rev_app a b) c = String.rev_app b (a +:+ c).
Proof.
  revert b c. induction a as [|x a IH]; intros b c; [done|]. simpl.
  by rewrite IH.
Qed.

Lemma split_go_cons sep cur s : ∃ x l, split_go sep cur s = x :: l.
Proof.
  revert cur. induction s as [|c s IH]; intros cur; simpl; [by eexists _, _|].
  destruct (Ascii.eqb c sep); [by eexists _, _|]. apply IH.
Qed.

(** Joining what [split] returns gives the string back. *)
Lemma concat_split_go sep cur s :
  String.concat (String sep "") (split_go sep cur s) = String.rev_app cur s.
Proof.
  revert cur. induction s as [|c s IH]; intros cur; simpl; [done|].
  destruct (Ascii.eqb c sep) eqn:Hc.
  - apply Ascii.eqb_eq in Hc as ->.
    destruct (split_go_cons sep "" s) as (x & l & Hx).
    specialize (IH ""). rewrite Hx in *.
    change (String.concat (String sep "") (String.rev cur :: x :: l))
      with (String.rev cur +:+ String sep "" +:+ String.concat (String sep "") (x :: l)).
    rewrite IH. simpl. rewrite (rev_app_append cur (String sep s)). done.
  - apply (IH (String c cur)).
Qed.

Lemma concat_split sep s : String.concat (String sep "") (split sep s) = s.
Proof. apply concat_split_go. Qed.

Lemma has_char_append c (a b : string) :
  has_char c (a +:+ b) = has_char c a || has_char c b.
Proof.
  induction a as [|x a IH]; [done|]. rewrite append_cons. simpl.
  by rewrite IH, orb_assoc.
Qed.

Lemma has_char_rev_app c (a b : string) :
  has_char c (String.rev_app a b) = has_char c a || has_char c b.
Proof.
  revert b. induction a as [|x a IH]; intros b; [done|]. simpl. rewrite IH. simpl.
  destruct (Ascii.eqb x c), (has_char c a); done.
Qed.

(** No part [split] returns holds the separator. *)
Lemma split_go_free sep cur s :
  has_char sep cur = false →
  Forall (λ x, has_char sep x = false) (split_go sep cur s).
Proof.
  revert cur. induction s as [|c s IH]; intros cur Hcur; simpl.
  - constructor; [|done]. unfold String.rev. rewrite has_char_rev_app, Hcur. done.
  - destruct (Ascii.eqb c sep) eqn:Hc.
    + constructor; [|by apply IH].
      unfold String.rev. rewrite has_char_rev_app, Hcur. done.
    + apply IH. simpl. by rewrite Hc, Hcur.
Qed.

Lemma split_go_append sep cur (x s : string) :
  has_char sep x = false →
  split_go sep cur (x +:+ s) = split_go sep (String.rev_app x cur) s.
Proof.
  revert cur. induction x as [|c x IH]; intros cur Hx; [done|].
  simpl in Hx. apply orb_false_iff in Hx as [Hc Hx].
  rewrite append_cons. simpl. rewrite Hc. by apply IH.
Qed.

(** Splitting a join of parts without the separator gives the parts back. *)
Lemma split_concat sep l :
  l ≠ [] → Forall (λ x, has_char sep x = false) l →
  split sep (String.concat (String sep "") l) = l.
Proof.
  intros Hne Hall. unfold split. induction Hall as [|x l Hx Hall IH]; [done|].
  destruct l as [|y l].
  - simpl. rewrite <- (append_nil_r x) at 1.
    rewrite split_go_append by done. simpl. unfold String.rev.
    rewrite rev_app_rev_app. simpl. by rewrite append_nil_r.
  - change (String.concat (String sep "") (x :: y :: l))
      with (x +:+ String sep "" +:+ String.concat (String sep "") (y :: l)).
    rewrite split_go_append by done. rewrite append_cons, append_nil_l. simpl.
    rewrite Ascii.eqb_refl. unfold String.rev. rewrite rev_app_rev_app. simpl.
    rewrite append_nil_r. f_equal. by apply IH.
Qed.

Lemma filter_all {A} (P : A → Prop) `{∀ x, Decision (P x)} (l : list A) :
  Forall P l → filter P l = l.
Proof.
  induction 1 as [|x l Hx _ IH]; [done|]. by rewrite filter_cons_True, IH.
Qed.

Lemma concat_snoc sep (l : list string) (x : string) :
  l ≠ [] → String.concat sep (l ++ [x]) = String.concat sep l +:+ sep +:+ x.
Proof.
  induction l as [|a l IH]; [done|]. intros _. destruct l as [|b l]; [done|].
  change (String.concat sep ((a :: b :: l) ++ [x]))
    with (a +:+ sep +:+ String.concat sep ((b :: l) ++ [x])).
  rewrite IH by done.
  change (String.concat sep (a :: b :: l))
    with (a +:+ sep +:+ String.concat sep (b :: l)).
  by rewrite !append_assoc.
Qed.

(** X10. Under a directory path without empty parts (no leading, trailing
    or doubled slash, and not the root) the record of a piece with a
    non-empty name is at [dir/name]; under the root it is at [name]. *)
Theorem record_path_clean (dir name : string) :
  name ≠ "" → "" ∉ split "/" dir →
  GitSync.record_path dir name = dir +:+ "/" +:+ name
  ∧ GitSync.record_path "" name = name.
Proof.
  intros Hname Hdir. unfold GitSync.record_path. split.
  - rewrite filter_all.
    + destruct (split_go_cons "/" "" dir) as (x & l & Hx).
      rewrite concat_snoc by (unfold split; by rewrite Hx).
      by rewrite (concat_split "/"%char).
    + apply Forall_app. split; [|by repeat constructor].
      apply Forall_forall. intros s Hs ->. done.
  - simpl. rewrite filter_cons_False by naive_solver.
    by rewrite filter_cons_True.
Qed.

(** X11. When the name is not empty and holds no slash, the parts of the
    record path are the non-empty parts of the directory path followed by
    the name: the record path has no empty part, whatever slashes the
    directory path has. *)
Theorem record_path_segments (dir name : string) :
  name ≠ "" → has_char "/" name = false →
  split "/" (GitSync.record_path dir name)
  = (filter (λ s, s ≠ "") (split "/" dir) ++ [name])%list
  ∧ "" ∉ split "/" (GitSync.record_path dir name).
Proof.
  intros Hname Hfree.
  assert (split "/" (GitSync.record_path dir name)
          = (filter (λ s, s ≠ "") (split "/" dir) ++ [name])%list) as Heq.
  { unfold GitSync.record_path. rewrite filter_app.
    rewrite (filter_cons_True _ name []) by done. rewrite filter_nil.
    apply (split_concat "/"%char).
    - by destruct (filter _ _).
    - apply Forall_app. split; [|by repeat constructor].
      apply Forall_forall. intros s [_ Hs]%list_elem_of_filter. revert s Hs.
      apply Forall_forall. by apply split_go_free. }
  split; [done|]. rewrite Heq. intros [Hin|Hin]%elem_of_app.
  - by apply list_elem_of_filter in Hin as [? _].
  - apply list_elem_of_singleton in Hin. done.
Qed.

Lemma record_path_clean_witness :
  "intro.md" ≠ "" ∧ ("" ∉ split "/" "docs/guides")
  ∧ GitSync.record_path "docs/guides" "intro.md" = "docs/guides/intro.md"
  ∧ GitSync.record_path "" "intro.md" = "intro.md".
Proof.
  assert ("" ∉ split "/" "docs/guides") as Hdir by by_compute.
  split; [discriminate|]. split; [exact Hdir|].
  apply (record_path_clean "docs/guides" "intro.md"); [discriminate|exact Hdir].
Defined.

Lemma record_path_segments_witness :
  "intro.md" ≠ "" ∧ has_char "/" "intro.md" = false
  ∧ split "/" (GitSync.record_path "/docs//guides/" "intro.md")
    = ["docs"; "guides"; "intro.md"].
Proof.
  split; [discriminate|]. split; [reflexivity|].
  destruct (record_path_segments "/docs//guides/" "intro.md") as [H _];
    [discriminate|reflexivity|].
  rewrite H. reflexivity.
Defined.

(** * More properties of the session module *)

Section SessionSteps.
Context `{T : Transport} `{R : Runtime}.

Lemma session_refresh_ne sid sid' : session_key sid ≠ refresh_key sid'.
Proof. discriminate. Qed.

Lemma createTokens_bad_url ctx sid w :
  URL_protocol (PUBLIC_API_URL ctx) = None →
  createTokens ctx sid w = (inl InvalidUrl, w).
Proof. intros Hu. unfold createTokens. by rewrite Hu. Qed.

(** A rejected [createTokens] has changed neither the store nor the
    response. *)
Lemma createTokens_rejected ctx sid w e w' :
  createTokens ctx sid w = (inl e, w') →
  redis w' = redis w ∧ res_cookies w' = res_cookies w.
Proof.
  unfold createTokens. destruct (URL_protocol _) as [p|]; io_unfold.
  - unfold throw, call, setCookie. destruct (outages w) as [|[] o]; simpl;
      by intros [= <- <-].
  - by intros [= <- <-].
Qed.

Lemma keeps_socket_ret {A} (a : A) : keeps_socket (mret a : Io A).
Proof. by intros w. Qed.

Lemma keeps_socket_throw {A} e : keeps_socket (throw e : Io A).
Proof. by intros w. Qed.

Lemma keeps_socket_bind {A B} (m : Io A) (f : A → Io B) :
  keeps_socket m → (∀ a, keeps_socket (f a)) → keeps_socket (m ≫= f).
Proof.
  intros Hm Hf w. io_unfold. specialize (Hm w).
  destruct (m w) as [[e|a] w1]; [done|]. simpl in Hm. by rewrite Hf.
Qed.

Lemma keeps_socket_call {A} (c : gmap string entry → Redis.reply A) :
  keeps_socket (call c).
Proof.
  intros w. unfold call. destruct (outages w) as [|[] o]; try done;
    by destruct (c (redis w)) as [|[]].
Qed.

Lemma keeps_socket_clearCookie name p dom : keeps_socket (clearCookie name p dom).
Proof. by intros w. Qed.

Lemma keeps_socket_parse text : keeps_socket (parse_session text).
Proof. intros w. unfold parse_session. by destruct (JSON_parse text). Qed.

Lemma keeps_socket_deleteSession ctx sid : keeps_socket (deleteSession ctx sid).
Proof.
  unfold deleteSession.
  repeat first
    [ apply keeps_socket_call | apply keeps_socket_clearCookie
    | apply keeps_socket_parse | apply keeps_socket_ret
    | apply keeps_socket_bind; [|intros ?]
    | match goal with |- keeps_socket (match truthy ?x with _ => _ end) =>
        destruct (truthy x) end ].
Qed.

End SessionSteps.

Section SessionProps.
Context `{T : Transport} `{R : Runtime}.

(** X12. [createTokens] sets cookies only after the refresh credential is
    stored: when it rejects, the store, the response cookies, the socket
    and the log are as before, and the rejection is that of the URL of the
    API, before any round trip, or that of the store. *)
Theorem createTokens_all_or_nothing ctx sid w e w' :
  createTokens ctx sid w = (inl e, w') →
  redis w' = redis w ∧ res_cookies w' = res_cookies w
  ∧ socket w' = socket w ∧ log w' = log w
  ∧ ((e = InvalidUrl ∧ URL_protocol (PUBLIC_API_URL ctx) = None
      ∧ outages w' = outages w)
     ∨ (e = StoreUnavailable ∧ head (outages w) = Some true
        ∧ outages w' = tail (outages w))).
Proof.
  unfold createTokens. destruct (URL_protocol _) as [p|]; io_unfold.
  - unfold throw, call, setCookie. destruct (outages w) as [|[] o]; simpl;
      intros [= <- <-]; simpl. repeat split; try done. right. done.
  - intros [= <- <-]. repeat split; try done. left. done.
Qed.

(** X13. [refreshSession] deletes the refresh credential before it writes
    the new one: when the first two round trips succeed on a live session
    and the function then rejects, the session is left alive without a
    refresh credential, and no cookie has been set. *)
Theorem refreshSession_interrupted ctx sid d w o e w' :
  json_sound → live (redis w) sid d → outages w = false :: false :: o →
  refreshSession ctx sid w = (inl e, w') →
  redis w' !! refresh_key sid = None
  ∧ live (redis w') sid d
  ∧ res_cookies w' = res_cookies w.
Proof.
  intros Hj Hl Ho. unfold refreshSession.
  erewrite io_bind_ok by (eapply call_up; [exact Ho | by apply get_text]).
  rewrite (truthy_stringify d Hj).
  erewrite io_bind_ok by (eapply call_up; [reflexivity | apply del_ok]).
  io_unfold. unfold call at 1. cbn [outages redis with_redis with_outages].
  assert (live (exec (Redis.del (refresh_key sid)) (redis w)) sid d) as Hl1.
  { unfold live. rewrite text_del. rewrite decide_False; [done|].
    apply not_eq_sym, session_refresh_ne. }
  destruct o as [|[] o].
  - rewrite expire_ok. intros [Hks Hc]%createTokens_rejected.
    cbn [redis res_cookies with_redis with_outages] in *.
    rewrite Hks, Hc. split; [|split; [unfold live; by rewrite text_expire|done]].
    rewrite exec_expire_ne by apply session_refresh_ne. apply exec_del_eq.
  - intros [= <- <-]. cbn [redis res_cookies with_redis with_outages].
    split; [apply exec_del_eq|done].
  - rewrite expire_ok. intros [Hks Hc]%createTokens_rejected.
    cbn [redis res_cookies with_redis with_outages] in *.
    rewrite Hks, Hc. split; [|split; [unfold live; by rewrite text_expire|done]].
    rewrite exec_expire_ne by apply session_refresh_ne. apply exec_del_eq.
Qed.

(** X14. [createSession] stores the session before it issues the
    credentials: when the URL of the API does not parse, it rejects after
    the record, the reverse sets and the forward hashes of the new session
    are written, with no cookie set and no refresh credential stored. *)
Theorem createSession_not_atomic ctx uid w :
  outages w = [] → well_kinded (redis w) → valid_id (nanoid ctx) →
  URL_protocol (PUBLIC_API_URL ctx) = None →
  ∃ w', createSession ctx uid w = (inl InvalidUrl, w')
    ∧ live (redis w') (nanoid ctx) (loaded ctx uid)
    ∧ forward_of (redis w') (nanoid ctx) (loaded ctx uid)
    ∧ (∀ k, k ∈ index_of (loaded ctx uid) → nanoid ctx ∈ members (redis w') k)
    ∧ text (redis w') (refresh_key (nanoid ctx)) = text (redis w) (refresh_key (nanoid ctx))
    ∧ res_cookies w' = res_cookies w.
Proof.
  intros Ho Hwf Hv Hu. unfold createSession.
  erewrite io_bind_ok by apply loadSessionData_run.
  erewrite io_bind_ok
    by (apply setSession_run; rewrite ?after_load_redis, ?after_load_outages; done).
  rewrite createTokens_bad_url by done.
  eexists. split; [done|]. cbn [redis res_cookies with_redis].
  rewrite after_load_redis, after_load_cookies.
  split; [|split; [|split; [|split]]]; [| |intros k Hk| |done].
  - unfold live. by rewrite text_attach, decide_True.
  - by apply forward_attach.
  - rewrite members_attach, decide_True by done. set_solver.
  - rewrite text_attach, decide_False; [done|]. apply not_eq_sym, session_refresh_ne.
Qed.

(** X15. A request without a cached identifier and without an access
    credential that verifies is left alone by [switchWorkspaceSession]:
    it returns without a round trip and without any effect. *)
Theorem switchWorkspaceSession_unauthenticated ctx w :
  cached_id w = None →
  (∀ token sid, ¬ presents ctx AccessToken token sid) →
  switchWorkspaceSession ctx w = (inr tt, w).
Proof.
  unfold cached_id, presents. intros Hc Hno.
  assert (getSessionId ctx AccessToken w = (inr None, w)) as Hg.
  { unfold getSessionId. rewrite Hc. unfold try_catch, resolve_cookie.
    destruct (truthy (parseCookie _ !! _)) as [c|] eqn:Hck; [|done].
    destruct (truthy (unsignCookie c)) as [token|] eqn:Hun; [|done].
    unfold jwt_verify. destruct (jwtVerify (now ctx) token) as [sid|] eqn:Hv; [|done].
    destruct (Hno token sid). by exists c. }
  unfold switchWorkspaceSession. by erewrite io_bind_ok by exact Hg.
Qed.

(** X16. [deleteSession] does not revoke the access credential: a request
    authenticated for a session before [deleteSession] ran, on whatever
    context and with whatever outcome, still resolves to that session
    afterwards. *)
Theorem access_survives_deleteSession ctx ctx' sid w :
  authenticated ctx w sid →
  ∃ w'', getSessionId ctx AccessToken (deleteSession ctx' sid w).2
         = (inr (Some sid), w'').
Proof.
  intros Ha.
  destruct (getSessionId_access ctx sid (deleteSession ctx' sid w).2) as (w'' & Hg & _).
  - unfold authenticated, cached_id in *.
    by rewrite (keeps_socket_deleteSession ctx' sid w).
  - by exists w''.
Qed.

(** X17. On a request with a socket, the identifier [getSessionId]
    resolves sticks to the socket: every later call on that socket
    returns it, for either credential type and whatever cookies, clock and
    store the later request comes with. *)
Theorem getSessionId_socket_sticky ctx tokenType w sid w' :
  is_Some (socket w) → sid ≠ "" →
  getSessionId ctx tokenType w = (inr (Some sid), w') →
  ∀ ctx' tokenType' ks o,
    getSessionId ctx' tokenType' (with_redis ks (with_outages o w'))
    = (inr (Some sid), with_redis ks (with_outages o w')).
Proof.
  intros [s Hs] Hne. unfold getSessionId at 1.
  assert (∀ w0, truthy (s ← socket w0; sessionId s) = Some sid →
            ∀ ctx' tokenType' ks o,
              getSessionId ctx' tokenType' (with_redis ks (with_outages o w0))
              = (inr (Some sid), with_redis ks (with_outages o w0))) as Hcached.
  { intros w0 H0 ctx' tt' ks o. unfold getSessionId.
    cbn [socket with_redis with_outages]. by rewrite H0. }
  destruct (truthy (s ← socket w; sessionId s)) as [sid0|] eqn:Hc.
  { intros [= <- <-]. by apply Hcached. }
  unfold try_catch, resolve_cookie.
  destruct (truthy (parseCookie _ !! _)) as [c|]; [|done].
  destruct (truthy (unsignCookie c)) as [token|]; [|done].
  unfold jwt_verify. destruct (jwtVerify (now ctx) token) as [sid1|]; [|done].
  io_unfold.
  destruct tokenType.
  - unfold remember_on_socket at 1. rewrite Hs. intros [= <- <-].
    apply Hcached. simpl. by rewrite decide_False.
  - unfold call. destruct (outages w) as [|[] o]; [|done|];
      unfold Redis.exists_; (destruct (redis w !! _); simpl; [|done]);
      unfold remember_on_socket; cbn [socket with_redis with_outages];
      rewrite Hs; intros [= <- <-]; apply Hcached; simpl; by rewrite decide_False.
Qed.

End SessionProps.

Section SessionStore.
Context `{T : Transport} `{R : Runtime}.
Implicit Types (ks : gmap string entry).

Lemma hdel_settles ks h f : settled_hash (exec (Redis.hdel h f) ks) h f.
Proof.
  unfold settled_hash, exec, Redis.hdel.
  destruct (ks !! h) as [[[s|s|m] t]|] eqn:E; rewrite ?E; try done.
  case_decide as Hm.
  - by rewrite lookup_delete_eq.
  - rewrite lookup_insert_eq. split; [by rewrite lookup_delete_eq|done].
Qed.

Lemma hdel_settled ks h f : settled_hash ks h f → exec (Redis.hdel h f) ks = ks.
Proof.
  unfold settled_hash, exec, Redis.hdel.
  destruct (ks !! h) as [[[s|s|m] t]|] eqn:E; try done.
  intros [Hf Hm]. rewrite (delete_id m f Hf).
  rewrite decide_False by done. by apply insert_id.
Qed.

Lemma settled_hash_lookup ks ks' h f :
  ks' !! h = ks !! h → settled_hash ks h f → settled_hash ks' h f.
Proof. unfold settled_hash. by intros ->. Qed.

Lemma unhash_settles ks sid k :
  k ∉ forward_hashes →
  let ks' := exec (Redis.del k) (unhash_ks sid ks) in
  exec (Redis.del k) (unhash_ks sid ks') = ks'.
Proof.
  intros Hk ks'. apply not_forward_hash in Hk as (Hk1 & Hk2 & Hk3).
  assert (settled_hash ks' "session:role" sid) as H1.
  { eapply settled_hash_lookup; [|apply hdel_settles].
    unfold ks', unhash_ks. by rewrite exec_del_ne, !exec_hdel_ne by done. }
  assert (settled_hash ks' "session:user" sid) as H2.
  { eapply settled_hash_lookup; [|apply hdel_settles].
    unfold ks', unhash_ks. by rewrite exec_del_ne, !exec_hdel_ne by done. }
  assert (settled_hash ks' "session:workspace" sid) as H3.
  { eapply settled_hash_lookup; [|apply hdel_settles].
    unfold ks', unhash_ks. by rewrite exec_del_ne by done. }
  unfold unhash_ks at 1. rewrite (hdel_settled ks' _ _ H1).
  rewrite (hdel_settled ks' _ _ H2), (hdel_settled ks' _ _ H3).
  unfold exec at 1. simpl. apply delete_id. apply exec_del_eq.
Qed.

Lemma refresh_not_forward sid : refresh_key sid ∉ forward_hashes.
Proof. apply not_forward_hash. by repeat split. Qed.

End SessionStore.

Section SessionProps2.
Context `{T : Transport} `{R : Runtime}.
Implicit Types (ks : gmap string entry).

(** X18. [deleteSession] is idempotent on the store: run a second time,
    on any request, it succeeds and leaves the keyspace the first run
    left. *)
Theorem deleteSession_idempotent ctx ctx' sid w :
  json_sound → outages w = [] → well_kinded (redis w) →
  (redis w !! session_key sid = None ∨ ∃ d, live (redis w) sid d) →
  ∃ w1 w2, deleteSession ctx sid w = (inr tt, w1)
    ∧ deleteSession ctx' sid w1 = (inr tt, w2)
    ∧ redis w2 = redis w1.
Proof.
  intros Hj Ho Hwf [Ha|[d Hl]].
  - rewrite (deleteSession_absent ctx sid w Ho Hwf Ha). eexists _, _.
    split; [done|]. rewrite deleteSession_absent; cbn [redis outages with_redis with_res_cookies].
    + split; [done|]. apply unhash_settles, refresh_not_forward.
    + done.
    + auto using well_kinded_del, unhash_ks_kinded.
    + rewrite exec_del_ne by apply not_eq_sym, session_refresh_ne.
      by apply lookup_unhash_none.
  - rewrite (deleteSession_live ctx sid d w Hj Ho Hwf Hl). eexists _, _.
    split; [done|]. rewrite deleteSession_absent; cbn [redis outages with_redis with_res_cookies].
    + split; [done|]. apply unhash_settles, refresh_not_forward.
    + done.
    + auto using well_kinded_del, unhash_ks_kinded, detach_ks_kinded.
    + destruct (session_key_free (redis w) d sid _ Hwf Hl) as [Hni _].
      rewrite exec_del_ne by apply not_eq_sym, session_refresh_ne.
      apply lookup_unhash_none. rewrite lookup_detach_ne by done. apply exec_del_eq.
Qed.

(** X19. [updateSession] touches one session only and never removes a
    membership: the records, the refresh credentials and the forward
    entries of the other sessions are unchanged, no reverse set loses a
    member, and the refresh credential of the session itself and the
    response cookies are unchanged. *)
Theorem updateSession_touches_one_session ctx sid uid w :
  outages w = [] → well_kinded (redis w) → valid_id sid →
  ∃ w', updateSession ctx sid uid w = (inr tt, w')
    ∧ (∀ sid', sid' ≠ sid →
         text (redis w') (session_key sid') = text (redis w) (session_key sid')
         ∧ (∀ k, field (redis w') k sid' = field (redis w) k sid')
         ∧ (∀ k, sid' ∈ members (redis w') k ↔ sid' ∈ members (redis w) k))
    ∧ (∀ k, members (redis w) k ⊆ members (redis w') k)
    ∧ (∀ sid', text (redis w') (refresh_key sid') = text (redis w) (refresh_key sid'))
    ∧ res_cookies w' = res_cookies w.
Proof.
  intros Ho Hwf Hv.
  destruct (updateSession_run ctx sid uid w Ho Hwf Hv) as (w' & Hrun & Hks & _ & Hc & _).
  exists w'. split; [done|]. rewrite Hks.
  destruct (truthy (text (redis w) (session_key sid))); [|by repeat split].
  split; [|split; [|split]]; [| | |done].
  - intros sid' Hne. split; [|split].
    + rewrite text_attach, decide_False; [done|]. by intros ?%session_key_inj.
    + intros k. by apply field_attach_ne.
    + intros k. rewrite members_attach by done. case_decide; set_solver.
  - intros k. rewrite members_attach by done. case_decide; set_solver.
  - intros sid'. rewrite text_attach, decide_False; [done|].
    apply not_eq_sym, session_refresh_ne.
Qed.

(** X20. [refreshSession] on a live session never reloads the record: it
    keeps its text, resets its time to live to sixty days, stores the
    new refresh credential with the same time to live, and leaves every
    other key and the log as they were. *)
Theorem refreshSession_slides ctx sid d w protocol :
  json_sound → outages w = [] → live (redis w) sid d →
  URL_protocol (PUBLIC_API_URL ctx) = Some protocol →
  ∃ w', refreshSession ctx sid w = (inr tt, w')
    ∧ redis w' !! session_key sid
      = Some (Entry (VString (JSON_stringify d)) (Some sixty_days))
    ∧ redis w' !! refresh_key sid
      = Some (Entry (VString (jwtSign sid sixty_days (now ctx))) (Some sixty_days))
    ∧ (∀ k, k ≠ session_key sid → k ≠ refresh_key sid → redis w' !! k = redis w !! k)
    ∧ log w' = log w.
Proof.
  intros Hj Ho Hl Hu. rewrite (refreshSession_live ctx sid d w protocol Hj Ho Hl Hu).
  eexists. split; [done|]. cbn [redis log with_redis with_res_cookies].
  split; [|split; [|split]]; [|apply lookup_issue| |done].
  - unfold issue_ks. rewrite exec_set_ex_ne by apply not_eq_sym, session_refresh_ne.
    unfold live, text in Hl. unfold exec at 1, Redis.expire.
    rewrite exec_del_ne by apply not_eq_sym, session_refresh_ne.
    destruct (redis w !! session_key sid) as [[[s|s|m] t]|]; try done.
    injection Hl as ->. by rewrite lookup_insert_eq.
  - intros k Hk1 Hk2. unfold issue_ks.
    by rewrite exec_set_ex_ne, exec_expire_ne, exec_del_ne by done.
Qed.

(** X21. An account whose selected workspace exists but of which it is no
    member gets a record with the subscription of that workspace and
    with no workspace, role or permission; nothing is logged. *)
Theorem loadSessionData_non_member ctx uid w us ws :
  userSettings_findOne (db ctx) uid = Res (Some us) →
  workspaceMemberships_findOne (db ctx) uid (currentWorkspaceId us) = Res None →
  workspaces_findOne (db ctx) (currentWorkspaceId us) = Res (Some ws) →
  loadSessionData ctx uid w
  = (inr {| workspaceId := "";
            subscriptionStatus := ws_subscriptionStatus ws;
            subscriptionPlan := ws_subscriptionPlan ws;
            userId := uid; roleId := ""; permissions := []; baseType := None |}, w).
Proof.
  intros Hu Hm Hw. unfold loadSessionData, load_try. by rewrite Hu, Hm, Hw.
Qed.

(** X22. An account that is a member of its selected workspace while the
    record of the workspace is missing gets a record with the role and
    the permissions of the membership and with no workspace; nothing is
    logged. *)
Theorem loadSessionData_missing_workspace ctx uid w us m r :
  userSettings_findOne (db ctx) uid = Res (Some us) →
  workspaceMemberships_findOne (db ctx) uid (currentWorkspaceId us) = Res (Some m) →
  workspaces_findOne (db ctx) (currentWorkspaceId us) = Res None →
  roles_findOne (db ctx) (m_roleId m) = Res (Some r) →
  loadSessionData ctx uid w
  = (inr {| workspaceId := ""; subscriptionStatus := None; subscriptionPlan := None;
            userId := uid; roleId := r_id r; permissions := r_permissions r;
            baseType := r_baseType r |}, w).
Proof.
  intros Hu Hm Hw Hr. unfold loadSessionData, load_try. by rewrite Hu, Hm, Hw, Hr.
Qed.

End SessionProps2.

Section FanOutMore.
Context `{T : Transport} `{R : Runtime}.
Implicit Types (ks : gmap string entry).

Lemma updateSessionWorkspace_unfold ctx wid :
  updateSessionWorkspace ctx wid
  = (sessionIds ← call (Redis.smembers (workspace_key wid));
     for_each sessionIds (member_update ctx)).
Proof. done. Qed.

Lemma own_ks_kinded ctx uid sid ks :
  well_kinded ks → valid_id sid → well_kinded (own_ks ctx uid sid ks).
Proof.
  intros Hwf Hv. unfold own_ks. destruct (truthy (text _ _)); [|done].
  by apply attach_ks_kinded.
Qed.

Lemma own_loop ctx uid l w :
  outages w = [] → well_kinded (redis w) → Forall valid_id l →
  ∃ w', for_each l (λ sid, updateSession ctx sid uid) w = (inr tt, w')
    ∧ redis w' = own_fan_ks ctx uid l (redis w)
    ∧ outages w' = [] ∧ res_cookies w' = res_cookies w ∧ socket w' = socket w.
Proof.
  revert w. induction l as [|sid l IH]; intros w Ho Hwf Hl.
  { by exists w. }
  apply Forall_cons in Hl as [Hv Hl].
  destruct (updateSession_run ctx sid uid w Ho Hwf Hv) as (w1 & H1 & Hks1 & Ho1 & Hc1 & Hs1).
  fold (own_ks ctx uid sid (redis w)) in Hks1.
  destruct (IH w1) as (w' & H' & Hks' & Ho' & Hc' & Hs'); [done| |done|].
  { rewrite Hks1. by apply own_ks_kinded. }
  exists w'. split.
  - simpl. by erewrite io_bind_ok by exact H1.
  - simpl. rewrite Hks', Hks1, Hc', Hc1, Hs', Hs1. done.
Qed.

Lemma own_ks_other ctx uid x ks sid :
  sid ≠ x →
  text (own_ks ctx uid x ks) (session_key sid) = text ks (session_key sid).
Proof.
  intros Hne. unfold own_ks. destruct (truthy (text ks (session_key x))); [|done].
  rewrite text_attach, decide_False; [done|]. by intros ?%session_key_inj.
Qed.

Lemma own_fan_ks_other ctx uid l ks sid :
  sid ∉ l →
  text (own_fan_ks ctx uid l ks) (session_key sid) = text ks (session_key sid).
Proof.
  revert ks. induction l as [|x l IH]; intros ks Hni; [done|].
  apply not_elem_of_cons in Hni as [Hne Hni].
  simpl. rewrite IH by done. by apply own_ks_other.
Qed.

Lemma own_fan_ks_member ctx uid l ks sid :
  NoDup l → sid ∈ l →
  text (own_fan_ks ctx uid l ks) (session_key sid)
  = match truthy (text ks (session_key sid)) with
    | Some _ => Some (JSON_stringify (loaded ctx uid))
    | None => text ks (session_key sid)
    end.
Proof.
  revert ks. induction l as [|x l IH]; intros ks Hnd Hin.
  { by apply elem_of_nil in Hin. }
  apply NoDup_cons in Hnd as [Hx Hnd].
  simpl. destruct (decide (sid = x)) as [->|Hne].
  - rewrite own_fan_ks_other by done. unfold own_ks.
    destruct (truthy (text ks (session_key x))); [|done].
    by rewrite text_attach, decide_True.
  - apply elem_of_cons in Hin as [?|Hin]; [done|].
    rewrite IH by done. by rewrite own_ks_other.
Qed.

End FanOutMore.

Section FanOutProps.
Context `{T : Transport} `{R : Runtime}.

(** X23. When no round trip fails, [updateSessionUser] reloads every live
    session in the reverse set of the account from the lookups for that
    account, without reading the forward hash; the sessions outside the
    set and those without a record keep what they had, and no cookie is
    set. *)
Theorem updateSessionUser_fan_out ctx uid w :
  outages w = [] → well_kinded (redis w) →
  (∀ sid, sid ∈ members (redis w) (user_key uid) → valid_id sid) →
  ∃ w', updateSessionUser ctx uid w = (inr tt, w')
    ∧ (∀ sid, sid ∈ members (redis w) (user_key uid) →
         is_Some (truthy (text (redis w) (session_key sid))) →
         live (redis w') sid (loaded ctx uid))
    ∧ (∀ sid, sid ∉ members (redis w) (user_key uid)
              ∨ truthy (text (redis w) (session_key sid)) = None →
         text (redis w') (session_key sid) = text (redis w) (session_key sid))
    ∧ res_cookies w' = res_cookies w.
Proof.
  intros Ho Hwf Hvalid.
  set (l := elements (members (redis w) (user_key uid))).
  assert (Forall valid_id l) as Hl.
  { apply Forall_forall. intros sid Hin. apply Hvalid. by apply elem_of_elements. }
  assert (NoDup l) as Hnd by apply NoDup_elements.
  destruct (own_loop ctx uid l w Ho Hwf Hl) as (w' & Hrun & Hks & _ & Hc & _).
  exists w'. split.
  { unfold updateSessionUser.
    erewrite io_bind_ok by (apply call_read; [done | by apply smembers_ok]).
    exact Hrun. }
  rewrite Hks. split; [|split; [|done]].
  - intros sid Hin [s Hs]. unfold live.
    rewrite (own_fan_ks_member ctx uid l) by (try done; by apply elem_of_elements in Hin).
    by rewrite Hs.
  - intros sid Hsid. destruct (decide (sid ∈ l)) as [Hin|Hni].
    + destruct Hsid as [Hout|Hnone]; [by apply elem_of_elements in Hin|].
      rewrite (own_fan_ks_member ctx uid l) by done. by rewrite Hnone.
    + by apply own_fan_ks_other.
Qed.

(** X24. When no round trip fails, [updateSessionWorkspace] reloads every
    live session in the reverse set of the workspace whose account the
    forward hash names, from the lookups for that account; the sessions
    without a forward entry and those outside the set keep their record.
    When the store fails at the second round trip, with a set that is not
    empty, it rejects before any record is written. *)
Theorem updateSessionWorkspace_fan_out ctx wid w :
  well_kinded (redis w) →
  (outages w = [] →
   (∀ sid, sid ∈ members (redis w) (workspace_key wid) → valid_id sid) →
   ∃ w', updateSessionWorkspace ctx wid w = (inr tt, w')
     ∧ (∀ sid u,
          sid ∈ members (redis w) (workspace_key wid) →
          truthy (field (redis w) "session:user" sid) = Some u →
          is_Some (truthy (text (redis w) (session_key sid))) →
          live (redis w') sid (loaded ctx u))
     ∧ (∀ sid,
          sid ∉ members (redis w) (workspace_key wid)
          ∨ truthy (field (redis w) "session:user" sid) = None →
          text (redis w') (session_key sid) = text (redis w) (session_key sid))
     ∧ res_cookies w' = res_cookies w)
  ∧ (∀ o, outages w = false :: true :: o →
       members (redis w) (workspace_key wid) ≠ ∅ →
       updateSessionWorkspace ctx wid w = (inl StoreUnavailable, with_outages o w)).
Proof.
  intros Hwf. split.
  - intros Ho Hvalid.
    set (l := elements (members (redis w) (workspace_key wid))).
    assert (Forall valid_id l) as Hl.
    { apply Forall_forall. intros sid Hin. apply Hvalid. by apply elem_of_elements. }
    assert (NoDup l) as Hnd by apply NoDup_elements.
    destruct (fan_out_loop ctx l w Ho Hwf Hl) as (w' & Hrun & Hks & _ & Hc & _).
    exists w'. split.
    { rewrite updateSessionWorkspace_unfold.
      erewrite io_bind_ok by (apply call_read; [done | by apply smembers_ok]).
      exact Hrun. }
    rewrite Hks. split; [|split; [|done]].
    + intros sid u Hin Hu [s Hs]. unfold live.
      rewrite (fan_ks_member ctx l) by (try done; by apply elem_of_elements in Hin).
      by rewrite Hu, Hs.
    + intros sid Hsid. destruct (decide (sid ∈ l)) as [Hin|Hni].
      * destruct Hsid as [Hout|Hnone]; [by apply elem_of_elements in Hin|].
        rewrite (fan_ks_member ctx l) by done. by rewrite Hnone.
      * by apply fan_ks_other.
  - intros o Ho Hne.
    rewrite updateSessionWorkspace_unfold.
    destruct (elements (members (redis w) (workspace_key wid))) as [|x l] eqn:El.
    { apply elements_empty_inv in El. by apply leibniz_equiv in El. }
    unfold mbind, io_mbind, io_bind, call at 1. rewrite Ho.
    rewrite (smembers_ok _ _ Hwf (key_kind_workspace wid)), El. simpl.
    unfold member_update, mbind, io_mbind, io_bind, call. simpl.
    by destruct w.
Qed.

End FanOutProps.

(** ** The properties on the example session *)

Lemma createTokens_all_or_nothing_witness :
  let w := with_outages [true] Example.empty_world in
  ∃ w', createTokens Example.ctx_create "s1" w = (inl StoreUnavailable, w')
    ∧ redis w' = redis w ∧ res_cookies w' = res_cookies w.
Proof.
  intros w. set (w' := (createTokens Example.ctx_create "s1" w).2).
  assert (createTokens Example.ctx_create "s1" w = (inl StoreUnavailable, w')) as E
    by reflexivity.
  exists w'. split; [exact E|].
  destruct (createTokens_all_or_nothing Example.ctx_create "s1" w _ w' E)
    as (Hks & Hc & _).
  split; [exact Hks|exact Hc].
Defined.

Lemma refreshSession_interrupted_witness :
  let w := SessionExample.world_failing in
  json_sound ∧ live (redis w) "s1" (loaded Example.ctx_create "acct1")
  ∧ outages w = [false; false; true]
  ∧ ∃ w', refreshSession Example.ctx_refresh1 "s1" w = (inl StoreUnavailable, w')
      ∧ redis w' !! refresh_key "s1" = None
      ∧ live (redis w') "s1" (loaded Example.ctx_create "acct1")
      ∧ res_cookies w' = res_cookies w.
Proof.
  intros w.
  assert (json_sound) as Hj by exact demo_json_sound.
  assert (live (redis w) "s1" (loaded Example.ctx_create "acct1")) as Hl
    by exact world_created_live.
  split; [exact Hj|]. split; [exact Hl|]. split; [reflexivity|].
  set (w' := (refreshSession Example.ctx_refresh1 "s1" w).2).
  assert (refreshSession Example.ctx_refresh1 "s1" w = (inl StoreUnavailable, w')) as E.
  { rewrite (surjective_pairing (refreshSession Example.ctx_refresh1 "s1" w)).
    f_equal; vm_compute; reflexivity. }
  exists w'. split; [exact E|].
  exact (refreshSession_interrupted Example.ctx_refresh1 "s1" _ w [true] _ w'
           Hj Hl eq_refl E).
Defined.

Lemma createSession_not_atomic_witness :
  let ctx := SessionExample.ctx_bad_url in
  let w := Example.empty_world in
  outages w = [] ∧ well_kinded (redis w) ∧ valid_id (nanoid ctx)
  ∧ URL_protocol (PUBLIC_API_URL ctx) = None
  ∧ ∃ w', createSession ctx "acct1" w = (inl InvalidUrl, w')
      ∧ live (redis w') "s9" (loaded ctx "acct1")
      ∧ res_cookies w' = [].
Proof.
  intros ctx w.
  assert (valid_id (nanoid ctx)) as Hv by (by repeat split).
  assert (URL_protocol (PUBLIC_API_URL ctx) = None) as Hu by reflexivity.
  split; [reflexivity|]. split; [exact well_kinded_empty|]. split; [exact Hv|].
  split; [exact Hu|].
  destruct (createSession_not_atomic ctx "acct1" w eq_refl well_kinded_empty Hv Hu)
    as (w' & Hrun & Hl & _ & _ & _ & Hc).
  exists w'. split; [exact Hrun|]. split; [exact Hl|exact Hc].
Defined.

Lemma switchWorkspaceSession_unauthenticated_witness :
  let ctx := Example.ctx_create in
  let w := Example.world_created in
  cached_id w = None
  ∧ (∀ token sid, ¬ presents ctx AccessToken token sid)
  ∧ switchWorkspaceSession ctx w = (inr tt, w).
Proof.
  intros ctx w.
  assert (∀ token sid, ¬ presents ctx AccessToken token sid) as Hno.
  { intros token sid (c & Hc & _). vm_compute in Hc. discriminate. }
  split; [reflexivity|]. split; [exact Hno|].
  exact (switchWorkspaceSession_unauthenticated ctx w eq_refl Hno).
Defined.

Lemma access_survives_deleteSession_witness :
  let ctx := SessionExample.ctx_access in
  let w := Example.world_created in
  authenticated ctx w "s1"
  ∧ redis (deleteSession ctx "s1" w).2 !! session_key "s1" = None
  ∧ ∃ w'', getSessionId ctx AccessToken (deleteSession ctx "s1" w).2
           = (inr (Some "s1"), w'').
Proof.
  intros ctx w.
  assert (authenticated ctx w "s1") as Hauth.
  { right. split; [reflexivity|].
    exists (jwtSign "s1" one_day 1000), ("s:" +:+ jwtSign "s1" one_day 1000).
    repeat split; vm_compute; reflexivity. }
  split; [exact Hauth|]. split; [vm_compute; reflexivity|].
  exact (access_survives_deleteSession ctx ctx "s1" w Hauth).
Defined.

Lemma getSessionId_socket_sticky_witness :
  let ctx := SessionExample.ctx_access in
  let w := Example.world_connected in
  is_Some (socket w) ∧ "s1" ≠ ""
  ∧ ∃ w', getSessionId ctx AccessToken w = (inr (Some "s1"), w')
      ∧ getSessionId Example.ctx_create RefreshToken (with_redis ∅ (with_outages [] w'))
        = (inr (Some "s1"), with_redis ∅ (with_outages [] w')).
Proof.
  intros ctx w.
  assert (is_Some (socket w)) as Hs by (eexists; reflexivity).
  assert ("s1" ≠ "") as Hne by discriminate.
  split; [exact Hs|]. split; [exact Hne|].
  set (w' := (getSessionId ctx AccessToken w).2).
  assert (getSessionId ctx AccessToken w = (inr (Some "s1"), w')) as E.
  { rewrite (surjective_pairing (getSessionId ctx AccessToken w)).
    f_equal; vm_compute; reflexivity. }
  exists w'. split; [exact E|].
  exact (getSessionId_socket_sticky ctx AccessToken w "s1" w' Hs Hne E
           Example.ctx_create RefreshToken ∅ []).
Defined.

Lemma deleteSession_idempotent_witness :
  let w := Example.world_created in
  json_sound ∧ outages w = [] ∧ well_kinded (redis w)
  ∧ (∃ d, live (redis w) "s1" d)
  ∧ ∃ w1 w2, deleteSession Example.ctx_create "s1" w = (inr tt, w1)
      ∧ deleteSession Example.ctx_create "s1" w1 = (inr tt, w2)
      ∧ redis w2 = redis w1.
Proof.
  intros w.
  assert (json_sound) as Hj by exact demo_json_sound.
  assert (∃ d, live (redis w) "s1" d) as Hl by (eexists; exact world_created_live).
  split; [exact Hj|]. split; [reflexivity|]. split; [exact world_created_kinded|].
  split; [exact Hl|].
  exact (deleteSession_idempotent Example.ctx_create Example.ctx_create "s1" w
           Hj eq_refl world_created_kinded (or_intror Hl)).
Defined.

Lemma updateSession_touches_one_session_witness :
  let w := Example.world_three in
  outages w = [] ∧ well_kinded (redis w) ∧ valid_id "s1"
  ∧ ∃ w', updateSession Example.ctx_fan_out "s1" "a1" w = (inr tt, w')
      ∧ text (redis w') (session_key "s2") = text (redis w) (session_key "s2")
      ∧ res_cookies w' = res_cookies w.
Proof.
  intros w.
  assert (well_kinded (redis w)) as Hwf
    by (apply well_kinded_check; vm_compute; reflexivity).
  split; [reflexivity|]. split; [exact Hwf|]. split; [exact valid_id_s1|].
  destruct (updateSession_touches_one_session Example.ctx_fan_out "s1" "a1" w
              eq_refl Hwf valid_id_s1) as (w' & Hrun & Hother & _ & _ & Hc).
  exists w'. split; [exact Hrun|]. split; [|exact Hc].
  destruct (Hother "s2") as [Ht _]; [discriminate|exact Ht].
Defined.

Lemma refreshSession_slides_witness :
  let w := Example.world_created in
  let ctx := Example.ctx_refresh1 in
  json_sound ∧ outages w = []
  ∧ live (redis w) "s1" (loaded Example.ctx_create "acct1")
  ∧ URL_protocol (PUBLIC_API_URL ctx) = Some "https:"
  ∧ ∃ w', refreshSession ctx "s1" w = (inr tt, w')
      ∧ redis w' !! session_key "s1"
        = Some (Entry (VString (JSON_stringify (loaded Example.ctx_create "acct1")))
                  (Some sixty_days))
      ∧ redis w' !! refresh_key "s1"
        = Some (Entry (VString (jwtSign "s1" sixty_days 2000)) (Some sixty_days)).
Proof.
  intros w ctx.
  assert (json_sound) as Hj by exact demo_json_sound.
  assert (URL_protocol (PUBLIC_API_URL ctx) = Some "https:") as Hu by reflexivity.
  split; [exact Hj|]. split; [reflexivity|]. split; [exact world_created_live|].
  split; [exact Hu|].
  destruct (refreshSession_slides ctx "s1" _ w "https:" Hj eq_refl
              world_created_live Hu) as (w' & Hrun & Hs & Hr & _).
  exists w'. split; [exact Hrun|]. split; [exact Hs|exact Hr].
Defined.

Lemma loadSessionData_non_member_witness :
  let ctx := Example.request None 1000 "x" SessionExample.db_non_member "acct1" in
  loadSessionData ctx "acct1" Example.empty_world
  = (inr {| workspaceId := ""; subscriptionStatus := Some "active";
            subscriptionPlan := Some "team"; userId := "acct1"; roleId := "";
            permissions := []; baseType := None |}, Example.empty_world).
Proof.
  intros ctx.
  exact (loadSessionData_non_member ctx "acct1" Example.empty_world
           {| currentWorkspaceId := "w1" |}
           {| ws_id := "w1"; ws_subscriptionStatus := Some "active";
              ws_subscriptionPlan := Some "team" |} eq_refl eq_refl eq_refl).
Defined.

Lemma loadSessionData_missing_workspace_witness :
  let ctx := Example.request None 1000 "x" SessionExample.db_missing_workspace "acct1" in
  loadSessionData ctx "acct1" Example.empty_world
  = (inr {| workspaceId := ""; subscriptionStatus := None; subscriptionPlan := None;
            userId := "acct1"; roleId := "r1"; permissions := ["read"];
            baseType := None |}, Example.empty_world).
Proof.
  intros ctx.
  exact (loadSessionData_missing_workspace ctx "acct1" Example.empty_world
           {| currentWorkspaceId := "w1" |} {| m_roleId := "r1" |} Example.role_r1
           eq_refl eq_refl eq_refl eq_refl).
Defined.

Lemma updateSessionUser_fan_out_witness :
  let w := Example.world_three in
  let ctx := Example.ctx_fan_out in
  outages w = [] ∧ well_kinded (redis w)
  ∧ (∀ sid, sid ∈ members (redis w) (user_key "a1") → valid_id sid)
  ∧ ∃ w', updateSessionUser ctx "a1" w = (inr tt, w')
      ∧ live (redis w') "s1" (loaded ctx "a1")
      ∧ text (redis w') (session_key "s2") = text (redis w) (session_key "s2").
Proof.
  intros w ctx.
  assert (well_kinded (redis w)) as Hwf
    by (apply well_kinded_check; vm_compute; reflexivity).
  assert (∀ sid, sid ∈ members (redis w) (user_key "a1") → valid_id sid) as Hv.
  { intros sid Hin.
    assert (sid ∈ ["s1"]) as Hl by (apply elem_of_elements in Hin; exact Hin).
    apply list_elem_of_singleton in Hl as ->. exact valid_id_s1. }
  split; [reflexivity|]. split; [exact Hwf|]. split; [exact Hv|].
  destruct (updateSessionUser_fan_out ctx "a1" w eq_refl Hwf Hv)
    as (w' & Hrun & Hlive & Hrest & _).
  exists w'. split; [exact Hrun|]. split.
  - apply Hlive; [by_compute|]. vm_compute. by eexists.
  - apply Hrest. left. by_compute.
Defined.

Lemma updateSessionWorkspace_fan_out_witness :
  let w := Example.world_three in
  let ctx := Example.ctx_fan_out in
  well_kinded (redis w) ∧ outages w = []
  ∧ (∀ sid, sid ∈ members (redis w) (workspace_key "w1") → valid_id sid)
  ∧ ∃ w', updateSessionWorkspace ctx "w1" w = (inr tt, w')
      ∧ live (redis w') "s1" (loaded ctx "a1")
      ∧ live (redis w') "s3" (loaded ctx "a3").
Proof.
  intros w ctx.
  assert (well_kinded (redis w)) as Hwf
    by (apply well_kinded_check; vm_compute; reflexivity).
  assert (∀ sid, sid ∈ members (redis w) (workspace_key "w1") → valid_id sid) as Hv.
  { intros sid Hin.
    assert (sid ∈ ["s3"; "s1"; "s2"]) as Hl
      by (apply elem_of_elements in Hin; exact Hin).
    repeat (apply elem_of_cons in Hl as [->|Hl]; [by repeat split|]).
    by apply elem_of_nil in Hl. }
  split; [exact Hwf|]. split; [reflexivity|]. split; [exact Hv|].
  destruct (proj1 (updateSessionWorkspace_fan_out ctx "w1" w Hwf) eq_refl Hv)
    as (w' & Hrun & Hlive & _).
  exists w'. split; [exact Hrun|].
  split; apply Hlive; try by_compute; try (vm_compute; reflexivity); by eexists.
Defined.
